(** * restpf: callback scheduling, selection, merging and the pipeline

    A shallow embedding of
    - [restpf/utils/helper_functions.py]: [_extract_kwargs_subset],
      [async_call], [parallel_groups_of_callbacks];
    - [restpf/pipeline/protocol.py]: [ContextRule], [_merge_output_of_callbacks],
      [PipelineBase].

    Python objects are modelled by the observations the code makes of them:
    truthiness, attribute lookup, dictionary access, function identity. *)

From Stdlib Require Import ZArith Lia.
From stdpp Require Import gmap strings list fin_maps fin_sets relations.

Set Warnings "-register-all,-clear-no-such-hyp".
Open Scope string_scope.
Open Scope list_scope.
Open Scope nat_scope.

(** ** Exceptions and results *)

Inductive Exception : Type :=
| RuntimeError (msg : string)
| KeyError
| TypeError
| AttributeError (name : string).

(** The outcome of running a piece of Python: a value, a raised exception, or
    [OutOfFuel] when a fuel-bounded loop of the model was cut short (the
    theorems show this does not happen with the fuel the model supplies). *)
Inductive Result (A : Type) : Type :=
| Ok (a : A)
| Raise (e : Exception)
| OutOfFuel.
Arguments Ok {A} a.
Arguments Raise {A} e.
Arguments OutOfFuel {A}.

#[global] Instance Result_ret : MRet Result := λ A a, Ok a.
#[global] Instance Result_bind : MBind Result := λ A B f m,
  match m with
  | Ok a => f a
  | Raise e => Raise e
  | OutOfFuel => OutOfFuel
  end.

(** What a call of a function from outside the modelled code comes to: it
    returns or it raises. *)
Inductive Outcome (A : Type) : Type :=
| Returns (a : A)
| Raises (e : Exception).
Arguments Returns {A} a.
Arguments Raises {A} e.

Definition of_outcome {A : Type} (o : Outcome A) : Result A :=
  match o with
  | Returns a => Ok a
  | Raises e => Raise e
  end.

(** A [for] loop whose body may raise: the state is threaded left to right
    and the first exception ends the loop. *)
Fixpoint for_each {A S : Type} (body : S → A → Result S) (l : list A) (s : S) : Result S :=
  match l with
  | [] => Ok s
  | x :: l' => s' ← body s x; for_each body l' s'
  end.

(** ** Python values *)

Inductive PyVal : Type :=
| PyNone
| PyBool (b : bool)
| PyInt (z : Z)
| PyStr (s : string)
| PyList (l : list PyVal)
| PyDict (d : list (string * PyVal)).

(** [bool(v)]: the truth value Python gives to a value. *)
Definition truthy (v : PyVal) : bool :=
  match v with
  | PyNone => false
  | PyBool b => b
  | PyInt z => negb (z =? 0)%Z
  | PyStr s => negb (String.eqb s "")
  | PyList l => match l with [] => false | _ => true end
  | PyDict d => match d with [] => false | _ => true end
  end.

(** Dictionaries keep insertion order; [d.get(k)] and [d[k] = v]. *)
Fixpoint dict_get (k : string) (d : list (string * PyVal)) : PyVal :=
  match d with
  | [] => PyNone
  | (k', v) :: d' => if String.eqb k k' then v else dict_get k d'
  end.

Fixpoint dict_set (k : string) (v : PyVal) (d : list (string * PyVal)) : list (string * PyVal) :=
  match d with
  | [] => [(k, v)]
  | (k', v') :: d' => if String.eqb k k' then (k, v) :: d' else (k', v') :: dict_set k v d'
  end.

(** A callback is a Python function object; the code only compares and hashes
    it, so it is represented by its identity. *)
Definition pyfunc : Type := nat.

(** ** [helper_functions.py]: keyword filtering and [async_call] *)

(** One entry of [inspect.signature(func).parameters]. *)
Record Param : Type := MkParam {
  p_name : string;
  p_has_default : bool
}.

Section AsyncCall.

(** [V]: what is passed as arguments; [R]: what functions return. *)
Context {V R : Type}.

(** The function objects of the program: signature, body, whether the
    function is a coroutine function and, if so, how many times its body
    suspends before it returns. *)
Record FuncEnv : Type := MkFuncEnv {
  fn_signature : pyfunc → list Param;
  fn_body : pyfunc → list V → gmap string V → Outcome R;
  fn_iscoroutine : pyfunc → bool;
  fn_suspensions : pyfunc → nat
}.

Context (env : FuncEnv).

Definition params_all (func : pyfunc) : gset string :=
  list_to_set (p_name <$> fn_signature env func).

Definition params_without_default (func : pyfunc) : gset string :=
  list_to_set (p_name <$> filter (λ p, p_has_default p = false) (fn_signature env func)).

(** The module-level [_extract_kwargs_subset_cache] maps a function to
    (params_all, params_without_default); it is coherent when it holds what
    the signatures say. *)
Definition cache_coherent (cache : gmap pyfunc (gset string * gset string)) : Prop :=
  ∀ func ps, cache !! func = Some ps →
    ps = (params_all func, params_without_default func).

(** [_extract_kwargs_subset(func, kwargs)], with the module-level cache as
    explicit state. *)
Definition _extract_kwargs_subset
    (cache : gmap pyfunc (gset string * gset string))
    (func : pyfunc) (kwargs : gmap string V)
  : gmap pyfunc (gset string * gset string) * Outcome (gmap string V) :=
  let '(cache, (p_all, p_without_default)) :=
    match cache !! func with
    | Some ps => (cache, ps)
    | None =>
        let ps := (params_all func, params_without_default func) in
        (<[func := ps]> cache, ps)
    end in
  let kwargs_keys : gset string := dom kwargs in
  if decide (p_without_default ⊆ kwargs_keys) then
    let intersection := p_all ∩ kwargs_keys in
    (cache, Returns (filter (λ kv, kv.1 ∈ intersection) kwargs))
  else
    (cache, Raises (RuntimeError "Missing keys")).

(** What a run leaves behind for an observer. *)
Inductive Event : Type :=
| EvCall (func : pyfunc) (args : list V) (kwargs : gmap string V)
| EvReturn (func : pyfunc) (ret : R).

(** A coroutine object made by [async_call(func, *args, **kwargs)]: either
    not yet started, or suspended inside [await func(...)] with [remaining]
    further suspensions to go. *)
Inductive Coroutine : Type :=
| CoroCreated (func : pyfunc) (args : list V) (kwargs : gmap string V)
| CoroSuspended (func : pyfunc) (args : list V) (kwargs : gmap string V) (remaining : nat).

Inductive Step : Type :=
| StepDone (r : Outcome R)
| StepPending (c : Coroutine).

Definition finish (func : pyfunc) (args : list V) (kwargs : gmap string V)
  : list Event * Step :=
  match fn_body env func args kwargs with
  | Returns ret => ([EvReturn func ret], StepDone (Returns ret))
  | Raises e => ([], StepDone (Raises e))
  end.

(** One resumption of the coroutine by the event loop: it runs until it
    suspends again or is done. *)
Definition coro_step (cache : gmap pyfunc (gset string * gset string)) (c : Coroutine)
  : gmap pyfunc (gset string * gset string) * list Event * Step :=
  match c with
  | CoroCreated func args kwargs =>
      let '(cache, filtered) :=
        match args with
        | [] => _extract_kwargs_subset cache func kwargs
        | _ => (cache, Returns kwargs)
        end in
      match filtered with
      | Returns kwargs =>
          if fn_iscoroutine env func then
            match fn_suspensions env func with
            | 0 => let '(evs, st) := finish func args kwargs in
                   (cache, EvCall func args kwargs :: evs, st)
            | S n => (cache, [EvCall func args kwargs],
                      StepPending (CoroSuspended func args kwargs n))
            end
          else
            let '(evs, st) := finish func args kwargs in
            (cache, EvCall func args kwargs :: evs, st)
      | Raises e => (cache, [], StepDone (Raises e))
      end
  | CoroSuspended func args kwargs remaining =>
      match remaining with
      | 0 => let '(evs, st) := finish func args kwargs in (cache, evs, st)
      | S n => (cache, [], StepPending (CoroSuspended func args kwargs n))
      end
  end.

(** [await coroutine] with nothing else scheduled: resume until done. *)
Fixpoint await_alone (fuel : nat) (cache : gmap pyfunc (gset string * gset string))
    (c : Coroutine) : gmap pyfunc (gset string * gset string) * list Event * Result R :=
  match coro_step cache c with
  | (cache, evs, StepDone r) => (cache, evs, of_outcome r)
  | (cache, evs, StepPending c') =>
      match fuel with
      | 0 => (cache, evs, OutOfFuel)
      | S fuel' =>
          let '(cache', evs', r) := await_alone fuel' cache c' in
          (cache', evs ++ evs', r)
      end
  end.

(** [await async_call(func, *args, **kwargs)]. *)
Definition async_call (cache : gmap pyfunc (gset string * gset string))
    (func : pyfunc) (args : list V) (kwargs : gmap string V)
  : gmap pyfunc (gset string * gset string) * list Event * Result R :=
  await_alone (fn_suspensions env func) cache (CoroCreated func args kwargs).

End AsyncCall.

Arguments FuncEnv : clear implicits.
Arguments Event : clear implicits.
Arguments Coroutine : clear implicits.
Arguments Step : clear implicits.

(** ** [helper_functions.py]: the dependency scheduler *)

(** [TopologySearchColor] of [restpf/utils/constants.py]; the scheduler only
    compares the three colours. *)
Inductive TopologySearchColor : Type := WHITE | GRAY | BLACK.

#[global] Instance TopologySearchColor_eq_dec : EqDecision TopologySearchColor.
Proof. solve_decision. Defined.

(** What [options.get('run_after')] can be, as far as the scheduler tells the
    cases apart: [None], a function, an iterable of functions, or anything
    else (of which only the truth value is looked at). *)
Inductive RunAfter : Type :=
| RunAfterNone
| RunAfterFunction (parent : pyfunc)
| RunAfterIterable (parents : list pyfunc)
| RunAfterOther (truth : bool).

(** The restricted options of one callback; [before_all] and [after_all] are
    only tested for truth. *)
Record Options : Type := MkOptions {
  before_all : bool;
  after_all : bool;
  run_after : RunAfter
}.

Definition run_after_truthy (r : RunAfter) : bool :=
  match r with
  | RunAfterNone => false
  | RunAfterFunction _ => true
  | RunAfterIterable l => match l with [] => false | _ => true end
  | RunAfterOther t => t
  end.

(** The local variables of [parallel_groups_of_callbacks] after its first
    loop. [g_children] and [g_parents] are [defaultdict(set)]. *)
Record Graph : Type := MkGraph {
  g_root : option pyfunc;
  g_last : option pyfunc;
  g_children : gmap pyfunc (gset pyfunc);
  g_parents : gmap pyfunc (gset pyfunc);
  g_searched : gmap pyfunc TopologySearchColor;
  g_search_starts : list pyfunc
}.

Definition empty_graph : Graph :=
  MkGraph None None ∅ ∅ ∅ [].

(** [d[k]] on a [defaultdict(set)], read only. *)
Definition get_set (d : gmap pyfunc (gset pyfunc)) (k : pyfunc) : gset pyfunc :=
  default ∅ (d !! k).

(** [d[k].add(x)]. *)
Definition add_to (d : gmap pyfunc (gset pyfunc)) (k x : pyfunc)
  : gmap pyfunc (gset pyfunc) :=
  <[k := get_set d k ∪ {[x]}]> d.

Definition mark_white (g : Graph) (c : pyfunc) : Graph :=
  MkGraph (g_root g) (g_last g) (g_children g) (g_parents g)
          (<[c := WHITE]> (g_searched g)) (g_search_starts g).

Definition conflict_on_before_all : Exception := RuntimeError "Conflict on before_all.".
Definition conflict_on_after_all : Exception := RuntimeError "Conflict on after_all.".
(** The two messages below are followed by [str] of the earlier callback in
    the source. *)
Definition already_set_before_all : Exception := RuntimeError "Already set before_all: ".
Definition already_set_after_all : Exception := RuntimeError "Already set after_all: ".
Definition detect_circle : Exception := RuntimeError "Detect circle.".

Section Scheduler.

(** The order in which Python iterates over a set of functions is not fixed by
    the program; it is a parameter of the model. *)
Context (set_iter : gset pyfunc → list pyfunc).

(** The body of the first loop ("one pass processing"). *)
Definition register (g : Graph) (entry : pyfunc * Options) : Result Graph :=
  let '(callback, options) := entry in
  if before_all options then
    if after_all options || run_after_truthy (run_after options) then
      Raise conflict_on_before_all
    else
      match g_root g with
      | None =>
          Ok (MkGraph (Some callback) (g_last g) (g_children g) (g_parents g)
                      (<[callback := WHITE]> (g_searched g)) (g_search_starts g))
      | Some _ => Raise already_set_before_all
      end
  else if after_all options then
    (* [if before_all: raise ...] cannot be reached here. *)
    match g_last g with
    | None =>
        Ok (MkGraph (g_root g) (Some callback) (g_children g) (g_parents g)
                    (g_searched g) (g_search_starts g))
    | Some _ => Raise already_set_after_all
    end
  else
    g' ← match run_after options with
         | RunAfterFunction parent =>
             Ok (MkGraph (g_root g) (g_last g)
                         (add_to (g_children g) parent callback)
                         (add_to (g_parents g) callback parent)
                         (g_searched g) (g_search_starts g))
         | RunAfterIterable parent =>
             let ps := get_set (g_parents g) callback ∪ list_to_set parent in
             Ok (MkGraph (g_root g) (g_last g)
                         (foldl (λ ch p, add_to ch p callback) (g_children g) (set_iter ps))
                         (<[callback := ps]> (g_parents g))
                         (g_searched g) (g_search_starts g))
         | RunAfterNone =>
             Ok (MkGraph (g_root g) (g_last g) (g_children g) (g_parents g)
                         (g_searched g) (g_search_starts g ++ [callback]))
         | RunAfterOther _ =>
             (* [raise NotImplemented]: not an exception class *)
             Raise TypeError
         end;
    Ok (mark_white g' callback).

(** "deal with root". *)
Definition bind_root (g : Graph) : Graph :=
  match g_root g with
  | Some root =>
      MkGraph (g_root g) (g_last g)
              (foldl (λ ch child, add_to ch root child) (g_children g) (g_search_starts g))
              (foldl (λ pa child, add_to pa child root) (g_parents g) (g_search_starts g))
              (g_searched g)
              [root]
  | None => g
  end.

(** The nested function [DFS(group, callback)]; [searched] and [group] are
    the state it mutates. Python's recursion is bounded here by [fuel]. *)
Fixpoint DFS (fuel : nat) (children : gmap pyfunc (gset pyfunc))
    (st : gmap pyfunc TopologySearchColor * list pyfunc) (callback : pyfunc)
  : Result (gmap pyfunc TopologySearchColor * list pyfunc) :=
  match fuel with
  | 0 => OutOfFuel
  | S fuel =>
      match st.1 !! callback with
      | None => Raise KeyError
      | Some GRAY => Raise detect_circle
      | Some BLACK => Ok st
      | Some WHITE =>
          st' ← for_each (DFS fuel children)
                  (match children !! callback with
                   | Some s => set_iter s
                   | None => []
                   end)
                  (<[callback := GRAY]> st.1, st.2);
          Ok (<[callback := BLACK]> st'.1, st'.2 ++ [callback])
      end
  end.

(** "topology sort": one group per start point. *)
Definition topology_sort (fuel : nat) (children : gmap pyfunc (gset pyfunc))
    (search_starts : list pyfunc) (searched : gmap pyfunc TopologySearchColor)
  : Result (gmap pyfunc TopologySearchColor * list (list pyfunc)) :=
  for_each
    (λ sg start_callback,
       st ← DFS fuel children (sg.1, []) start_callback;
       Ok (st.1, match st.2 with
                 | [] => sg.2
                 | _ => sg.2 ++ [reverse st.2]
                 end))
    search_starts (searched, []).

(** The [ready] flag: no parent is still [BLACK]. The loop stops at the first
    [BLACK] parent; [searched[parent]] raises [KeyError] for an unknown one. *)
Fixpoint is_ready (searched : gmap pyfunc TopologySearchColor) (ps : list pyfunc)
  : Result bool :=
  match ps with
  | [] => Ok true
  | parent :: ps' =>
      match searched !! parent with
      | None => Raise KeyError
      | Some BLACK => Ok false
      | Some _ => is_ready searched ps'
      end
  end.

(** [while group: ...] for one group: the callbacks popped from the left and
    what is left of the group. *)
Fixpoint pop_ready (searched : gmap pyfunc TopologySearchColor)
    (parents : gmap pyfunc (gset pyfunc)) (group : list pyfunc)
  : Result (list pyfunc * list pyfunc) :=
  match group with
  | [] => Ok ([], [])
  | callback :: rest =>
      ready ← is_ready searched (set_iter (get_set parents callback));
      if ready : bool then
        pr ← pop_ready searched parents rest;
        Ok (callback :: pr.1, pr.2)
      else Ok ([], group)
  end.

(** [for group in groups: ...]: the parallel group gathered in this round and
    the groups after popping. *)
Fixpoint scan_groups (searched : gmap pyfunc TopologySearchColor)
    (parents : gmap pyfunc (gset pyfunc)) (groups : list (list pyfunc))
  : Result (list pyfunc * list (list pyfunc)) :=
  match groups with
  | [] => Ok ([], [])
  | group :: groups' =>
      pr ← pop_ready searched parents group;
      rest ← scan_groups searched parents groups';
      Ok (pr.1 ++ rest.1, pr.2 :: rest.2)
  end.

Definition nonempty (group : list pyfunc) : bool :=
  match group with [] => false | _ => true end.

(** [while groups: ...]. *)
Fixpoint grouping (fuel : nat) (searched : gmap pyfunc TopologySearchColor)
    (parents : gmap pyfunc (gset pyfunc)) (groups : list (list pyfunc))
    (parallel_groups : list (list pyfunc)) : Result (list (list pyfunc)) :=
  match groups with
  | [] => Ok parallel_groups
  | _ =>
      match fuel with
      | 0 => OutOfFuel
      | S fuel =>
          round ← scan_groups searched parents groups;
          let searched := foldl (λ s c, <[c := WHITE]> s) searched round.1 in
          grouping fuel searched parents (filter (λ g, nonempty g = true) round.2)
                   (parallel_groups ++ [round.1])
      end
  end.

Definition parallel_groups_of_callbacks
    (callback_and_restricted_options : list (pyfunc * Options))
  : Result (list (list pyfunc)) :=
  g ← for_each register callback_and_restricted_options empty_graph;
  let g := bind_root g in
  sorted ← topology_sort (S (size (g_searched g))) (g_children g)
             (g_search_starts g) (g_searched g);
  parallel_groups ← grouping (S (length (concat sorted.2))) sorted.1 (g_parents g) sorted.2 [];
  Ok (match g_last g with
      | Some last => parallel_groups ++ [[last]]
      | None => parallel_groups
      end).

End Scheduler.

(** ** [protocol.py]: resources, states and the schema tree *)

(** [HTTPMethodConfig] of [restpf/utils/constants.py]; the sources name
    [POST] and [GET], and the pipeline only passes the value on. *)
Inductive HTTPMethodConfig : Type := POST | GET | PUT | PATCH | DELETE.

(** A schema node, as far as the pipeline reads it: [bh_path] and
    [bh_named_children] (an ordered mapping). *)
Inductive Attr : Type :=
| MkAttr (bh_path : list string) (bh_named_children : list (string * Attr)).

Definition bh_path (attr : Attr) : list string :=
  match attr with MkAttr p _ => p end.
Definition bh_named_children (attr : Attr) : list (string * Attr) :=
  match attr with MkAttr _ c => c end.

(** A state object, as far as the pipeline reads it: its truth value, the
    verdict of [validate(context)] for each method, and its attributes. The
    state of a node may also be [None]. *)
Inductive State : Type :=
| MkState (st_bool : bool) (st_validate : HTTPMethodConfig → bool)
          (st_attributes : list (string * option State)).

Definition st_bool (s : State) : bool :=
  match s with MkState b _ _ => b end.
Definition st_validate (s : State) : HTTPMethodConfig → bool :=
  match s with MkState _ v _ => v end.
Definition st_attributes (s : State) : list (string * option State) :=
  match s with MkState _ _ a => a end.

(** [bool(state)] for a state or [None]. *)
Definition state_truthy (state : option State) : bool :=
  match state with
  | Some s => st_bool s
  | None => false
  end.

(** [getattr(state, name)]. *)
Definition getattr (state : State) (name : string) : Result (option State) :=
  match list_find (λ kv, kv.1 = name) (st_attributes state) with
  | Some (_, (_, v)) => Ok v
  | None => Raise (AttributeError name)
  end.

Record ResourceState : Type := MkResourceState {
  rs_attributes : option State;
  rs_relationships : option State;
  rs_resource_id : option State
}.

Record RawOutputStateContainer : Type := MkRawOutputStateContainer {
  raw_attributes : PyVal;
  raw_relationships : PyVal;
  raw_resource_id : PyVal
}.

Definition _COLLECTION_NAMES : list string :=
  ["attributes"; "relationships"; "resource_id"].

(** An attribute collection ([resource.attributes_obj] and the like): the
    registry lookup and the root of the schema tree. *)
Record AttrCollection : Type := MkAttrCollection {
  get_registered_callback_and_options :
    list string → HTTPMethodConfig → option pyfunc * Options;
  attr_obj : Attr
}.

(** A resource. [res_attributes = None] stands for
    [resource.attributes is None]; otherwise it holds
    [resource.attributes_obj]. The same for relationships.
    [res_resource_id] is the schema of the third collection, so that
    selection over it can be stated; [select_callbacks] never reads it. *)
Record Resource : Type := MkResource {
  res_attributes : option AttrCollection;
  res_relationships : option AttrCollection;
  res_resource_id : option AttrCollection
}.

(** What a callback can be passed as a keyword argument. *)
Inductive KwVal : Type :=
| KwAttr (attr : Attr)
| KwState (state : option State)
| KwRaw (v : PyVal).

(** ** [ContextRule] *)

(** [raw_resource_id] is [Some] for a [ContextRuleWithResourceID]. *)
Record ContextRule : Type := MkContextRule {
  HTTPMethod : HTTPMethodConfig;
  cr_raw_resource_id : option PyVal
}.

Definition _default_validator (self : ContextRule) (state : ResourceState) : bool :=
  forallb (λ x, match x with
                | Some s => st_validate s (HTTPMethod self)
                | None => true
                end)
    (filter (λ x, state_truthy x = true)
       [rs_resource_id state; rs_attributes state; rs_relationships state]).

Definition validate_input_state (self : ContextRule) (state : ResourceState) : bool :=
  _default_validator self state.

Definition validate_output_state (self : ContextRule) (state : ResourceState) : bool :=
  _default_validator self state.

Definition is_None {A : Type} (x : option A) : bool :=
  match x with None => true | Some _ => false end.

(** The [while queue:] loop of [_select_callbacks]. *)
Fixpoint _select_callbacks_loop (fuel : nat) (self : ContextRule)
    (query : list string → HTTPMethodConfig → option pyfunc * Options)
    (root_state : option State)
    (queue : list (Attr * option State))
    (ret : list (pyfunc * Attr * option State))
  : Result (list (pyfunc * Attr * option State)) :=
  match queue with
  | [] => Ok ret
  | (attr, state) :: queue =>
      match fuel with
      | 0 => OutOfFuel
      | S fuel =>
          let '(callback, options) := query (bh_path attr) (HTTPMethod self) in
          let ret :=
            match callback with
            | Some callback =>
                if state_truthy state || is_None root_state
                then ret ++ [(callback, attr, state)]
                else ret
            | None => ret
            end in
          queue ← for_each
                    (λ queue (item : string * Attr),
                       child_state ← (if state_truthy state
                                      then match state with
                                           | Some s => getattr s item.1
                                           | None => Ok None
                                           end
                                      else Ok None);
                       Ok (queue ++ [(item.2, child_state)]))
                    (bh_named_children attr) queue;
          _select_callbacks_loop fuel self query root_state queue ret
      end
  end.

Fixpoint attr_size (attr : Attr) : nat :=
  match attr with
  | MkAttr _ cs => S (list_sum (map (λ c : string * Attr, attr_size c.2) cs))
  end.

Definition _select_callbacks (self : ContextRule)
    (query : list string → HTTPMethodConfig → option pyfunc * Options)
    (root_attr : Attr) (root_state : option State)
  : Result (list (pyfunc * Attr * option State)) :=
  _select_callbacks_loop (attr_size root_attr) self query root_state
    [(root_attr, root_state)] [].

(** [ret[key] = value] on an ordered dictionary. *)
Fixpoint odict_set {A : Type} (k : string) (v : A) (d : list (string * A)) : list (string * A) :=
  match d with
  | [] => [(k, v)]
  | (k', v') :: d' => if String.eqb k k' then (k, v) :: d' else (k', v') :: odict_set k v d'
  end.

Definition odict_has {A : Type} (k : string) (d : list (string * A)) : bool :=
  existsb (λ kv, String.eqb k kv.1) d.

Definition select_callbacks (self : ContextRule) (resource : Resource) (state : ResourceState)
  : Result (list (string * list (pyfunc * Attr * option State))) :=
  ret ← for_each
          (λ ret (key : string * option AttrCollection * option State),
             match key.1.2 with
             | None => Ok ret
             | Some attr_collection =>
                 selected ← _select_callbacks self
                              (get_registered_callback_and_options attr_collection)
                              (attr_obj attr_collection)
                              key.2;
                 Ok (odict_set key.1.1 selected ret)
             end)
          [("attributes", res_attributes resource, rs_attributes state);
           ("relationships", res_relationships resource, rs_relationships state)]
          [];
  Ok (foldl (λ ret name, if odict_has name ret then ret else odict_set name [] ret)
        ret _COLLECTION_NAMES).

Definition callback_kwargs (self : ContextRule) (attr : Attr) (state : option State)
  : gmap string KwVal :=
  let ret : gmap string KwVal := <["state" := KwState state]> (<["attr" := KwAttr attr]> ∅) in
  match cr_raw_resource_id self with
  | Some raw_resource_id => <["resource_id" := KwRaw raw_resource_id]> ret
  | None => ret
  end.

(** ** The merge scratch tree and [_merge_output_of_callbacks] *)

(** Modelled from the spec: [TreeState] of [restpf/utils/helper_classes.py]
    is not among the sources. It is "a mutable tree keyed by path ...; each
    node holds an optional scalar/collection value and named children;
    'touch' on a path creates intermediate nodes on demand". The merger
    reads [root_gap] (absent until the root path is touched), [children]
    (pairs of a name and a gap, in insertion order), the [value] and [next]
    of a gap, and the truth value of a tree, which is whether it has
    children. *)
Inductive TreeState : Type :=
| MkTreeState (root_gap : option PyVal) (children : list (string * (PyVal * TreeState))).

Definition root_gap (t : TreeState) : option PyVal :=
  match t with MkTreeState r _ => r end.
Definition children (t : TreeState) : list (string * (PyVal * TreeState)) :=
  match t with MkTreeState _ c => c end.

Definition TreeState_new : TreeState := MkTreeState None [].

(** Apply [f] to the gap called [name], creating an empty one first if there
    is none. *)
Fixpoint with_gap (name : string) (f : PyVal * TreeState → PyVal * TreeState)
    (cs : list (string * (PyVal * TreeState))) : list (string * (PyVal * TreeState)) :=
  match cs with
  | [] => [(name, f (PyNone, TreeState_new))]
  | (n, gap) :: cs' =>
      if String.eqb name n then (n, f gap) :: cs' else (n, gap) :: with_gap name f cs'
  end.

(** Modelled from the spec: [tree_state.touch(path).value = ret]. *)
Fixpoint touch_below (path : list string) (ret : PyVal)
    (cs : list (string * (PyVal * TreeState))) : list (string * (PyVal * TreeState)) :=
  match path with
  | [] => cs
  | name :: path' =>
      with_gap name
        (λ gap, match path' with
                | [] => (ret, gap.2)
                | _ => (gap.1, MkTreeState (root_gap gap.2)
                                 (touch_below path' ret (children gap.2)))
                end)
        cs
  end.

Definition touch_set (path : list string) (ret : PyVal) (t : TreeState) : TreeState :=
  match path with
  | [] => MkTreeState (Some ret) (children t)
  | _ => MkTreeState (root_gap t) (touch_below path ret (children t))
  end.

(** The nested function [helper(ret, child_value, tree_state)]. *)
Fixpoint helper (ret child_value : PyVal) (tree_state : TreeState) {struct tree_state} : PyVal :=
  match tree_state with
  | MkTreeState _ [] =>
      (* leaf node. *)
      if truthy child_value then child_value else ret
  | MkTreeState _ cs =>
      let ret := if truthy ret then ret else child_value in
      let d := match ret with
               | PyDict d => d
               | _ => []   (* none leaf node with wrong ret type. *)
               end in
      PyDict
        ((fix loop (cs : list (string * (PyVal * TreeState))) (d : list (string * PyVal)) :=
            match cs with
            | [] => d
            | (name, (value, next)) :: cs' =>
                loop cs' (dict_set name (helper (dict_get name d) value next) d)
            end) cs d)
  end.

Definition _merge_output_of_callbacks (output_of_callbacks : TreeState) : PyVal :=
  let ret := match root_gap output_of_callbacks with
             | Some value => value
             | None => PyDict []
             end in
  helper ret PyNone output_of_callbacks.

(** ** The event loop behind [asyncio.gather] *)

Section EventLoop.

Context {V R : Type} (env : FuncEnv V R).

(** Tasks are resumed in the order in which they became ready; a task that
    suspends goes to the back of the queue. A task that raises ends the
    gather: the exception reaches the awaiting caller, and what the tasks
    still scheduled would do afterwards is not recorded. [results] maps the
    position of a task to what it returned. *)
Fixpoint event_loop (fuel : nat) (cache : gmap pyfunc (gset string * gset string))
    (ready : list (nat * Coroutine V)) (results : gmap nat R)
  : gmap pyfunc (gset string * gset string) * list (Event V R) * Result (gmap nat R) :=
  match ready with
  | [] => (cache, [], Ok results)
  | (i, c) :: ready' =>
      match fuel with
      | 0 => (cache, [], OutOfFuel)
      | S fuel =>
          let '(cache, evs, step) := coro_step env cache c in
          match step with
          | StepDone (Returns r) =>
              let '(cache', evs', res) := event_loop fuel cache ready' (<[i := r]> results) in
              (cache', evs ++ evs', res)
          | StepDone (Raises e) => (cache, evs, Raise e)
          | StepPending c' =>
              let '(cache', evs', res) := event_loop fuel cache (ready' ++ [(i, c')]) results in
              (cache', evs ++ evs', res)
          end
      end
  end.

Definition coro_func (c : Coroutine V) : pyfunc :=
  match c with
  | CoroCreated func _ _ => func
  | CoroSuspended func _ _ _ => func
  end.

(** Resumptions a task can still take. *)
Definition coro_budget (c : Coroutine V) : nat :=
  match c with
  | CoroCreated func _ _ => S (fn_suspensions env func)
  | CoroSuspended _ _ _ remaining => S remaining
  end.

(** Cut a flat list of results back into rows of the given lengths. *)
Fixpoint rows_of {A : Type} (lens : list nat) (l : list A) : list (list A) :=
  match lens with
  | [] => []
  | n :: lens' => take n l :: rows_of lens' (drop n l)
  end.

(** Awaiting the gather of the gathers of the rows of [nested]. *)
Definition gather_nested (cache : gmap pyfunc (gset string * gset string))
    (nested : list (list (Coroutine V))) (dflt : R)
  : gmap pyfunc (gset string * gset string) * list (Event V R) * Result (list (list R)) :=
  let flat := concat nested in
  let '(cache, evs, res) :=
    event_loop (list_sum (coro_budget <$> flat)) cache (imap (λ i c, (i, c)) flat) ∅ in
  (cache, evs,
   results ← res;
   Ok (rows_of (length <$> nested)
         ((λ i, default dflt (results !! i)) <$> seq 0 (length flat)))).



(** The functions called, in order. *)
Definition called (evs : list (Event V R)) : list pyfunc :=
  omap (λ ev, match ev with EvCall func _ _ => Some func | EvReturn _ _ => None end) evs.

End EventLoop.

(** ** [PipelineBase] *)

Record StateTreeBuilder : Type := MkStateTreeBuilder {
  build_input_state : Resource → Outcome ResourceState;
  build_output_state : Resource → RawOutputStateContainer → Outcome ResourceState
}.

(** The objects a pipeline is built from; [rep_generator] may be [None], and
    otherwise stands for its [generate_representation]. *)
Record PipelineBase : Type := MkPipelineBase {
  resource : Resource;
  context_rule : ContextRule;
  state_builder : StateTreeBuilder;
  rep_generator : option (Resource → ResourceState → Outcome PyVal);
  functions : FuncEnv KwVal PyVal
}.

(** The attributes [run] sets on the pipeline object, the module-level cache
    of [_extract_kwargs_subset], and the calls made so far. *)
Record World : Type := MkWorld {
  input_state : option ResourceState;
  merged_output_of_callbacks : option RawOutputStateContainer;
  output_state : option ResourceState;
  representation : option (option PyVal);
  w_cache : gmap pyfunc (gset string * gset string);
  w_trace : list (Event KwVal PyVal)
}.

Definition new_world (cache : gmap pyfunc (gset string * gset string)) : World :=
  MkWorld None None None None cache [].

(** A method of the pipeline: it changes the world and returns or raises. *)
Definition Method (A : Type) : Type := World → World * Result A.

Definition and_then {A B : Type} (m : Method A) (k : A → Method B) : Method B :=
  λ w, match m w with
       | (w', Ok a) => k a w'
       | (w', Raise e) => (w', Raise e)
       | (w', OutOfFuel) => (w', OutOfFuel)
       end.

Definition lift {A : Type} (r : Result A) : Method A := λ w, (w, r).

Notation "x <- m ;; k" := (and_then m (λ x, k))
  (at level 100, m at level 99, right associativity).
Notation "m ;;; k" := (and_then m (λ _, k))
  (at level 100, right associativity).

Definition get_attr {A : Type} (name : string) (field : World → option A) : Method A :=
  λ w, match field w with
       | Some a => (w, Ok a)
       | None => (w, Raise (AttributeError name))
       end.

Definition input_state_not_valid : Exception := RuntimeError "TODO: input state not valid".
Definition output_state_not_valid : Exception := RuntimeError "TODO: output state not valid".

Definition _build_input_state (self : PipelineBase) : Method unit :=
  st <- lift (of_outcome (build_input_state (state_builder self) (resource self))) ;;
  (λ w, (MkWorld (Some st) (merged_output_of_callbacks w) (output_state w)
                 (representation w) (w_cache w) (w_trace w), Ok tt)) ;;;
  if validate_input_state (context_rule self) st
  then lift (Ok tt)
  else lift (Raise input_state_not_valid).

(** The coroutines [_invoke_callbacks] creates for one collection, and their
    paths. *)
Definition coroutines_of (self : PipelineBase)
    (callback_and_options : list (pyfunc * Attr * option State))
  : list (Coroutine KwVal) * list (list string) :=
  ((λ t : pyfunc * Attr * option State,
      CoroCreated t.1.1 [] (callback_kwargs (context_rule self) t.1.2 t.2))
     <$> callback_and_options,
   (λ t : pyfunc * Attr * option State, bh_path t.1.2) <$> callback_and_options).

Definition tree_of (paths : list (list string)) (rets : list PyVal) : TreeState :=
  foldl (λ tree_state pr, touch_set pr.1 pr.2 tree_state) TreeState_new (zip paths rets).

(** [RawOutputStateContainer] built from the keywords of [name2raw_obj]. *)
Definition make_container (name2raw_obj : list (string * PyVal)) : Result RawOutputStateContainer :=
  match list_find (λ kv, kv.1 = "attributes") name2raw_obj,
        list_find (λ kv, kv.1 = "relationships") name2raw_obj,
        list_find (λ kv, kv.1 = "resource_id") name2raw_obj with
  | Some (_, (_, a)), Some (_, (_, r)), Some (_, (_, i)) =>
      if decide (length name2raw_obj = 3) then Ok (MkRawOutputStateContainer a r i)
      else Raise TypeError
  | _, _, _ => Raise TypeError
  end.

Definition _invoke_callbacks (self : PipelineBase) : Method unit :=
  st <- get_attr "input_state" input_state ;;
  name2selected <- lift (select_callbacks (context_rule self) (resource self) st) ;;
  let async_collection_names := fst <$> name2selected in
  let async_nested_gathers := (λ kv, (coroutines_of self kv.2).1) <$> name2selected in
  let async_nested_paths := (λ kv, (coroutines_of self kv.2).2) <$> name2selected in
  joined <- (λ w,
     let '(cache, evs, res) :=
       gather_nested (functions self) (w_cache w) async_nested_gathers PyNone in
     (MkWorld (input_state w) (merged_output_of_callbacks w) (output_state w)
              (representation w) cache (w_trace w ++ evs), res)) ;;
  let name2raw_obj :=
    foldl (λ d nr, odict_set nr.1.1 (_merge_output_of_callbacks (tree_of nr.1.2 nr.2)) d)
      [] (zip (zip async_collection_names async_nested_paths) joined) in
  raw <- lift (make_container name2raw_obj) ;;
  (λ w, (MkWorld (input_state w) (Some raw) (output_state w)
                 (representation w) (w_cache w) (w_trace w), Ok tt)).

Definition _build_output_state (self : PipelineBase) : Method unit :=
  raw <- get_attr "merged_output_of_callbacks" merged_output_of_callbacks ;;
  st <- lift (of_outcome (build_output_state (state_builder self) (resource self) raw)) ;;
  (λ w, (MkWorld (input_state w) (merged_output_of_callbacks w) (Some st)
                 (representation w) (w_cache w) (w_trace w), Ok tt)) ;;;
  if validate_output_state (context_rule self) st
  then lift (Ok tt)
  else lift (Raise output_state_not_valid).

Definition _generate_representation (self : PipelineBase) : Method unit :=
  (λ w, (MkWorld (input_state w) (merged_output_of_callbacks w) (output_state w)
                 (Some None) (w_cache w) (w_trace w), Ok tt)) ;;;
  match rep_generator self with
  | Some generate_representation =>
      st <- get_attr "output_state" output_state ;;
      rep <- lift (of_outcome (generate_representation (resource self) st)) ;;
      (λ w, (MkWorld (input_state w) (merged_output_of_callbacks w) (output_state w)
                     (Some (Some rep)) (w_cache w) (w_trace w), Ok tt))
  | None => lift (Ok tt)
  end.

Definition run (self : PipelineBase) : Method unit :=
  _build_input_state self ;;;
  _invoke_callbacks self ;;;
  _build_output_state self ;;;
  _generate_representation self.


(** ** Vocabulary of the statements about selection *)

(** [d.get(k)] on an ordered dictionary. *)
Definition odict_get {A : Type} (k : string) (d : list (string * A)) : option A :=
  snd <$> (snd <$> list_find (λ kv, kv.1 = k) d).

(** The selector run over a collection of the resource, or nothing when the
    resource does not declare the collection. *)
Definition select_or_empty (self : ContextRule) (c : option AttrCollection)
    (state : option State) : Result (list (pyfunc * Attr * option State)) :=
  match c with
  | Some c => _select_callbacks self (get_registered_callback_and_options c) (attr_obj c) state
  | None => Ok []
  end.

(** The state [_select_callbacks] pairs with the child called [name] of a
    node whose state is [state]. *)
Definition child_state (state : option State) (name : string) : Result (option State) :=
  if state_truthy state
  then match state with
       | Some s => getattr s name
       | None => Ok None
       end
  else Ok None.

(** [reaches (a0, s0) (a, s)]: walking down the schema from node [a0] paired
    with state [s0], node [a] is met paired with state [s]. *)
Inductive reaches : Attr * option State → Attr * option State → Prop :=
| reaches_here p : reaches p p
| reaches_child attr state name child cs q :
    (name, child) ∈ bh_named_children attr →
    child_state state name = Ok cs →
    reaches (child, cs) q →
    reaches (attr, state) q.

(** The schema nodes still to be visited by the queue. *)
Definition queue_size (queue : list (Attr * option State)) : nat :=
  list_sum ((λ p : Attr * option State, attr_size p.1) <$> queue).

(** The guard of [_select_callbacks] on a triple. *)
Definition selects (self : ContextRule)
    (query : list string → HTTPMethodConfig → option pyfunc * Options)
    (root_state : option State) (t : pyfunc * Attr * option State) : Prop :=
  (query (bh_path t.1.2) (HTTPMethod self)).1 = Some t.1.1 ∧
  (state_truthy t.2 = true ∨ root_state = None).

(** A resource whose resource-identifier schema has a callback on its root,
    and a request that carries a resource identifier. *)
Definition id_attr : Attr := MkAttr [] [].
Definition id_collection : AttrCollection :=
  MkAttrCollection (λ _ _, (Some 7, MkOptions false false RunAfterNone)) id_attr.
Definition id_only_resource : Resource := MkResource None None (Some id_collection).
Definition present_state : State := MkState true (λ _, true) [].
Definition id_only_state : ResourceState := MkResourceState None None (Some present_state).
Definition post_rule : ContextRule := MkContextRule POST None.

(** A schema with a child [a] under the root, a callback registered on the
    child only, and no state at all. *)
Definition child_attr_a : Attr := MkAttr ["a"] [].
Definition root_with_child : Attr := MkAttr [] [("a", child_attr_a)].
Definition query_child_only (path : list string) (method : HTTPMethodConfig)
  : option pyfunc * Options :=
  (if decide (path = ["a"]) then Some 1 else None, MkOptions false false RunAfterNone).
(** The same schema with a callback on every path, and a root state that is
    there but false. *)
Definition query_everywhere (path : list string) (method : HTTPMethodConfig)
  : option pyfunc * Options :=
  (Some (length path), MkOptions false false RunAfterNone).
Definition false_state : State := MkState false (λ _, true) [("a", None)].


(** ** Vocabulary of the statements about the Invoke phase *)

(** The callbacks selected for a collection together with the ordering
    constraints the registry declares for them: what the Dependency
    Scheduler would be given. *)
Definition declared_constraints (self : ContextRule) (c : AttrCollection)
    (selected : list (pyfunc * Attr * option State)) : list (pyfunc * Options) :=
  (λ t : pyfunc * Attr * option State,
     (t.1.1, (get_registered_callback_and_options c (bh_path t.1.2) (HTTPMethod self)).2))
    <$> selected.

(** A trace reduced to which function was called ([true]) or returned
    ([false]), in order. *)
Definition trace_shape {V R : Type} (evs : list (Event V R)) : list (pyfunc * bool) :=
  (λ ev, match ev with
         | EvCall func _ _ => (func, true)
         | EvReturn func _ => (func, false)
         end) <$> evs.

Definition index_in (x : pyfunc * bool) (shape : list (pyfunc * bool)) : option nat :=
  fst <$> list_find (λ y, y = x) shape.

(** Every callback of a group has returned before any callback of the next
    group is called. *)
Fixpoint groups_in_sequence (groups : list (list pyfunc)) (shape : list (pyfunc * bool)) : bool :=
  match groups with
  | g1 :: ((g2 :: _) as rest) =>
      forallb (λ f, forallb (λ g,
                 match index_in (f, false) shape, index_in (g, true) shape with
                 | Some i, Some j => i <? j
                 | _, _ => false
                 end) g2) g1
      && groups_in_sequence rest shape
  | _ => true
  end.

(** The callbacks the selection hands to the Invoke phase, collection after
    collection. *)
Definition selected_callbacks (name2selected : list (string * list (pyfunc * Attr * option State)))
  : list pyfunc :=
  concat ((λ kv : string * list (pyfunc * Attr * option State),
             (λ t : pyfunc * Attr * option State, t.1.1) <$> kv.2) <$> name2selected).

(** A pipeline whose attribute schema has a callback [1] on the root,
    declared to run after the callback [2] registered on the child [a]; both
    are plain functions without parameters. *)
Definition query_root_after_child (path : list string) (method : HTTPMethodConfig)
  : option pyfunc * Options :=
  if decide (path = []) then (Some 1, MkOptions false false (RunAfterFunction 2))
  else if decide (path = ["a"]) then (Some 2, MkOptions false false RunAfterNone)
  else (None, MkOptions false false RunAfterNone).
Definition ordered_collection : AttrCollection :=
  MkAttrCollection query_root_after_child root_with_child.
Definition empty_resource_state : ResourceState := MkResourceState None None None.
Definition plain_functions : FuncEnv KwVal PyVal :=
  MkFuncEnv (λ _, []) (λ _ _ _, Returns PyNone) (λ _, false) (λ _, 0).
Definition ordered_pipeline : PipelineBase :=
  MkPipelineBase (MkResource (Some ordered_collection) None None) post_rule
    (MkStateTreeBuilder (λ _, Returns empty_resource_state)
                        (λ _ _, Returns empty_resource_state))
    None plain_functions.


Section EventLoopVocabulary.

Context {V R : Type} (env : FuncEnv V R).

Definition is_created (c : Coroutine V) : Prop :=
  match c with CoroCreated _ _ _ => True | CoroSuspended _ _ _ _ => False end.

Definition is_suspended (c : Coroutine V) : Prop :=
  match c with CoroCreated _ _ _ => False | CoroSuspended _ _ _ _ => True end.

(** A function whose call returns without giving control back to the event
    loop: a plain function, or a coroutine function that does not suspend. *)
Definition never_suspends (func : pyfunc) : Prop :=
  fn_iscoroutine env func = false ∨ fn_suspensions env func = 0.

Definition ready_budget (ready : list (nat * Coroutine V)) : nat :=
  list_sum ((λ ic : nat * Coroutine V, coro_budget env ic.2) <$> ready).

End EventLoopVocabulary.


(** ** Vocabulary of the statements about the scheduler *)

(** What is known of the order in which a set is iterated: every member is
    met. *)
Definition set_iter_ok (set_iter : gset pyfunc → list pyfunc) : Prop :=
  ∀ s x, x ∈ set_iter s ↔ x ∈ s.


(** A function with a required parameter [state] and an optional parameter
    [attr], and a pipeline whose builder yields an input state that fails
    validation. *)
Definition state_functions : FuncEnv KwVal PyVal :=
  MkFuncEnv (λ _, [MkParam "state" false; MkParam "attr" true])
            (λ _ _ _, Returns PyNone) (λ _, false) (λ _, 0).
Definition invalid_state : State := MkState true (λ _, false) [].
Definition invalid_input_pipeline : PipelineBase :=
  MkPipelineBase (MkResource (Some ordered_collection) None None) post_rule
    (MkStateTreeBuilder (λ _, Returns (MkResourceState (Some invalid_state) None None))
                        (λ _ _, Returns empty_resource_state))
    None plain_functions.


(** [edge children p c]: the scheduler recorded [c] as a child of [p]. *)
Definition edge (children : gmap pyfunc (gset pyfunc)) (p c : pyfunc) : Prop :=
  c ∈ get_set children p.

(** The recorded children contain a cycle. *)
Definition cyclic (children : gmap pyfunc (gset pyfunc)) : Prop :=
  ∃ x, tc (edge children) x x.

(** The callbacks in [new] finish after their children: a child of the
    callback at index [i] was finished before the search ([BLACK] in [s]) or
    sits at a smaller index. *)
Definition dfs_order (children : gmap pyfunc (gset pyfunc))
    (s : gmap pyfunc TopologySearchColor) (new : list pyfunc) : Prop :=
  ∀ i x c, new !! i = Some x → edge children x c →
    s !! c = Some BLACK ∨ ∃ j, j < i ∧ new !! j = Some c.

(** What a search that ran to its end did to the colours: the callbacks of
    [new], white before, are black now, in finishing order; nothing else
    changed. *)
Definition dfs_post (children : gmap pyfunc (gset pyfunc))
    (s : gmap pyfunc TopologySearchColor) (new : list pyfunc)
    (s' : gmap pyfunc TopologySearchColor) : Prop :=
  (∀ x, x ∈ new → s !! x = Some WHITE)
  ∧ (∀ x, x ∈ new → s' !! x = Some BLACK)
  ∧ (∀ x, x ∉ new → s' !! x = s !! x)
  ∧ NoDup new
  ∧ dfs_order children s new.

(** Every recorded child has a colour. *)
Definition children_known (children : gmap pyfunc (gset pyfunc))
    (s : gmap pyfunc TopologySearchColor) : Prop :=
  ∀ p c, edge children p c → is_Some (s !! c).

(** The white callbacks are among [W], and the fuel exceeds their number. *)
Definition dfs_pre (children : gmap pyfunc (gset pyfunc)) (W : gset pyfunc) (fuel : nat)
    (s : gmap pyfunc TopologySearchColor) : Prop :=
  (∀ x, s !! x = Some WHITE → x ∈ W) ∧ size W < fuel ∧ children_known children s.


(** When a callback finished: its index in the finishing order. *)
Definition finish_index (fin : list pyfunc) (x : pyfunc) : nat :=
  default 0 (fst <$> list_find (λ y, y = x) fin).

(** The callbacks of a group, first to last, in the order of decreasing
    [pos]. *)
Definition decreasing (pos : pyfunc → nat) (D : list pyfunc) : Prop :=
  ∀ i j a b, D !! i = Some a → D !! j = Some b → i < j → pos b < pos a.

(** The groups of the topological sort: each decreasing, and a later group
    above every earlier one. *)
Fixpoint ordered_deques (pos : pyfunc → nat) (Ds : list (list pyfunc)) : Prop :=
  match Ds with
  | [] => True
  | D :: rest =>
      decreasing pos D
      ∧ (∀ a b, a ∈ D → b ∈ concat rest → pos a < pos b)
      ∧ ordered_deques pos rest
  end.

(** One round of the grouping loop splits every group into what it pops and
    what it leaves. *)
Inductive split_round : list (list pyfunc) → list pyfunc → list (list pyfunc) → Prop :=
| split_round_nil : split_round [] [] []
| split_round_cons popped suf Ds pg sufs :
    split_round Ds pg sufs →
    split_round ((popped ++ suf) :: Ds) (popped ++ pg) (suf :: sufs).

(** The state of the grouping loop between two rounds: [fin] is what the
    search finished, [Ds] what is still in the groups, [pgs] the parallel
    groups made so far. *)
Definition grouping_inv (parents : gmap pyfunc (gset pyfunc)) (pos : pyfunc → nat)
    (fin : list pyfunc) (Ds : list (list pyfunc))
    (s : gmap pyfunc TopologySearchColor) (pgs : list (list pyfunc)) : Prop :=
  Forall (λ D, D ≠ []) Ds
  ∧ concat Ds ++ concat pgs ≡ₚ fin
  ∧ (∀ x, x ∈ concat Ds → s !! x = Some BLACK)
  ∧ (∀ x, x ∈ concat pgs → s !! x = Some WHITE)
  ∧ ordered_deques pos Ds
  ∧ (∀ i pg x p, pgs !! i = Some pg → x ∈ pg → p ∈ get_set parents x →
       ∃ j pg', j < i ∧ pgs !! j = Some pg' ∧ p ∈ pg').


(** ** Well-formed constraint sets *)

(** The parents a callback declares with [run_after]. *)
Definition declared_parents (o : Options) : list pyfunc :=
  match run_after o with
  | RunAfterFunction p => [p]
  | RunAfterIterable l => l
  | _ => []
  end.

(** A graph callback: neither the first nor the last one. *)
Definition is_node (o : Options) : Prop :=
  before_all o = false ∧ after_all o = false.

(** [parent_of inp p c]: in the constraint set [inp], the graph callback [c]
    declares that it runs after [p]. *)
Definition parent_of (inp : list (pyfunc * Options)) (p c : pyfunc) : Prop :=
  ∃ o, (c, o) ∈ inp ∧ is_node o ∧ p ∈ declared_parents o.

(** A callback has exactly one kind of constraint: first, last, after at
    least one parent, or none. *)
Definition well_formed_options (o : Options) : Prop :=
  match before_all o, after_all o with
  | true, true => False
  | true, false | false, true => run_after o = RunAfterNone
  | false, false =>
      match run_after o with
      | RunAfterNone | RunAfterFunction _ | RunAfterIterable (_ :: _) => True
      | _ => False
      end
  end.

(** A constraint set: every callback is listed once, with one kind of
    constraint; at most one callback is first and at most one last; and the
    parents named are callbacks of the set other than the last one. *)
Record valid_constraints (inp : list (pyfunc * Options)) : Prop := {
  vc_nodup : NoDup inp.*1;
  vc_options : ∀ c o, (c, o) ∈ inp → well_formed_options o;
  vc_one_first : ∀ c1 o1 c2 o2,
    (c1, o1) ∈ inp → (c2, o2) ∈ inp →
    before_all o1 = true → before_all o2 = true → c1 = c2;
  vc_one_last : ∀ c1 o1 c2 o2,
    (c1, o1) ∈ inp → (c2, o2) ∈ inp →
    after_all o1 = true → after_all o2 = true → c1 = c2;
  vc_parents : ∀ p c, parent_of inp p c → ∃ o, (p, o) ∈ inp ∧ after_all o = false
}.

(** The dependency graph of the spec: the declared edges, and an edge from
    the first callback to every callback without parents. *)
Definition bound (inp : list (pyfunc * Options)) (p c : pyfunc) : Prop :=
  parent_of inp p c
  ∨ ((∃ o, (p, o) ∈ inp ∧ before_all o = true)
     ∧ ∃ o, (c, o) ∈ inp ∧ is_node o ∧ run_after o = RunAfterNone).

(** The callbacks that take part in the search: all but the last one. *)
Definition scheduled (inp : list (pyfunc * Options)) (c : pyfunc) : Prop :=
  ∃ o, (c, o) ∈ inp ∧ after_all o = false.

(** What the first loop of the scheduler has recorded after the entries
    [l]. *)
Definition first_pass (l : list (pyfunc * Options)) (g : Graph) : Prop :=
  (∀ r, g_root g = Some r ↔ ∃ o, (r, o) ∈ l ∧ before_all o = true)
  ∧ (∀ r, g_last g = Some r ↔ ∃ o, (r, o) ∈ l ∧ after_all o = true)
  ∧ (∀ c o, (c, o) ∈ l → after_all o = false → g_searched g !! c = Some WHITE)
  ∧ (∀ c col, g_searched g !! c = Some col →
       col = WHITE ∧ ∃ o, (c, o) ∈ l ∧ after_all o = false)
  ∧ (∀ p c, p ∈ get_set (g_parents g) c ↔ parent_of l p c)
  ∧ (∀ p c, c ∈ get_set (g_children g) p ↔ parent_of l p c)
  ∧ (∀ c, c ∈ g_search_starts g ↔
       ∃ o, (c, o) ∈ l ∧ is_node o ∧ run_after o = RunAfterNone).


(** A constraint set with a first and a last callback and a diamond between
    them. *)
Definition diamond_constraints : list (pyfunc * Options) :=
  [(4, MkOptions true false RunAfterNone);
   (1, MkOptions false false RunAfterNone);
   (2, MkOptions false false (RunAfterFunction 1));
   (3, MkOptions false false (RunAfterIterable [1; 2]));
   (5, MkOptions false true RunAfterNone)].


(** ** [helper_functions.py]: named arguments and cached properties *)

Section NamedArgs.

(** [V]: the values held by attributes and passed as arguments, with
    Python's [None] among them. An object is modelled by its instance
    attributes. *)
Context {V : Type} (py_None : V).

(** [bind_self_with_options(names, self, options)]: [options.get(name)] is
    [None] for a missing key. *)
Definition bind_self_with_options (names : list string)
    (self : gmap string V) (options : gmap string V) : gmap string V :=
  foldl (λ self name, <[name := default py_None (options !! name)]> self) self names.

(** The wrapper [method_named_args] makes of [init] for [names]: it binds
    the named keywords on [self], pops them and passes what is left to
    [init]. [init] gives the object back, or raises; the wrapper itself
    returns nothing else. *)
Definition method_named_args (names : list string)
    (init : gmap string V → list V → gmap string V → Outcome (gmap string V))
    (self : gmap string V) (args : list V) (kwargs : gmap string V)
  : Outcome (gmap string V) :=
  let self := bind_self_with_options names self kwargs in
  let kwargs := foldl (λ kwargs name, delete name kwargs) kwargs names in
  init self args kwargs.

Context `{EqDecision V}.

Definition CACHE_KEY (accessor_name : string) : string :=
  "__cache_for_" +:+ accessor_name.

(** The getter [property_with_cache(accessor)] makes, for an accessor called
    [accessor_name]. The lookup through [super(type(self), self)] reads and
    writes the attribute of the instance; a missing attribute
    ([AttributeError]) counts as [None]. The accessor may change the object
    and returns or raises. *)
Definition property_with_cache (accessor_name : string)
    (accessor : gmap string V → gmap string V * Outcome V)
    (self : gmap string V) : gmap string V * Outcome V :=
  let _cache := default py_None (self !! CACHE_KEY accessor_name) in
  if decide (_cache = py_None) then
    match accessor self with
    | (self, Returns _cache) => (<[CACHE_KEY accessor_name := _cache]> self, Returns _cache)
    | (self, Raises e) => (self, Raises e)
    end
  else (self, Returns _cache).

End NamedArgs.

(** ** Vocabulary of further statements about the scheduler *)

(** No ordering constraint at all. *)
Definition unconstrained : Options := MkOptions false false RunAfterNone.

(** A callback the search starts from, or that the first callback is bound
    to: the first callback itself, or a graph callback without parents. *)
Definition start_point (inp : list (pyfunc * Options)) (s : pyfunc) : Prop :=
  ∃ o, (s, o) ∈ inp ∧ after_all o = false ∧ run_after o = RunAfterNone.

(** Two callbacks that run after each other and after a start point. *)
Definition reachable_cycle : list (pyfunc * Options) :=
  [(0, unconstrained);
   (1, MkOptions false false (RunAfterIterable [0; 2]));
   (2, MkOptions false false (RunAfterFunction 1))].

(** ** Vocabulary of the statements about the order of selection *)

(** The children of a schema node, each paired with the state found for it
    under the state of the node ([None] when there is none). *)
Definition kids (p : Attr * option State) : list (Attr * option State) :=
  (λ item : string * Attr,
     (item.2, match child_state p.2 item.1 with
              | Ok cs => cs
              | _ => None
              end))
    <$> bh_named_children p.1.

(** Breadth-first order: the nodes of [forest] from left to right, then
    their children, level after level, [levels] levels deep. *)
Fixpoint level_order (levels : nat) (forest : list (Attr * option State))
  : list (Attr * option State) :=
  match levels with
  | 0 => []
  | S levels => forest ++ level_order levels (concat (kids <$> forest))
  end.

(** The triple selection makes of a node it visits, if it keeps the node. *)
Definition select_node (self : ContextRule)
    (query : list string → HTTPMethodConfig → option pyfunc * Options)
    (root_state : option State) (p : Attr * option State)
  : option (pyfunc * Attr * option State) :=
  match (query (bh_path p.1) (HTTPMethod self)).1 with
  | Some callback =>
      if state_truthy p.2 || is_None root_state then Some (callback, p.1, p.2) else None
  | None => None
  end.

(** The order in which a queue is emptied when the children of the node
    taken from the front are put at the back. *)
Inductive visits : list (Attr * option State) → list (Attr * option State) → Prop :=
| visits_nil : visits [] []
| visits_cons p queue out :
    visits (queue ++ kids p) out → visits (p :: queue) (p :: out).

(** A state that is there and true but has no attribute, under a schema
    with a child. *)
Definition bare_state : State := MkState true (λ _, true) [].

(** ** Vocabulary of the statements about merging *)

(** The nested dictionary that holds [v] at [path]. *)
Fixpoint nest (path : list string) (v : PyVal) : PyVal :=
  match path with
  | [] => v
  | name :: path => PyDict [(name, nest path v)]
  end.

(** ** Vocabulary of the statements about the results of the Invoke phase *)

(** What the body of the function behind a coroutine comes to: the keywords
    are filtered when the coroutine was made without positional arguments,
    and a coroutine that was started holds the keywords it was called
    with. *)
Definition coro_outcome {V R : Type} (env : FuncEnv V R) (c : Coroutine V) : Outcome R :=
  match c with
  | CoroCreated func args kwargs =>
      match args with
      | [] =>
          if decide (params_without_default env func ⊆ dom kwargs)
          then fn_body env func []
                 (filter (λ kv : string * V, kv.1 ∈ params_all env func) kwargs)
          else Raises (RuntimeError "Missing keys")
      | _ => fn_body env func args kwargs
      end
  | CoroSuspended func args kwargs _ => fn_body env func args kwargs
  end.

(** The selected callback of the triple [t], called with the keywords of the
    context that it names, returns [ret]. *)
Definition callback_returns (self : PipelineBase) (t : pyfunc * Attr * option State)
    (ret : PyVal) : Prop :=
  let kwargs := callback_kwargs (context_rule self) t.1.2 t.2 in
  params_without_default (functions self) t.1.1 ⊆ dom kwargs
  ∧ fn_body (functions self) t.1.1 []
      (filter (λ kv : string * KwVal, kv.1 ∈ params_all (functions self) t.1.1) kwargs)
    = Returns ret.

(** [getattr(container, name)]. *)
Definition raw_field (name : string) (raw : RawOutputStateContainer) : option PyVal :=
  if String.eqb name "attributes" then Some (raw_attributes raw)
  else if String.eqb name "relationships" then Some (raw_relationships raw)
  else if String.eqb name "resource_id" then Some (raw_resource_id raw)
  else None.

(** ** The base classes of [protocol.py] and the POST pipeline of [post.py] *)

(** [StateTreeBuilder] as the base class has it: both methods are
    [raise NotImplemented]; [NotImplemented] is not an exception, so Python
    raises [TypeError]. *)
Definition base_StateTreeBuilder : StateTreeBuilder :=
  MkStateTreeBuilder (λ _, Raises TypeError) (λ _ _, Raises TypeError).





(** The components [_default_validator] looks at, in its order. *)
Definition validated_components (state : ResourceState) : list (option State) :=
  [rs_resource_id state; rs_attributes state; rs_relationships state].

(** A pipeline whose output state fails validation. *)
Definition invalid_output_pipeline : PipelineBase :=
  MkPipelineBase (MkResource (Some ordered_collection) None None) post_rule
    (MkStateTreeBuilder (λ _, Returns empty_resource_state)
                        (λ _ _, Returns (MkResourceState (Some invalid_state) None None)))
    None plain_functions.

(** The keywords a context rule supplies to callbacks: [attr] and [state],
    and [resource_id] for a [ContextRuleWithResourceID]. *)
Definition supplied_keywords (rule : ContextRule) : gset string :=
  {["attr"; "state"]} ∪ (if is_None (cr_raw_resource_id rule) then ∅ else {["resource_id"]}).

(** A function that requires the keyword [resource_id], and a pipeline that
    selects it under a rule without resource identifier. *)
Definition resource_id_functions : FuncEnv KwVal PyVal :=
  MkFuncEnv (λ _, [MkParam "resource_id" false])
            (λ _ _ _, Returns PyNone) (λ _, false) (λ _, 0).
Definition resource_id_pipeline : PipelineBase :=
  MkPipelineBase (MkResource (Some ordered_collection) None None) post_rule
    (MkStateTreeBuilder (λ _, Returns empty_resource_state)
                        (λ _ _, Returns empty_resource_state))
    None resource_id_functions.

(** ** [protocol.py]: the constructor of [PipelineBase] *)

(** The objects the constructor is given, as far as it tells them apart:
    [None], an instance of a subclass of [_ContextRuleBinder] (a
    [StateTreeBuilder] or a [RepresentationGenerator]) with its attributes,
    or any other object. *)
Inductive Obj : Type :=
| ObjNone
| ObjBinder (attrs : gmap string Obj)
| ObjOther (id : nat).

(** A method whose own parameter list is [(self)]: positional or keyword
    arguments left for it are a [TypeError]; its body is [pass]. *)
Definition takes_only_self (self : gmap string Obj) (args : list Obj)
    (kwargs : gmap string Obj) : Outcome (gmap string Obj) :=
  match args with
  | [] => if decide (kwargs = ∅) then Returns self else Raises TypeError
  | _ => Raises TypeError
  end.

(** [_ContextRuleBinder.bind_context_rule]. *)
Definition bind_context_rule (self : gmap string Obj) (args : list Obj)
    (kwargs : gmap string Obj) : Outcome (gmap string Obj) :=
  method_named_args ObjNone ["context_rule"] takes_only_self self args kwargs.

(** [obj.bind_context_rule(context_rule=self.context_rule)] for the object
    held by the attribute [name] of [self]. The method is looked up before
    the argument is evaluated; [None] and other objects have no such method.
    The binder is changed in place, which is seen through the attribute. *)
Definition bind_on (name : string) (self : gmap string Obj) : Outcome (gmap string Obj) :=
  match self !! name with
  | Some (ObjBinder binder) =>
      match self !! "context_rule" with
      | Some context_rule =>
          match bind_context_rule binder [] (<["context_rule" := context_rule]> ∅) with
          | Returns binder => Returns (<[name := ObjBinder binder]> self)
          | Raises e => Raises e
          end
      | None => Raises (AttributeError "context_rule")
      end
  | Some _ => Raises (AttributeError "bind_context_rule")
  | None => Raises (AttributeError name)
  end.

(** [PipelineBase.__init__]: the body under the decorator, and the
    decorated method. *)
Definition PipelineBase_init_body (self : gmap string Obj) (args : list Obj)
    (kwargs : gmap string Obj) : Outcome (gmap string Obj) :=
  match takes_only_self self args kwargs with
  | Returns self =>
      match bind_on "state_builder" self with
      | Returns self => bind_on "rep_generator" self
      | Raises e => Raises e
      end
  | Raises e => Raises e
  end.

Definition PipelineBase_init : gmap string Obj → list Obj → gmap string Obj
                               → Outcome (gmap string Obj) :=
  method_named_args ObjNone
    ["resource"; "context_rule"; "state_builder"; "rep_generator"]
    PipelineBase_init_body.

(** [RepresentationGenerator.generate_representation] of the base class:
    [return {}]. *)
Definition base_generate_representation (res : Resource) (st : ResourceState)
  : Outcome PyVal :=
  Returns (PyDict []).

(** A pipeline with the representation generator of the base class. *)
Definition represented_pipeline : PipelineBase :=
  MkPipelineBase (MkResource (Some ordered_collection) None None) post_rule
    (MkStateTreeBuilder (λ _, Returns empty_resource_state)
                        (λ _ _, Returns empty_resource_state))
    (Some base_generate_representation) plain_functions.

(** * Properties *)

(** ** Keyword filtering *)

Section AsyncCallFacts.

Context {V R : Type} (env : FuncEnv V R).

Lemma filter_intersection_dom (P : gset string) (kwargs : gmap string V) :
  filter (λ kv : string * V, kv.1 ∈ P ∩ dom kwargs) kwargs
  = filter (λ kv : string * V, kv.1 ∈ P) kwargs.
Proof.
  apply map_filter_ext. intros k v Hk. simpl.
  rewrite elem_of_intersection, elem_of_dom. split; [tauto|]. intros; split; eauto.
Qed.

Lemma extract_kwargs_subset_spec cache func kwargs :
  cache_coherent env cache →
  ∃ cache',
    _extract_kwargs_subset env cache func kwargs
    = (cache',
       if decide (params_without_default env func ⊆ dom kwargs)
       then Returns (filter (λ kv : string * V, kv.1 ∈ params_all env func) kwargs)
       else Raises (RuntimeError "Missing keys"))
    ∧ cache_coherent env cache'.
Proof.
  intros Hc. unfold _extract_kwargs_subset.
  destruct (cache !! func) as [[a d]|] eqn:Hl.
  - pose proof (Hc _ _ Hl) as Heq. injection Heq as -> ->.
    exists cache. split; [|done].
    destruct (decide _); [|done]. by rewrite filter_intersection_dom.
  - exists (<[func := (params_all env func, params_without_default env func)]> cache).
    split.
    + destruct (decide _); [|done]. by rewrite filter_intersection_dom.
    + intros f ps. rewrite lookup_insert. case_decide; [naive_solver|apply Hc].
Qed.

Lemma await_suspended fuel cache func args kwargs n :
  n ≤ fuel →
  await_alone env fuel cache (CoroSuspended func args kwargs n)
  = (cache,
     match fn_body env func args kwargs with Returns ret => [EvReturn func ret] | _ => [] end,
     of_outcome (fn_body env func args kwargs)).
Proof.
  revert n. induction fuel as [|fuel IH]; intros n Hn.
  - assert (n = 0) as -> by lia. simpl. unfold finish.
    by destruct (fn_body env func args kwargs).
  - destruct n as [|n].
    + simpl. unfold finish. by destruct (fn_body env func args kwargs).
    + cbn [await_alone coro_step]. rewrite IH by lia. done.
Qed.

Lemma async_call_run cache func args kwargs cache' passed :
  (match args with
   | [] => _extract_kwargs_subset env cache func kwargs
   | _ => (cache, Returns kwargs)
   end) = (cache', Returns passed) →
  async_call env cache func args kwargs
  = (cache',
     EvCall func args passed ::
       match fn_body env func args passed with Returns ret => [EvReturn func ret] | _ => [] end,
     of_outcome (fn_body env func args passed)).
Proof.
  intros H. unfold async_call.
  destruct (fn_suspensions env func) as [|n] eqn:Hs.
  - simpl. rewrite H, Hs. unfold finish.
    destruct (fn_iscoroutine env func); by destruct (fn_body env func args passed).
  - cbn [await_alone coro_step]. rewrite H, Hs.
    destruct (fn_iscoroutine env func).
    + rewrite await_suspended by lia. done.
    + unfold finish. by destruct (fn_body env func args passed).
Qed.


End AsyncCallFacts.

(** ** What the event loop calls *)

Section EventLoopFacts.

Context {V R : Type} (env : FuncEnv V R).




End EventLoopFacts.

(** ** Calls made by the Invoke phase *)





(** ** The merger *)

Lemma helper_leaf ret child_value r :
  helper ret child_value (MkTreeState r [])
  = if truthy child_value then child_value else ret.
Proof. done. Qed.

(** C7. For two nested paths [a.b] and [a.c] under a common prefix, merging
    the results stored at them gives one mapping for the prefix holding both:
    [{a.b: 1, a.c: 2}] becomes [{a: {b: 1, c: 2}}]. *)
Theorem merge_nested_paths (a b c : string) (v1 v2 : PyVal) :
  b ≠ c → truthy v1 = true → truthy v2 = true →
  _merge_output_of_callbacks (tree_of [[a; b]; [a; c]] [v1; v2])
  = PyDict [(a, PyDict [(b, v1); (c, v2)])].
Proof.
  intros Hbc H1 H2.
  assert (String.eqb c b = false) as Hcb by (apply String.eqb_neq; congruence).
  unfold _merge_output_of_callbacks, tree_of. cbn.
  rewrite !String.eqb_refl. cbn. rewrite !Hcb. cbn.
  by rewrite Hcb, H1, H2.
Qed.

Lemma merge_nested_paths_witness :
  "b" ≠ "c" ∧ truthy (PyInt 1) = true ∧ truthy (PyInt 2) = true ∧
  _merge_output_of_callbacks (tree_of [["a"; "b"]; ["a"; "c"]] [PyInt 1; PyInt 2])
  = PyDict [("a", PyDict [("b", PyInt 1); ("c", PyInt 2)])].
Proof.
  assert ("b" ≠ "c") as H by discriminate.
  split; [exact H|]. split; [reflexivity|]. split; [reflexivity|].
  exact (merge_nested_paths "a" "b" "c" (PyInt 1) (PyInt 2) H eq_refl eq_refl).
Defined.

(** C8 (as the code has it). A node without children yields the value stored
    at it only when that value is true in Python's sense; a stored [0],
    [False] or empty container is dropped for the accumulated value. Storing
    [0] at path [x] merges to [{x: None}], and over a root result [{x: 5}] to
    [{x: 5}]. *)
Theorem merge_leaf_drops_falsy_value :
  (∀ ret child_value r,
     helper ret child_value (MkTreeState r [])
     = if truthy child_value then child_value else ret)
  ∧ _merge_output_of_callbacks (tree_of [["x"]] [PyInt 0]) = PyDict [("x", PyNone)]
  ∧ _merge_output_of_callbacks (tree_of [["x"]] [PyBool false]) = PyDict [("x", PyNone)]
  ∧ _merge_output_of_callbacks (tree_of [["x"]] [PyDict []]) = PyDict [("x", PyNone)]
  ∧ _merge_output_of_callbacks
      (tree_of [[]; ["x"]] [PyDict [("x", PyInt 5)]; PyInt 0])
    = PyDict [("x", PyInt 5)].
Proof. repeat split. Qed.

(** ** The pipeline *)

(** C9. When the input state built for a run fails input validation, [run]
    raises at once: no callback is selected or called (the trace and the
    cache are as before) and no later attribute of the pipeline is set. *)
Theorem invalid_input_aborts_before_callbacks
    (self : PipelineBase) (w : World) (st : ResourceState) :
  build_input_state (state_builder self) (resource self) = Returns st →
  validate_input_state (context_rule self) st = false →
  run self w
  = (MkWorld (Some st) (merged_output_of_callbacks w) (output_state w)
             (representation w) (w_cache w) (w_trace w),
     Raise input_state_not_valid)
  ∧ called (w_trace (run self (new_world (w_cache w))).1) = [].
Proof.
  intros Hb Hv. unfold run, _build_input_state, and_then, lift. rewrite Hb. simpl.
  by rewrite Hv.
Qed.

(** ** Selection *)

Lemma for_each_app {A S : Type} (body : S → A → Result S) l1 l2 s :
  for_each body (l1 ++ l2) s = s' ← for_each body l1 s; for_each body l2 s'.
Proof.
  revert s. induction l1 as [|x l1 IH]; intros s; simpl; [done|].
  destruct (body s x); simpl; [apply IH|done..].
Qed.

Lemma enqueue_children state children : ∀ queue,
  let body := λ (queue : list (Attr * option State)) (item : string * Attr),
                cs ← child_state state item.1; Ok (queue ++ [(item.2, cs)]) in
  for_each body children queue ≠ OutOfFuel ∧
  ∀ queue', for_each body children queue = Ok queue' →
    ∃ new, queue' = queue ++ new ∧
           Forall2 (λ (item : string * Attr) (pair : Attr * option State),
                      pair.1 = item.2 ∧ child_state state item.1 = Ok pair.2)
                   children new.
Proof.
  induction children as [|[name child] children IH]; intros queue body; simpl.
  - split; [done|]. intros ? [= <-]. exists []. by rewrite app_nil_r.
  - subst body. simpl. destruct (child_state state name) as [cs| |] eqn:Hcs; simpl.
    + destruct (IH (queue ++ [(child, cs)])) as [Hne Hok]. split; [done|].
      intros queue' Hq. apply Hok in Hq as (new & -> & HF).
      exists ((child, cs) :: new). rewrite <- app_assoc. split; [done|]. by constructor.
    + split; [done|]. done.
    + unfold child_state in Hcs. destruct (state_truthy state); [|done].
      destruct state as [s|]; [|done]. unfold getattr in Hcs.
      by destruct (list_find _ _) as [[? [? ?]]|].
Qed.

Lemma queue_size_app q1 q2 : queue_size (q1 ++ q2) = queue_size q1 + queue_size q2.
Proof. unfold queue_size. by rewrite fmap_app, list_sum_app. Qed.

Lemma queue_size_children state children new :
  Forall2 (λ (item : string * Attr) (pair : Attr * option State),
             pair.1 = item.2 ∧ child_state state item.1 = Ok pair.2) children new →
  queue_size new = list_sum (map (λ c : string * Attr, attr_size c.2) children).
Proof.
  induction 1 as [|[n c] [a s] ? ? [Ha _] _ IH]; [done|].
  simpl in Ha. subst a. change (queue_size ((c, s) :: l')) with (attr_size c + queue_size l').
  by rewrite IH.
Qed.

Lemma select_callbacks_loop_spec self query root_state fuel : ∀ queue ret,
  queue_size queue ≤ fuel →
  _select_callbacks_loop fuel self query root_state queue ret ≠ OutOfFuel ∧
  ∀ ret', _select_callbacks_loop fuel self query root_state queue ret = Ok ret' →
    ∀ t, t ∈ ret' ↔
         t ∈ ret ∨ ∃ p, p ∈ queue ∧ reaches p (t.1.2, t.2) ∧ selects self query root_state t.
Proof.
  induction fuel as [|fuel IH]; intros queue ret Hsz.
  - destruct queue as [|[[path cs] state] queue].
    + simpl. split; [done|]. intros ? [= <-] t. split; [auto|].
      intros [?|(p & Hp & _)]; [done|]. by apply elem_of_nil in Hp.
    + unfold queue_size in Hsz. simpl in Hsz. lia.
  - destruct queue as [|[attr state] queue].
    + simpl. split; [done|]. intros ? [= <-] t. split; [auto|].
      intros [?|(p & Hp & _)]; [done|]. by apply elem_of_nil in Hp.
    + cbn [_select_callbacks_loop].
      destruct (query (bh_path attr) (HTTPMethod self)) as [callback options] eqn:Hq.
      pose proof (enqueue_children state (bh_named_children attr) queue) as [Hne Hok].
      simpl in Hne, Hok. unfold child_state in Hne, Hok.
      destruct (for_each _ (bh_named_children attr) queue) as [queue'| |] eqn:Hfe;
        [|by simpl|done]; simpl.
      destruct (Hok _ eq_refl) as (new & -> & HF).
      change (Forall2 (λ (item : string * Attr) (pair : Attr * option State),
                         pair.1 = item.2 ∧ child_state state item.1 = Ok pair.2)
                (bh_named_children attr) new) in HF.
      clear Hne Hok.
      set (ret1 := match callback with
                   | Some callback0 =>
                       if state_truthy state || is_None root_state
                       then ret ++ [(callback0, attr, state)] else ret
                   | None => ret
                   end).
      assert (queue_size (queue ++ new) ≤ fuel) as Hsz'.
      { rewrite queue_size_app, (queue_size_children state _ _ HF).
        change (queue_size ((attr, state) :: queue))
          with (attr_size attr + queue_size queue) in Hsz.
        destruct attr as [p cs]. cbn [attr_size bh_named_children] in *. lia. }
      destruct (IH (queue ++ new) ret1 Hsz') as [Hne' Hok']. split; [done|].
      intros ret' Hret' t. rewrite (Hok' _ Hret' t). clear Hok' Hne' Hret'.
      assert (t ∈ ret1 ↔ t ∈ ret ∨ (t.1.2 = attr ∧ t.2 = state ∧ selects self query root_state t))
        as Hret1.
      { subst ret1. unfold selects. destruct t as [[cb a] s]. simpl.
        destruct callback as [cb0|].
        - destruct (state_truthy state || is_None root_state) eqn:Hcond.
          + rewrite elem_of_app, list_elem_of_singleton. split.
            * intros [?|[= -> -> ->]]; [by left|right]. rewrite Hq. simpl.
              apply orb_true_iff in Hcond as [?|Hn]; [by auto|].
              destruct root_state; [done|auto].
            * intros [?|(-> & -> & Hcb & _)]; [by left|right].
              rewrite Hq in Hcb. simpl in Hcb. by injection Hcb as ->.
          + split; [by left|]. intros [?|(-> & -> & _ & Hc)]; [done|].
            apply orb_false_iff in Hcond as [Hst Hn].
            destruct Hc as [Hc| ->]; [congruence|done].
        - split; [by left|]. intros [?|(-> & -> & Hcb & _)]; [done|].
          rewrite Hq in Hcb. done. }
      rewrite Hret1. clear Hret1. split.
      * intros [[?|(Ha & Hs & Hsel)]|(p & Hp & Hr & Hsel)].
        -- by left.
        -- right. exists (attr, state). split; [by left|]. split; [|done].
           rewrite Ha, Hs. constructor.
        -- right. apply elem_of_app in Hp as [Hp|Hp].
           ++ exists p. split; [by right|done].
           ++ exists (attr, state). split; [by left|]. split; [|done].
              apply list_elem_of_lookup in Hp as [i Hi].
              destruct (Forall2_lookup_r _ _ _ _ _ HF Hi) as ([name child] & Hc & Hp1 & Hp2).
              destruct p as [pa ps]. simpl in *. subst pa.
              eapply reaches_child; [|done..]. by eapply list_elem_of_lookup_2.
      * intros [?|(p & Hp & Hr & Hsel)]; [by left; left|].
        apply elem_of_cons in Hp as [->|Hp].
        -- inversion Hr as [|? ? name child cs ? Hin Hcs Hr']; subst.
           ++ left. right. done.
           ++ right. exists (child, cs). split; [|done]. apply elem_of_app. right.
              apply list_elem_of_lookup in Hin as [i Hi].
              destruct (Forall2_lookup_l _ _ _ _ _ HF Hi) as ([pa ps] & Hn & Hp1 & Hp2).
              simpl in *. subst pa. rewrite Hcs in Hp2. injection Hp2 as <-.
              by eapply list_elem_of_lookup_2.
        -- right. exists p. split; [|done]. apply elem_of_app. by left.
Qed.

Lemma enqueue_children_stateless children : ∀ queue,
  Forall (λ p : Attr * option State, p.2 = None) queue →
  ∃ queue',
    for_each (λ (queue : list (Attr * option State)) (item : string * Attr),
                cs ← child_state None item.1; Ok (queue ++ [(item.2, cs)]))
      children queue = Ok queue'
    ∧ Forall (λ p : Attr * option State, p.2 = None) queue'
    ∧ queue_size queue'
      = queue_size queue + list_sum (map (λ c : string * Attr, attr_size c.2) children).
Proof.
  induction children as [|[name child] children IH]; intros queue Hq.
  - exists queue. split; [done|]. split; [done|]. simpl. lia.
  - destruct (IH (queue ++ [(child, None)])) as (queue' & Hfe & HF & Hsz).
    { apply Forall_app. split; [done|]. by constructor. }
    exists queue'. split; [exact Hfe|]. split; [done|].
    rewrite Hsz, queue_size_app. unfold queue_size at 2. simpl. lia.
Qed.

Lemma select_callbacks_loop_stateless self query fuel : ∀ queue ret,
  queue_size queue ≤ fuel →
  Forall (λ p : Attr * option State, p.2 = None) queue →
  ∃ ret', _select_callbacks_loop fuel self query None queue ret = Ok ret'.
Proof.
  induction fuel as [|fuel IH]; intros queue ret Hsz Hq.
  - destruct queue as [|[[path cs] state] queue]; [by eexists|].
    unfold queue_size in Hsz. simpl in Hsz. lia.
  - destruct queue as [|[attr state] queue]; [by eexists|].
    apply Forall_cons in Hq as [Hs Hq]. simpl in Hs. subst state.
    cbn [_select_callbacks_loop].
    destruct (query (bh_path attr) (HTTPMethod self)) as [callback options].
    destruct (enqueue_children_stateless (bh_named_children attr) queue Hq)
      as (queue' & Hfe & HF & Hsz').
    match goal with
    | |- context [for_each ?b ?l ?q] =>
        change (for_each b l q)
          with (for_each (λ (queue : list (Attr * option State)) (item : string * Attr),
                            cs ← child_state None item.1; Ok (queue ++ [(item.2, cs)]))
                  l q)
    end.
    rewrite Hfe. cbn [mbind Result_bind].
    apply IH; [|done]. rewrite Hsz'.
    change (queue_size ((attr, None) :: queue))
      with (attr_size attr + queue_size queue) in Hsz.
    destruct attr as [p cs]. cbn [attr_size bh_named_children] in *. lia.
Qed.

(** C5 (amended). Selection over one collection ends, and a triple is in its
    result exactly when the node is met in the walk with that state, a
    callback is registered for the active operation at the node's path, and
    either the node's state is true or the root state of the collection is
    [None]. When the root state is [None] no attribute is looked up, the
    selection succeeds and every node with a callback is selected. *)
Theorem select_callbacks_inclusion (self : ContextRule)
    (query : list string → HTTPMethodConfig → option pyfunc * Options)
    (root_attr : Attr) (root_state : option State) :
  _select_callbacks self query root_attr root_state ≠ OutOfFuel
  ∧ (root_state = None →
       ∃ ret, _select_callbacks self query root_attr root_state = Ok ret)
  ∧ ∀ ret, _select_callbacks self query root_attr root_state = Ok ret →
      ∀ callback attr state,
        (callback, attr, state) ∈ ret ↔
          reaches (root_attr, root_state) (attr, state)
          ∧ (query (bh_path attr) (HTTPMethod self)).1 = Some callback
          ∧ (state_truthy state = true ∨ root_state = None).
Proof.
  assert (queue_size [(root_attr, root_state)] ≤ attr_size root_attr) as Hsz.
  { unfold queue_size. simpl. lia. }
  destruct (select_callbacks_loop_spec self query root_state _ _ [] Hsz) as [Hne Hok].
  split; [done|]. split.
  - intros ->. apply select_callbacks_loop_stateless; [done|]. by repeat constructor.
  - intros ret Hret callback attr state. unfold _select_callbacks in Hret.
    rewrite (Hok _ Hret (callback, attr, state)). unfold selects. simpl. split.
    + intros [H|(p & Hp & Hr & Hsel)]; [by apply elem_of_nil in H|].
      apply list_elem_of_singleton in Hp as ->. done.
    + intros (Hr & Hsel). right. exists (root_attr, root_state).
      split; [by apply list_elem_of_singleton|done].
Qed.

(** C5, counterexample. With no state for the collection, the callback
    registered at the child [a] is selected although the child is not the
    root and its state is absent; and a root whose state is there but false
    is left out while it has a callback. *)
Lemma select_callbacks_absent_child_selected :
  _select_callbacks post_rule query_child_only root_with_child None
  = Ok [(1, child_attr_a, None)]
  ∧ _select_callbacks post_rule query_everywhere root_with_child (Some false_state)
    = Ok [].
Proof. split; reflexivity. Qed.

(** C6 (amended). The SelectCallbacks phase runs the selector for the
    attributes and for the relationships of the resource, each only when the
    resource declares it, against the matching tree of the input state. The
    result maps all three collection names, the declared ones first; an
    undeclared collection and [resource_id] always map to the empty
    sequence. *)
Theorem select_callbacks_two_collections
    (self : ContextRule) (resource : Resource) (state : ResourceState) :
  select_callbacks self resource state
  = (a ← select_or_empty self (res_attributes resource) (rs_attributes state);
     r ← select_or_empty self (res_relationships resource) (rs_relationships state);
     Ok ((if is_None (res_attributes resource) then [] else [("attributes", a)])
         ++ (if is_None (res_relationships resource) then [] else [("relationships", r)])
         ++ (if is_None (res_attributes resource) then [("attributes", [])] else [])
         ++ (if is_None (res_relationships resource) then [("relationships", [])] else [])
         ++ [("resource_id", [])])).
Proof.
  unfold select_callbacks, select_or_empty. simpl.
  destruct (res_attributes resource) as [ca|]; simpl.
  - destruct (_select_callbacks self _ (attr_obj ca) _) as [a| |]; simpl; [|done..].
    destruct (res_relationships resource) as [cr|]; simpl; [|done].
    by destruct (_select_callbacks self _ (attr_obj cr) _) as [r| |].
  - destruct (res_relationships resource) as [cr|]; simpl; [|done].
    by destruct (_select_callbacks self _ (attr_obj cr) _) as [r| |].
Qed.

(** C6, counterexample. For a resource with a resource-identifier schema
    and a request carrying an identifier, the selector run on that
    collection selects the root callback, but [select_callbacks] maps
    [resource_id] to the empty sequence. *)
Lemma select_callbacks_skips_resource_id :
  select_or_empty post_rule (res_resource_id id_only_resource)
    (rs_resource_id id_only_state)
  = Ok [(7, id_attr, Some present_state)]
  ∧ ∃ ret, select_callbacks post_rule id_only_resource id_only_state = Ok ret
           ∧ odict_get "resource_id" ret = Some [].
Proof. split; [reflexivity|]. eexists. split; reflexivity. Qed.

(** ** The Invoke phase *)

Example ordered_pipeline_selection :
  select_callbacks post_rule (resource ordered_pipeline) empty_resource_state
  = Ok [("attributes", [(1, root_with_child, None); (2, child_attr_a, None)]);
        ("relationships", []); ("resource_id", [])].
Proof. reflexivity. Qed.

(** C1, counterexample. The registry declares that callback [1] runs after
    callback [2], so the scheduler puts [2] in group 0 and [1] in group 1;
    the run of the pipeline calls [1] first and [2] only after [1] has
    returned. *)
Lemma invoke_ignores_schedule :
  parallel_groups_of_callbacks elements
    (declared_constraints post_rule ordered_collection
       [(1, root_with_child, None); (2, child_attr_a, None)])
  = Ok [[2]; [1]]
  ∧ (run ordered_pipeline (new_world ∅)).2 = Ok tt
  ∧ trace_shape (w_trace (run ordered_pipeline (new_world ∅)).1)
    = [(1, true); (1, false); (2, true); (2, false)]
  ∧ groups_in_sequence [[2]; [1]]
      (trace_shape (w_trace (run ordered_pipeline (new_world ∅)).1)) = false.
Proof. repeat split; vm_compute; reflexivity. Qed.

Section LaunchOrder.

Context {V R : Type} (env : FuncEnv V R).

Lemma called_app (evs1 evs2 : list (Event V R)) :
  called (evs1 ++ evs2) = called evs1 ++ called evs2.
Proof. unfold called. apply omap_app. Qed.

Lemma finish_shape func args kwargs evs st :
  finish env func args kwargs = (evs, st) →
  called evs = [] ∧ (∀ f r, EvReturn f r ∈ evs → f = func) ∧ ∃ r, st = StepDone r.
Proof.
  unfold finish. destruct (fn_body env func args kwargs); intros [= <- <-].
  - split; [done|]. split; [|eauto]. intros f r Hin.
    apply list_elem_of_singleton in Hin. by injection Hin.
  - split; [done|]. split; [|eauto]. intros f r Hin. by apply elem_of_nil in Hin.
Qed.

Lemma coro_step_created cache func args kwargs cache' evs st :
  coro_step env cache (CoroCreated func args kwargs) = (cache', evs, st) →
  match st with
  | StepDone (Returns _) =>
      called evs = [func] ∧ never_suspends env func ∧
      (∀ f r, EvReturn f r ∈ evs → f = func)
  | StepDone (Raises _) => True
  | StepPending c' =>
      called evs = [func] ∧ is_suspended c' ∧ (∀ f r, EvReturn f r ∉ evs) ∧
      coro_budget env c' < coro_budget env (CoroCreated func args kwargs)
  end.
Proof.
  cbn [coro_step].
  destruct (match args with
            | [] => _extract_kwargs_subset env cache func kwargs
            | _ => (cache, Returns kwargs)
            end) as [c1 [kw|e]]; [|by intros [= <- <- <-]].
  destruct (fn_iscoroutine env func) eqn:Hco;
    [destruct (fn_suspensions env func) as [|n] eqn:Hs|].
  - destruct (finish env func args kw) as [evs0 st0] eqn:Hf. intros [= <- <- <-].
    apply finish_shape in Hf as (Hcalled & Hret & [r ->]). destruct r; [|done].
    change (called (EvCall func args kw :: evs0)) with (func :: called evs0).
    rewrite Hcalled. split; [done|]. split; [by right|].
    intros f r Hin. apply elem_of_cons in Hin as [[=]|Hin]. by eapply Hret.
  - intros [= <- <- <-]. split; [done|]. split; [done|]. split.
    + intros f r Hin. apply list_elem_of_singleton in Hin. done.
    + simpl. rewrite Hs. lia.
  - destruct (finish env func args kw) as [evs0 st0] eqn:Hf. intros [= <- <- <-].
    apply finish_shape in Hf as (Hcalled & Hret & [r ->]). destruct r; [|done].
    change (called (EvCall func args kw :: evs0)) with (func :: called evs0).
    rewrite Hcalled. split; [done|]. split; [by left|].
    intros f r Hin. apply elem_of_cons in Hin as [[=]|Hin]. by eapply Hret.
Qed.

Lemma coro_step_suspended cache func args kwargs n cache' evs st :
  coro_step env cache (CoroSuspended func args kwargs n) = (cache', evs, st) →
  called evs = [] ∧
  ∀ c', st = StepPending c' →
    is_suspended c' ∧ coro_budget env c' < coro_budget env (CoroSuspended func args kwargs n).
Proof.
  cbn [coro_step]. destruct n as [|n].
  - destruct (finish env func args kwargs) as [evs0 st0] eqn:Hf. intros [= <- <- <-].
    apply finish_shape in Hf as (Hcalled & _ & [r ->]). by split.
  - intros [= <- <- <-]. split; [done|]. intros c' [= <-]. simpl. split; [done|lia].
Qed.

Lemma event_loop_suspended fuel : ∀ cache ready results cache' evs res,
  Forall (λ ic : nat * Coroutine V, is_suspended ic.2) ready →
  event_loop env fuel cache ready results = (cache', evs, res) →
  called evs = [].
Proof.
  induction fuel as [|fuel IH]; intros cache ready results cache' evs res Hr;
    destruct ready as [|[i c] ready]; cbn [event_loop]; try by intros [= <- <- <-].
  apply Forall_cons in Hr as [Hc Hr]. simpl in Hc.
  destruct c as [|func args kwargs n]; [done|].
  destruct (coro_step env cache _) as [[c1 evs1] st] eqn:Hst.
  apply coro_step_suspended in Hst as [Hcalled Hpend].
  destruct st as [[r|e]|c'].
  - destruct (event_loop env fuel c1 ready _) as [[c2 evs2] res2] eqn:Hl.
    intros [= <- <- <-]. rewrite called_app, Hcalled. by eapply IH.
  - by intros [= <- <- <-].
  - destruct (event_loop env fuel c1 _ _) as [[c2 evs2] res2] eqn:Hl.
    intros [= <- <- <-]. rewrite called_app, Hcalled. eapply IH; [|done].
    apply Forall_app. split; [done|]. constructor; [|done]. by apply Hpend.
Qed.

Lemma event_loop_launch created : ∀ fuel cache suspended results cache' evs res,
  Forall (λ ic : nat * Coroutine V, is_created ic.2) created →
  Forall (λ ic : nat * Coroutine V, is_suspended ic.2) suspended →
  event_loop env fuel cache (created ++ suspended) results = (cache', evs, Ok res) →
  ∃ launch rest,
    evs = launch ++ rest ∧
    called launch = (λ ic : nat * Coroutine V, coro_func ic.2) <$> created ∧
    called rest = [] ∧
    ∀ f r, EvReturn f r ∈ launch → never_suspends env f.
Proof.
  induction created as [|[i c] created IH];
    intros fuel cache suspended results cache' evs res Hcr Hsu.
  - simpl. intros Hl. apply event_loop_suspended in Hl; [|done].
    exists [], evs. repeat split; [done|]. intros f r Hin. by apply elem_of_nil in Hin.
  - apply Forall_cons in Hcr as [Hc Hcr]. simpl in Hc.
    destruct c as [func args kwargs|]; [|done].
    destruct fuel as [|fuel]; [done|]. cbn [event_loop app].
    destruct (coro_step env cache _) as [[c1 evs1] st] eqn:Hst.
    apply coro_step_created in Hst.
    destruct st as [[r|e]|c'].
    + destruct Hst as (Hcalled & Hns & Hret).
      destruct (event_loop env fuel c1 _ _) as [[c2 evs2] res2] eqn:Hl.
      intros [= <- <- ->]. apply IH in Hl as (launch & rest & -> & Hl1 & Hl2 & Hl3); [|done..].
      exists (evs1 ++ launch), rest. rewrite app_assoc. split; [done|].
      rewrite called_app, Hcalled, Hl1. split; [done|]. split; [done|].
      intros f r' Hin. apply elem_of_app in Hin as [Hin|Hin]; [|by eapply Hl3].
      by rewrite (Hret _ _ Hin).
    + done.
    + destruct Hst as (Hcalled & Hsusp & Hnoret & _).
      destruct (event_loop env fuel c1 _ _) as [[c2 evs2] res2] eqn:Hl.
      intros [= <- <- ->]. rewrite <- app_assoc in Hl.
      apply IH in Hl as (launch & rest & -> & Hl1 & Hl2 & Hl3); [|done|].
      2:{ apply Forall_app. split; [done|]. by constructor. }
      exists (evs1 ++ launch), rest. rewrite app_assoc. split; [done|].
      rewrite called_app, Hcalled, Hl1. split; [done|]. split; [done|].
      intros f r' Hin. apply elem_of_app in Hin as [Hin|Hin]; [|by eapply Hl3].
      by destruct (Hnoret f r').
Qed.

Lemma event_loop_fuel fuel : ∀ cache ready results,
  ready_budget env ready ≤ fuel →
  (event_loop env fuel cache ready results).2 ≠ OutOfFuel.
Proof.
  induction fuel as [|fuel IH]; intros cache ready results Hb;
    destruct ready as [|[i c] ready]; cbn [event_loop]; try done.
  - unfold ready_budget in Hb. destruct c; simpl in Hb; lia.
  - change (ready_budget env ((i, c) :: ready))
      with (coro_budget env c + ready_budget env ready) in Hb.
    destruct (coro_step env cache c) as [[c1 evs1] st] eqn:Hst.
    assert (1 ≤ coro_budget env c) as Hpos by (destruct c; simpl; lia).
    destruct st as [[r|e]|c'].
    + specialize (IH c1 ready (<[i:=r]> results)).
      destruct (event_loop env fuel c1 ready _) as [[c2 evs2] res2]. simpl in *.
      apply IH. lia.
    + done.
    + assert (coro_budget env c' < coro_budget env c) as Hlt.
      { destruct c as [func args kwargs|func args kwargs n].
        - apply coro_step_created in Hst. tauto.
        - apply coro_step_suspended in Hst as [_ Hst]. by apply Hst. }
      specialize (IH c1 (ready ++ [(i, c')]) results).
      destruct (event_loop env fuel c1 _ _) as [[c2 evs2] res2]. simpl in *.
      apply IH. unfold ready_budget in *. rewrite fmap_app, list_sum_app. simpl. lia.
Qed.

End LaunchOrder.

Lemma fmap_imap_pair {A B : Type} (g : A → B) (l : list A) :
  (λ ic : nat * A, g ic.2) <$> imap (λ i c, (i, c)) l = g <$> l.
Proof. rewrite fmap_imap. apply imap_const. Qed.

Lemma gather_nested_launch {V R : Type} (env : FuncEnv V R) cache nested dflt cache' evs res :
  Forall (Forall is_created) nested →
  gather_nested env cache nested dflt = (cache', evs, res) →
  res ≠ OutOfFuel ∧
  (∀ rows, res = Ok rows →
     ∃ launch rest,
       evs = launch ++ rest ∧
       called launch
       = concat ((λ row : list (Coroutine V), coro_func <$> row) <$> nested) ∧
       called rest = [] ∧
       ∀ f r, EvReturn f r ∈ launch → never_suspends env f).
Proof.
  intros Hn. unfold gather_nested.
  pose proof (event_loop_fuel env (list_sum (coro_budget env <$> concat nested)) cache
                (imap (λ i c, (i, c)) (concat nested)) ∅) as Hfuel.
  destruct (event_loop _ _ _ _ _) as [[c1 evs1] r1] eqn:Hl. intros [= <- <- <-].
  split.
  - simpl in Hfuel. destruct r1; try done. exfalso. apply Hfuel; [|done].
    unfold ready_budget. by rewrite fmap_imap_pair.
  - intros rows Hrows. destruct r1 as [results| |]; try done.
    rewrite <- (app_nil_r (imap _ _)) in Hl.
    apply event_loop_launch in Hl as (launch & rest & -> & H1 & H2 & H3); [|clear Hl|done].
    + exists launch, rest. split; [done|]. split; [|done].
      rewrite H1, fmap_imap_pair. clear. induction nested as [|row nested IH]; [done|].
      simpl. by rewrite fmap_app, IH.
    + apply Forall_lookup. intros i [j c]. rewrite list_lookup_imap.
      destruct (concat nested !! i) as [c0|] eqn:Hi; [|done]. simpl. intros [= <- <-].
      apply list_elem_of_lookup_2, list_elem_of_In, in_concat in Hi as (row & Hrow & Hc0).
      apply list_elem_of_In in Hrow, Hc0.
      eapply Forall_forall in Hn; [|done]. by eapply Forall_forall in Hn.
Qed.

(** C1 (amended). The Invoke phase does not consult the Dependency
    Scheduler. It makes one coroutine for every selected callback of every
    collection and awaits them all in a single gather, which ends. When the
    phase succeeds, its trace is a launch pass followed by completions only:
    in the launch pass every selected callback is called once, in selection
    order, collection after collection, whatever ordering constraints are
    declared, and the only callbacks that return during the launch pass are
    those that never suspend. *)
Theorem invoke_starts_in_selection_order
    (self : PipelineBase) (w : World) (st : ResourceState)
    (name2selected : list (string * list (pyfunc * Attr * option State))) :
  input_state w = Some st →
  select_callbacks (context_rule self) (resource self) st = Ok name2selected →
  (_invoke_callbacks self w).2 ≠ OutOfFuel
  ∧ ∀ w', _invoke_callbacks self w = (w', Ok tt) →
      ∃ launch rest,
        w_trace w' = w_trace w ++ launch ++ rest
        ∧ called launch = selected_callbacks name2selected
        ∧ called rest = []
        ∧ ∀ f r, EvReturn f r ∈ launch → never_suspends (functions self) f.
Proof.
  intros Hin Hsel. unfold _invoke_callbacks, and_then, get_attr, lift.
  rewrite Hin, Hsel.
  destruct (gather_nested _ _ _ _) as [[c1 evs1] res1] eqn:Hg.
  apply gather_nested_launch in Hg as [Hne Hok].
  2:{ apply Forall_fmap, Forall_forall. intros kv _. unfold coroutines_of. simpl.
      apply Forall_fmap, Forall_forall. by intros [[? ?] ?] _. }
  destruct res1 as [joined| |]; [|by split..].
  destruct (Hok _ eq_refl) as (launch & rest & -> & H1 & H2 & H3).
  destruct (make_container _) as [raw|e|] eqn:Hmk.
  - split; [done|]. intros w' [= <-]. simpl. exists launch, rest.
    split; [done|]. split; [|done]. rewrite H1. unfold selected_callbacks.
    f_equal. rewrite <- list_fmap_compose. apply list_fmap_ext. intros i kv _. simpl.
    rewrite <- list_fmap_compose. by apply list_fmap_ext.
  - by split.
  - unfold make_container in Hmk. repeat case_match; done.
Qed.

Lemma invoke_starts_in_selection_order_witness :
  input_state (run ordered_pipeline (new_world ∅)).1 = Some empty_resource_state
  ∧ (_invoke_callbacks ordered_pipeline (run ordered_pipeline (new_world ∅)).1).2 ≠ OutOfFuel.
Proof.
  split; [reflexivity|].
  exact (proj1 (invoke_starts_in_selection_order ordered_pipeline
                  (run ordered_pipeline (new_world ∅)).1 empty_resource_state _
                  eq_refl ordered_pipeline_selection)).
Defined.

(** ** The dependency scheduler on inputs it mishandles *)

Lemma set_iter_empty set_iter s : set_iter_ok set_iter → s = ∅ → set_iter s = [].
Proof.
  intros H ->. destruct (set_iter ∅) as [|x l] eqn:Hl; [done|].
  assert (x ∈ set_iter ∅) as Hx by (rewrite Hl; left). apply H in Hx. set_solver.
Qed.

Ltac iterate_empty H :=
  repeat match goal with
         | |- context [?f ?s] =>
             match type of H with set_iter_ok f =>
               rewrite (set_iter_empty f s H) by reflexivity
             end
         end.

(** C2 (as the code has it). A callback declared with an empty iterable of
    parents is neither a start point nor anybody's child: it is in no group
    of the schedule, whatever the iteration order of sets. Alone it gives the
    empty schedule; next to an unconstrained callback it is left out. *)
Theorem schedule_drops_empty_run_after (set_iter : gset pyfunc → list pyfunc) :
  set_iter_ok set_iter →
  parallel_groups_of_callbacks set_iter
    [(1, MkOptions false false (RunAfterIterable []))]
  = Ok []
  ∧ parallel_groups_of_callbacks set_iter
      [(0, MkOptions false false RunAfterNone);
       (1, MkOptions false false (RunAfterIterable []))]
    = Ok [[0]].
Proof.
  intros H. split; [reflexivity|].
  vm_compute. iterate_empty H. vm_compute. iterate_empty H. reflexivity.
Qed.

Lemma elements_ok : set_iter_ok elements.
Proof. intros s x. apply elem_of_elements. Qed.

Lemma schedule_drops_empty_run_after_witness :
  parallel_groups_of_callbacks elements
    [(0, MkOptions false false RunAfterNone);
     (1, MkOptions false false (RunAfterIterable []))]
  = Ok [[0]].
Proof. exact (proj2 (schedule_drops_empty_run_after elements elements_ok)). Defined.

(** C3 (as the code has it). A cycle that no start point reaches is not
    searched: two callbacks that run after each other give the empty
    schedule and no error, and next to an unconstrained callback they are
    left out of the schedule, whatever the iteration order of sets. *)
Theorem schedule_misses_unreachable_cycle (set_iter : gset pyfunc → list pyfunc) :
  set_iter_ok set_iter →
  parallel_groups_of_callbacks set_iter
    [(1, MkOptions false false (RunAfterFunction 2));
     (2, MkOptions false false (RunAfterFunction 1))]
  = Ok []
  ∧ parallel_groups_of_callbacks set_iter
      [(0, MkOptions false false RunAfterNone);
       (1, MkOptions false false (RunAfterFunction 2));
       (2, MkOptions false false (RunAfterFunction 1))]
    = Ok [[0]].
Proof.
  intros H. split; [reflexivity|].
  vm_compute. iterate_empty H. vm_compute. iterate_empty H. reflexivity.
Qed.

Lemma schedule_misses_unreachable_cycle_witness :
  parallel_groups_of_callbacks elements
    [(1, MkOptions false false (RunAfterFunction 2));
     (2, MkOptions false false (RunAfterFunction 1))]
  = Ok [].
Proof. exact (proj1 (schedule_misses_unreachable_cycle elements elements_ok)). Defined.

(** C4 (as the code has it). A callback declared both [after_all] and
    [run_after] is accepted as the last callback and its parents are
    ignored: no conflict is raised. *)
Theorem schedule_accepts_after_all_with_run_after (set_iter : gset pyfunc → list pyfunc) :
  set_iter_ok set_iter →
  parallel_groups_of_callbacks set_iter
    [(1, MkOptions false true (RunAfterFunction 2))]
  = Ok [[1]]
  ∧ parallel_groups_of_callbacks set_iter
      [(1, MkOptions false true (RunAfterFunction 2));
       (2, MkOptions false false RunAfterNone)]
    = Ok [[2]; [1]].
Proof.
  intros H. split; [reflexivity|].
  vm_compute. iterate_empty H. vm_compute. iterate_empty H. reflexivity.
Qed.

Lemma schedule_accepts_after_all_with_run_after_witness :
  parallel_groups_of_callbacks elements
    [(1, MkOptions false true (RunAfterFunction 2));
     (2, MkOptions false false RunAfterNone)]
  = Ok [[2]; [1]].
Proof.
  exact (proj2 (schedule_accepts_after_all_with_run_after elements elements_ok)).
Defined.

(** ** Instances *)

Lemma empty_cache_coherent {V R : Type} (env : FuncEnv V R) : cache_coherent env ∅.
Proof. intros func ps. by rewrite lookup_empty. Qed.


Lemma invalid_input_aborts_before_callbacks_witness :
  (run invalid_input_pipeline (new_world ∅)).2 = Raise input_state_not_valid
  ∧ called (w_trace (run invalid_input_pipeline (new_world ∅)).1) = [].
Proof.
  destruct (invalid_input_aborts_before_callbacks invalid_input_pipeline (new_world ∅)
              (MkResourceState (Some invalid_state) None None) eq_refl eq_refl)
    as [H1 H2].
  split; [by rewrite H1|exact H2].
Defined.

(** ** The depth-first search *)

Section DFSFacts.

Context (set_iter : gset pyfunc → list pyfunc) (Hiter : set_iter_ok set_iter).
Context (children : gmap pyfunc (gset pyfunc)).

Lemma dfs_post_nil s : dfs_post children s [] s.
Proof.
  repeat split; try (intros x Hx; by apply elem_of_nil in Hx); try done.
  constructor.
Qed.

Lemma dfs_post_app s new1 s1 new2 s2 :
  dfs_post children s new1 s1 → dfs_post children s1 new2 s2 →
  dfs_post children s (new1 ++ new2) s2.
Proof.
  intros (Hw1 & Hb1 & Hu1 & Hd1 & Ho1) (Hw2 & Hb2 & Hu2 & Hd2 & Ho2).
  assert (∀ x, x ∈ new1 → x ∉ new2) as Hdisj.
  { intros x H1 H2. apply Hb1 in H1. apply Hw2 in H2. congruence. }
  repeat split.
  - intros x [Hx|Hx]%elem_of_app; [by apply Hw1|].
    rewrite <- Hu1; [by apply Hw2|]. intros H1. by apply (Hdisj x).
  - intros x [Hx|Hx]%elem_of_app; [|by apply Hb2].
    rewrite Hu2; [by apply Hb1|]. by apply Hdisj.
  - intros x Hx. rewrite not_elem_of_app in Hx. destruct Hx as [H1 H2].
    rewrite Hu2, Hu1; done.
  - apply NoDup_app. done.
  - intros i x c Hi He. apply lookup_app_Some in Hi as [Hi|[Hlen Hi]].
    + destruct (Ho1 i x c Hi He) as [?|(j & Hj & Hc)]; [by left|right].
      exists j. split; [done|]. by apply lookup_app_l_Some.
    + destruct (Ho2 _ x c Hi He) as [Hblack|(j & Hj & Hc)].
      * destruct (decide (c ∈ new1)) as [Hin|Hnin].
        -- right. apply list_elem_of_lookup in Hin as [j Hj]. exists j.
           split; [|by apply lookup_app_l_Some]. apply lookup_lt_Some in Hj. lia.
        -- left. by rewrite <- Hu1.
      * right. exists (length new1 + j). split; [lia|].
        rewrite lookup_app_r by lia. by replace (length new1 + j - length new1) with j by lia.
Qed.

Lemma dfs_post_known s new s' :
  dfs_post children s new s' → children_known children s → children_known children s'.
Proof.
  intros (Hw & Hb & Hu & _) Hk p c He. destruct (decide (c ∈ new)) as [Hin|Hnin].
  - rewrite (Hb _ Hin). eauto.
  - rewrite (Hu _ Hnin). by eapply Hk.
Qed.

Lemma dfs_post_pre W fuel s new s' :
  dfs_post children s new s' → dfs_pre children W fuel s → dfs_pre children W fuel s'.
Proof.
  intros Hpost (Hw & Hsz & Hk). split; [|split; [done|by eapply dfs_post_known]].
  destruct Hpost as (_ & Hb & Hu & _). intros x Hx.
  destruct (decide (x ∈ new)) as [Hin|Hnin].
  - rewrite (Hb _ Hin) in Hx. done.
  - rewrite (Hu _ Hnin) in Hx. by apply Hw.
Qed.

Lemma dfs_post_gray s new s' x :
  dfs_post children s new s' → s' !! x = Some GRAY → s !! x = Some GRAY.
Proof.
  intros (_ & Hb & Hu & _) Hx. destruct (decide (x ∈ new)) as [Hin|Hnin].
  - rewrite (Hb _ Hin) in Hx. done.
  - by rewrite (Hu _ Hnin) in Hx.
Qed.

Lemma dfs_post_black s new s' x :
  dfs_post children s new s' → s !! x = Some BLACK → s' !! x = Some BLACK.
Proof.
  intros (_ & Hb & Hu & _) Hx. destruct (decide (x ∈ new)) as [Hin|Hnin].
  - by apply Hb.
  - by rewrite (Hu _ Hnin).
Qed.

(** The loop over the children, given that the search works with this
    fuel: it runs to its end, or it stops on a cycle. *)
Lemma dfs_children_loop fuel :
  (∀ W s g callback,
     dfs_pre children W fuel s → is_Some (s !! callback) →
     (∀ x, s !! x = Some GRAY → tc (edge children) x callback) →
     (∃ s' new, DFS set_iter fuel children (s, g) callback = Ok (s', g ++ new)
                ∧ dfs_post children s new s' ∧ s' !! callback = Some BLACK)
     ∨ (DFS set_iter fuel children (s, g) callback = Raise detect_circle
        ∧ cyclic children)) →
  ∀ l W s g,
    dfs_pre children W fuel s →
    (∀ c, c ∈ l → is_Some (s !! c)) →
    (∀ x c, s !! x = Some GRAY → c ∈ l → tc (edge children) x c) →
    (∃ s' new, for_each (DFS set_iter fuel children) l (s, g) = Ok (s', g ++ new)
               ∧ dfs_post children s new s' ∧ ∀ c, c ∈ l → s' !! c = Some BLACK)
    ∨ (for_each (DFS set_iter fuel children) l (s, g) = Raise detect_circle
       ∧ cyclic children).
Proof.
  intros Hdfs l. induction l as [|c l IH]; intros W s g Hpre Hdom Hgray.
  - left. exists s, []. rewrite app_nil_r. split; [done|]. split; [apply dfs_post_nil|].
    intros c Hc. by apply elem_of_nil in Hc.
  - destruct (Hdfs W s g c Hpre) as [(s1 & new1 & Hrun1 & Hpost1 & Hblack1)|[Hrun1 Hcyc]].
    { apply Hdom. by left. }
    { intros x Hx. apply (Hgray x c Hx). by left. }
    2:{ right. cbn [for_each]. by rewrite Hrun1. }
    destruct (IH W s1 (g ++ new1)) as [(s2 & new2 & Hrun2 & Hpost2 & Hblack2)|[Hrun2 Hcyc]].
    { by eapply dfs_post_pre. }
    { intros c' Hc'. destruct Hpost1 as (_ & Hb & Hu & _).
      destruct (decide (c' ∈ new1)) as [Hin|Hnin].
      - rewrite (Hb _ Hin). eauto.
      - rewrite (Hu _ Hnin). apply Hdom. by right. }
    { intros x c' Hx Hc'. eapply Hgray; [by eapply dfs_post_gray|by right]. }
    2:{ right. cbn [for_each]. rewrite Hrun1. cbn [mbind Result_bind]. by rewrite Hrun2. }
    left. exists s2, (new1 ++ new2). cbn [for_each]. rewrite Hrun1. cbn [mbind Result_bind].
    rewrite Hrun2, app_assoc. split; [done|]. split; [by eapply dfs_post_app|].
    intros c' [->|Hc']%elem_of_cons; [by eapply dfs_post_black|by apply Hblack2].
Qed.

(** The search from a callback, with fuel above the number of white
    callbacks: it finishes the callback, or it raises on a cycle that is
    there. *)
Lemma DFS_total fuel : ∀ W s g callback,
  dfs_pre children W fuel s → is_Some (s !! callback) →
  (∀ x, s !! x = Some GRAY → tc (edge children) x callback) →
  (∃ s' new, DFS set_iter fuel children (s, g) callback = Ok (s', g ++ new)
             ∧ dfs_post children s new s' ∧ s' !! callback = Some BLACK
             ∧ (s !! callback = Some WHITE → last new = Some callback))
  ∨ (DFS set_iter fuel children (s, g) callback = Raise detect_circle
     ∧ cyclic children).
Proof.
  induction fuel as [|fuel IH]; intros W s g callback Hpre [col Hcol] Hgray.
  - destruct Hpre as (_ & Hsz & _). lia.
  - cbn [DFS fst snd]. rewrite Hcol. destruct col.
    + (* WHITE *)
      set (s1 := <[callback := GRAY]> s).
      set (l := match children !! callback with Some s0 => set_iter s0 | None => [] end).
      assert (∀ c, c ∈ l ↔ edge children callback c) as Hl.
      { intros c. unfold l, edge, get_set. destruct (children !! callback); simpl.
        - apply Hiter.
        - split; [intros H; by apply elem_of_nil in H|set_solver]. }
      destruct Hpre as (Hw & Hsz & Hk).
      assert (dfs_pre children (W ∖ {[callback]}) fuel s1) as Hpre1.
      { split; [|split].
        - intros x Hx. unfold s1 in Hx. rewrite lookup_insert in Hx.
          case_decide; [done|]. apply Hw in Hx. set_solver.
        - assert (callback ∈ W) as HcW by by apply Hw.
          assert (size W = size (W ∖ {[callback]}) + 1) as Heq.
          { rewrite (union_difference_L {[callback]} W) at 1 by set_solver.
            rewrite size_union by set_solver. rewrite size_singleton. lia. }
          lia.
        - intros p c He. unfold s1. rewrite lookup_insert. case_decide; [eauto|].
          by eapply Hk. }
      destruct (dfs_children_loop fuel) with (l := l) (W := W ∖ {[callback]}) (s := s1) (g := g)
        as [(s2 & newc & Hrun & Hpost & Hblack)|[Hrun Hcyc]].
      { intros W' s' g' cb' H1 H2 H3.
        destruct (IH W' s' g' cb' H1 H2 H3) as [(s'' & new' & ? & ? & ? & _)|?];
          [left; eauto|by right]. }
      { done. }
      { intros c Hc. apply (proj1 (Hl c)) in Hc. unfold s1. rewrite lookup_insert.
        case_decide; [eauto|]. by eapply Hk. }
      { intros x c Hx Hc. apply (proj1 (Hl c)) in Hc. unfold s1 in Hx.
        rewrite lookup_insert in Hx. case_decide as Hxc.
        - subst x. by apply tc_once.
        - eapply tc_r; [by apply Hgray|done]. }
      2:{ right. by rewrite Hrun. }
      left. rewrite Hrun. cbn [mbind Result_bind fst snd].
      exists (<[callback := BLACK]> s2), (newc ++ [callback]).
      rewrite app_assoc. split; [done|].
      destruct Hpost as (Hw2 & Hb2 & Hu2 & Hd2 & Ho2).
      assert (callback ∉ newc) as Hnin.
      { intros Hin. apply Hw2 in Hin. unfold s1 in Hin. by rewrite lookup_insert_eq in Hin. }
      assert (∀ c, s1 !! c = Some BLACK → s !! c = Some BLACK) as Hb1.
      { intros c. unfold s1. rewrite lookup_insert. by case_decide. }
      split; [|split; [by rewrite lookup_insert_eq|by rewrite last_snoc]].
      repeat split.
      * intros x [Hx| ->%list_elem_of_singleton]%elem_of_app; [|done].
        apply Hw2 in Hx. unfold s1 in Hx. rewrite lookup_insert in Hx. by case_decide.
      * intros x Hx. rewrite lookup_insert. case_decide; [done|].
        apply elem_of_app in Hx as [Hx|Hx%list_elem_of_singleton]; [by apply Hb2|done].
      * intros x Hx. rewrite not_elem_of_app, list_elem_of_singleton in Hx.
        destruct Hx as [Hx1 Hx2]. rewrite lookup_insert_ne by done.
        rewrite (Hu2 _ Hx1). unfold s1. by rewrite lookup_insert_ne.
      * apply NoDup_app. split; [done|]. split; [|apply NoDup_singleton].
        intros x Hx ->%list_elem_of_singleton. done.
      * intros i x c Hi He. apply lookup_app_Some in Hi as [Hi|[Hlen Hi]].
        -- destruct (Ho2 i x c Hi He) as [?|(j & Hj & Hc)]; [left; by apply Hb1|right].
           exists j. split; [done|]. by apply lookup_app_l_Some.
        -- apply list_lookup_singleton_Some in Hi as [Hi ->].
           assert (s2 !! c = Some BLACK) as Hc by (apply Hblack; by apply Hl).
           destruct (decide (c ∈ newc)) as [Hin|Hnin'].
           ++ right. apply list_elem_of_lookup in Hin as [j Hj]. exists j.
              split; [|by apply lookup_app_l_Some]. apply lookup_lt_Some in Hj. lia.
           ++ left. apply Hb1. by rewrite <- (Hu2 _ Hnin').
    + (* GRAY *) right. split; [done|]. exists callback. by apply Hgray.
    + (* BLACK *)
      left. exists s, []. rewrite app_nil_r. split; [done|]. split; [apply dfs_post_nil|].
      split; [done|]. intros [=].
Qed.

End DFSFacts.

(** ** The topological sort *)

Section TopologySortFacts.

Context (set_iter : gset pyfunc → list pyfunc) (Hiter : set_iter_ok set_iter).
Context (children : gmap pyfunc (gset pyfunc)).

Lemma topology_sort_total fuel W : ∀ starts s groups,
  dfs_pre children W fuel s →
  (∀ x, s !! x ≠ Some GRAY) →
  (∀ c, c ∈ starts → is_Some (s !! c)) →
  let body :=
    λ (sg : gmap pyfunc TopologySearchColor * list (list pyfunc)) start_callback,
      st ← DFS set_iter fuel children (sg.1, []) start_callback;
      Ok (st.1, match st.2 with
                | [] => sg.2
                | _ => sg.2 ++ [reverse st.2]
                end) in
  (∃ s' news,
     for_each body starts (s, groups) = Ok (s', groups ++ (reverse <$> news))
     ∧ dfs_post children s (concat news) s'
     ∧ Forall (λ n, n ≠ []) news
     ∧ (∀ c, c ∈ starts → s' !! c = Some BLACK)
     ∧ (∀ c rest, starts = c :: rest → s !! c = Some WHITE →
          ∃ n news', news = n :: news' ∧ last n = Some c)
     ∧ length news ≤ length starts)
  ∨ (for_each body starts (s, groups) = Raise detect_circle ∧ cyclic children).
Proof.
  intros starts. induction starts as [|c starts IH]; intros s groups Hpre Hgray Hdom body.
  - left. exists s, []. simpl. rewrite app_nil_r. split; [done|].
    split; [apply dfs_post_nil|]. split; [done|]. split; [|done].
    intros c Hc. by apply elem_of_nil in Hc.
  - destruct (DFS_total set_iter Hiter children fuel W s [] c Hpre)
      as [(s1 & new1 & Hrun1 & Hpost1 & Hblack1 & Hlast1)|[Hrun1 Hcyc]].
    { apply Hdom. by left. }
    { intros x Hx. by destruct (Hgray x). }
    2:{ right. split; [|done]. subst body. cbn [for_each fst snd]. by rewrite Hrun1. }
    simpl in Hrun1.
    set (groups1 := match new1 with [] => groups | _ => groups ++ [reverse new1] end).
    destruct (IH s1 groups1)
      as [(s2 & news2 & Hrun2 & Hpost2 & Hne2 & Hblack2 & _ & Hlen2)|[Hrun2 Hcyc]].
    { by eapply dfs_post_pre. }
    { intros x Hx. apply (Hgray x). by eapply dfs_post_gray. }
    { intros c' Hc'. destruct Hpost1 as (_ & Hb & Hu & _).
      destruct (decide (c' ∈ new1)) as [Hin|Hnin].
      - rewrite (Hb _ Hin). eauto.
      - rewrite (Hu _ Hnin). apply Hdom. by right. }
    2:{ right. split; [|done]. subst body. cbn [for_each fst snd]. rewrite Hrun1.
        cbn [mbind Result_bind fst snd]. fold groups1. done. }
    left. exists s2, (match new1 with [] => news2 | _ => new1 :: news2 end).
    subst body. cbn [for_each fst snd]. rewrite Hrun1. cbn [mbind Result_bind fst snd].
    fold groups1. rewrite Hrun2. split; [|split; [|split; [|split; [|split]]]].
    + f_equal. f_equal. unfold groups1. destruct new1; [done|].
      by rewrite <- app_assoc.
    + destruct new1 as [|a new1];
        [|exact (dfs_post_app children s _ s1 _ s2 Hpost1 Hpost2)].
      replace s1 with s in Hpost2; [done|].
      destruct Hpost1 as (_ & _ & Hu & _). apply map_eq. intros x.
      symmetry. apply Hu. apply not_elem_of_nil.
    + destruct new1; [done|]. by constructor.
    + intros c' [->|Hc']%elem_of_cons; [by eapply dfs_post_black|by apply Hblack2].
    + intros c' rest [= <- <-] Hw. specialize (Hlast1 Hw).
      destruct new1 as [|a new1]; [done|]. eauto.
    + destruct new1; simpl; lia.
Qed.

Lemma topology_sort_loop fuel W starts s groups :
  (∀ c, ¬ tc (edge children) c c) →
  dfs_pre children W fuel s →
  (∀ x, s !! x ≠ Some GRAY) →
  (∀ c, c ∈ starts → is_Some (s !! c)) →
  ∃ s' news,
    for_each
      (λ (sg : gmap pyfunc TopologySearchColor * list (list pyfunc)) start_callback,
         st ← DFS set_iter fuel children (sg.1, []) start_callback;
         Ok (st.1, match st.2 with
                   | [] => sg.2
                   | _ => sg.2 ++ [reverse st.2]
                   end))
      starts (s, groups)
    = Ok (s', groups ++ (reverse <$> news))
    ∧ dfs_post children s (concat news) s'
    ∧ Forall (λ n, n ≠ []) news
    ∧ (∀ c, c ∈ starts → s' !! c = Some BLACK)
    ∧ (∀ c rest, starts = c :: rest → s !! c = Some WHITE →
         ∃ n news', news = n :: news' ∧ last n = Some c)
    ∧ length news ≤ length starts.
Proof.
  intros Hacyclic Hpre Hgray Hdom.
  destruct (topology_sort_total fuel W starts s groups Hpre Hgray Hdom)
    as [H|[_ [x Hx]]]; [done|]. by destruct (Hacyclic x).
Qed.

End TopologySortFacts.

(** ** The grouping loop *)

Lemma finish_index_lookup fin i x :
  NoDup fin → fin !! i = Some x → finish_index fin x = i.
Proof.
  intros Hnd Hi. unfold finish_index.
  destruct (list_find (λ y, y = x) fin) as [[j y]|] eqn:Hf.
  - apply list_find_Some in Hf as (Hj & -> & _). simpl.
    by eapply NoDup_lookup.
  - apply list_find_None in Hf. eapply Forall_lookup in Hf; [|done]. done.
Qed.

Lemma ordered_deques_reverse : ∀ news pre,
  NoDup (pre ++ concat news) →
  ordered_deques (finish_index (pre ++ concat news)) (reverse <$> news).
Proof.
  intros news. induction news as [|n news IH]; intros pre Hnd; [done|].
  cbn [fmap list_fmap ordered_deques concat].
  assert (∀ k a, n !! k = Some a →
            finish_index (pre ++ n ++ concat news) a = length pre + k) as Hn.
  { intros k a Hk. apply finish_index_lookup; [done|].
    rewrite lookup_app_r by lia. replace (length pre + k - length pre) with k by lia.
    by apply lookup_app_l_Some. }
  split; [|split].
  - intros i j a b Hi Hj Hij.
    assert (i < length n ∧ j < length n) as [Hi' Hj'].
    { apply lookup_lt_Some in Hi, Hj. rewrite length_reverse in Hi, Hj. done. }
    rewrite reverse_lookup in Hi, Hj by done.
    rewrite (Hn _ _ Hi), (Hn _ _ Hj). lia.
  - intros a b Ha Hb. rewrite elem_of_reverse in Ha.
    apply list_elem_of_lookup in Ha as [k Hk]. rewrite (Hn _ _ Hk).
    assert (b ∈ concat news) as Hb'.
    { clear -Hb. induction news as [|m news IHn]; [done|]. simpl in *.
      apply elem_of_app in Hb as [Hb|Hb]; apply elem_of_app.
      - left. by rewrite elem_of_reverse in Hb.
      - right. by apply IHn. }
    apply list_elem_of_lookup in Hb' as [j Hj].
    rewrite (finish_index_lookup _ (length pre + length n + j)); [|done|].
    + apply lookup_lt_Some in Hk. lia.
    + rewrite lookup_app_r by lia. rewrite lookup_app_r by lia.
      by replace (length pre + length n + j - length pre - length n) with j by lia.
  - specialize (IH (pre ++ n)). rewrite <- app_assoc in IH. by apply IH.
Qed.

Lemma concat_filter_nonempty (l : list (list pyfunc)) :
  concat (filter (λ g, nonempty g = true) l) = concat l.
Proof.
  induction l as [|g l IH]; [done|]. rewrite filter_cons.
  destruct g; simpl; [done|]. by rewrite IH.
Qed.

Lemma split_round_perm Ds pg sufs :
  split_round Ds pg sufs → concat Ds ≡ₚ pg ++ concat sufs.
Proof.
  induction 1 as [|popped suf Ds pg sufs _ IH]; [done|]. simpl.
  rewrite IH, <- !app_assoc. f_equiv. rewrite !app_assoc. f_equiv.
  apply Permutation_app_comm.
Qed.

Lemma split_round_sub Ds pg sufs x :
  split_round Ds pg sufs → x ∈ concat sufs → x ∈ concat Ds.
Proof.
  intros H Hx. rewrite (split_round_perm _ _ _ H). apply elem_of_app. by right.
Qed.

Lemma decreasing_suffix pos popped suf :
  decreasing pos (popped ++ suf) → decreasing pos suf.
Proof.
  intros Hd i j a b Hi Hj Hij.
  apply (Hd (length popped + i) (length popped + j)); [| |lia].
  - rewrite lookup_app_r by lia. by replace (length popped + i - length popped) with i by lia.
  - rewrite lookup_app_r by lia. by replace (length popped + j - length popped) with j by lia.
Qed.

Lemma split_round_ordered pos Ds pg sufs :
  split_round Ds pg sufs → ordered_deques pos Ds →
  ordered_deques pos (filter (λ g, nonempty g = true) sufs).
Proof.
  induction 1 as [|popped suf Ds pg sufs Hsplit IH]; [done|].
  intros (Hdec & Hcross & Hrest). rewrite filter_cons.
  destruct (decide (nonempty suf = true)); [|by apply IH].
  split; [by eapply decreasing_suffix|]. split; [|by apply IH].
  intros a b Ha Hb. apply Hcross.
  - apply elem_of_app. by right.
  - rewrite concat_filter_nonempty in Hb. by eapply split_round_sub.
Qed.

Lemma ordered_deques_max pos : ∀ Ds y rest,
  ordered_deques pos Ds → last Ds = Some (y :: rest) →
  ∀ x, x ∈ concat Ds → pos x ≤ pos y.
Proof.
  intros Ds. induction Ds as [|D Ds IH]; intros y rest Hord Hlast x Hx; [done|].
  destruct Hord as (Hdec & Hcross & Hrest). simpl in Hx.
  destruct Ds as [|D' Ds].
  - simpl in Hlast. injection Hlast as ->. simpl in Hx. rewrite app_nil_r in Hx.
    apply list_elem_of_lookup in Hx as [[|i] Hi].
    + simpl in Hi. injection Hi as ->. lia.
    + assert (pos x < pos y); [|lia]. by apply (Hdec 0 (S i) y x); [| |lia].
  - assert (last (D :: D' :: Ds) = last (D' :: Ds)) as Hl by done.
    rewrite Hl in Hlast. apply elem_of_app in Hx as [Hx|Hx].
    + assert (y ∈ concat (D' :: Ds)) as Hy.
      { apply last_Some in Hlast as [Ds' Heq]. rewrite Heq, concat_app.
        apply elem_of_app. right. simpl. left. }
      specialize (Hcross x y Hx Hy). lia.
    + by eapply IH.
Qed.

Lemma lookup_mark_white (l : list pyfunc) : ∀ (s : gmap pyfunc TopologySearchColor) x,
  foldl (λ s c, <[c := WHITE]> s) s l !! x
  = if decide (x ∈ l) then Some WHITE else s !! x.
Proof.
  induction l as [|c l IH]; intros s x; cbn [foldl].
  - by rewrite decide_False by apply not_elem_of_nil.
  - rewrite IH. destruct (decide (x ∈ l)) as [Hin|Hnin].
    + rewrite decide_True; [done|by right].
    + rewrite lookup_insert. destruct (decide (c = x)) as [->|Hne].
      * rewrite decide_True; [done|by left].
      * rewrite decide_False; [done|]. intros [->|?]%elem_of_cons; done.
Qed.

Section GroupingFacts.

Context (set_iter : gset pyfunc → list pyfunc) (Hiter : set_iter_ok set_iter).
Context (parents : gmap pyfunc (gset pyfunc)) (pos : pyfunc → nat) (fin : list pyfunc).
Context (Hnodup : NoDup fin).
Context (Hpos : ∀ p c, p ∈ get_set parents c → c ∈ fin → pos c < pos p).
Context (Hin : ∀ p c, p ∈ get_set parents c → c ∈ fin → p ∈ fin).

Lemma is_ready_spec (s : gmap pyfunc TopologySearchColor) (l : list pyfunc) :
  (∀ p, p ∈ l → is_Some (s !! p)) →
  ∃ b, is_ready s l = Ok b ∧ (b = true ↔ ∀ p, p ∈ l → s !! p ≠ Some BLACK).
Proof.
  induction l as [|p l IH]; intros Hk.
  - exists true. split; [done|]. split; [|done]. intros _ p Hp. by apply elem_of_nil in Hp.
  - simpl. destruct (Hk p) as [col Hcol]; [by left|]. rewrite Hcol.
    destruct IH as (b & Hb & Hiff); [intros q Hq; apply Hk; by right|].
    destruct col.
    + exists b. split; [done|]. rewrite Hiff. split.
      * intros H q [->|Hq]%elem_of_cons; [congruence|by apply H].
      * intros H q Hq. apply H. by right.
    + exists b. split; [done|]. rewrite Hiff. split.
      * intros H q [->|Hq]%elem_of_cons; [congruence|by apply H].
      * intros H q Hq. apply H. by right.
    + exists false. split; [done|]. split; [done|]. intros H.
      destruct (H p); [by left|done].
Qed.

Lemma pop_ready_spec (s : gmap pyfunc TopologySearchColor) (D : list pyfunc) :
  (∀ x p, x ∈ D → p ∈ get_set parents x → is_Some (s !! p)) →
  ∃ popped suf,
    pop_ready set_iter s parents D = Ok (popped, suf)
    ∧ D = popped ++ suf
    ∧ (∀ x p, x ∈ popped → p ∈ get_set parents x → s !! p ≠ Some BLACK)
    ∧ (∀ y rest, D = y :: rest →
         (∀ p, p ∈ get_set parents y → s !! p ≠ Some BLACK) → popped ≠ [])
    ∧ (∀ z rest, suf = z :: rest → ∃ p, p ∈ get_set parents z ∧ s !! p = Some BLACK).
Proof.
  induction D as [|x D IH]; intros Hk.
  - exists [], []. repeat split; try done. intros x p Hx. by apply elem_of_nil in Hx.
  - cbn [pop_ready].
    destruct (is_ready_spec s (set_iter (get_set parents x))) as (b & -> & Hb).
    { intros p Hp. apply Hiter in Hp. apply (Hk x p); [by left|done]. }
    cbn [mbind Result_bind]. destruct b.
    + destruct IH as (popped & suf & -> & -> & Hready & _ & Hblocked).
      { intros y p Hy. apply Hk. by right. }
      exists (x :: popped), suf. cbn [mbind Result_bind fst snd].
      split; [done|]. split; [done|]. split; [|split; [done|done]].
      intros y p [->|Hy]%elem_of_cons Hp; [|by eapply Hready].
      apply (proj1 Hb eq_refl). by apply Hiter.
    + exists [], (x :: D). split; [done|]. split; [done|]. split; [|split].
      * intros y p Hy. by apply elem_of_nil in Hy.
      * intros y rest [= <- <-] Hy. assert (false = true); [|done].
        apply Hb. intros p Hp. apply Hy. by apply Hiter.
      * intros z rest [= <- <-].
        destruct (decide (Exists (λ p, s !! p = Some BLACK) (set_iter (get_set parents x))))
          as [(p & Hp & Hblack)%Exists_exists|Hno].
        -- exists p. split; [by apply Hiter|done].
        -- assert (false = true); [|done]. apply Hb. intros p Hp Hblack.
           apply Hno, Exists_exists. eauto.
Qed.

Lemma scan_groups_spec (s : gmap pyfunc TopologySearchColor) (Ds : list (list pyfunc)) :
  (∀ x p, x ∈ concat Ds → p ∈ get_set parents x → is_Some (s !! p)) →
  ∃ pg sufs,
    scan_groups set_iter s parents Ds = Ok (pg, sufs)
    ∧ split_round Ds pg sufs
    ∧ (∀ x p, x ∈ pg → p ∈ get_set parents x → s !! p ≠ Some BLACK)
    ∧ (∀ y rest, last Ds = Some (y :: rest) →
         (∀ p, p ∈ get_set parents y → s !! p ≠ Some BLACK) → pg ≠ []).
Proof.
  induction Ds as [|D Ds IH]; intros Hk.
  - exists [], []. split; [done|]. split; [constructor|]. split; [|done].
    intros x p Hx. by apply elem_of_nil in Hx.
  - cbn [scan_groups].
    destruct (pop_ready_spec s D) as (popped & suf & -> & -> & Hready & Hhead & _).
    { intros x p Hx. apply Hk. simpl. apply elem_of_app. by left. }
    destruct IH as (pg & sufs & -> & Hsplit & Hready' & Hlast).
    { intros x p Hx. apply Hk. simpl. apply elem_of_app. by right. }
    cbn [mbind Result_bind fst snd]. exists (popped ++ pg), (suf :: sufs).
    split; [done|]. split; [by constructor|]. split.
    + intros x p [Hx|Hx]%elem_of_app; [by eapply Hready|by eapply Hready'].
    + intros y rest Hl Hy. destruct Ds as [|D' Ds].
      * simpl in Hl. injection Hl as Hl. specialize (Hhead y rest Hl Hy).
        destruct popped; [done|]. done.
      * assert (pg ≠ []) as Hpg by (by eapply Hlast).
        destruct popped; [done|]. done.
Qed.

Lemma grouping_round Ds s pgs :
  grouping_inv parents pos fin Ds s pgs → Ds ≠ [] →
  ∃ pg sufs,
    scan_groups set_iter s parents Ds = Ok (pg, sufs)
    ∧ split_round Ds pg sufs
    ∧ pg ≠ []
    ∧ grouping_inv parents pos fin (filter (λ g, nonempty g = true) sufs)
        (foldl (λ s c, <[c := WHITE]> s) s pg) (pgs ++ [pg]).
Proof.
  intros (Hne & Hperm & Hblack & Hwhite & Hord & Hearlier) HDs.
  assert (∀ x, x ∈ fin → x ∈ concat Ds ∨ x ∈ concat pgs) as Hfin.
  { intros x Hx. rewrite <- Hperm in Hx. by apply elem_of_app in Hx. }
  assert (∀ x, x ∈ concat Ds → x ∈ fin) as HDfin.
  { intros x Hx. rewrite <- Hperm. apply elem_of_app. by left. }
  assert (∀ x p, x ∈ concat Ds → p ∈ get_set parents x → is_Some (s !! p)) as Hk.
  { intros x p Hx Hp. destruct (Hfin p) as [H|H]; [by eapply Hin, HDfin| |].
    - rewrite (Hblack _ H). eauto.
    - rewrite (Hwhite _ H). eauto. }
  destruct (scan_groups_spec s Ds Hk) as (pg & sufs & Hscan & Hsplit & Hready & Hlast).
  exists pg, sufs. split; [done|]. split; [done|].
  assert (NoDup (concat Ds ++ concat pgs)) as Hnd by by rewrite Hperm.
  apply NoDup_app in Hnd as (HndD & Hdisj & Hndp).
  pose proof (split_round_perm _ _ _ Hsplit) as HpermD.
  assert (NoDup (pg ++ concat sufs)) as Hnd2 by by rewrite <- HpermD.
  apply NoDup_app in Hnd2 as (Hndpg & Hdisj2 & Hndsuf).
  split; [|split; [|split; [|split; [|split; [|split]]]]].
  - (* progress *)
    destruct (last Ds) as [D|] eqn:HlastD; [|by apply last_None in HlastD].
    assert (D ∈ Ds) as HD.
    { apply last_Some in HlastD as [Ds' ->]. apply elem_of_app. right. left. }
    destruct D as [|y rest]; [exfalso; by apply (proj1 (Forall_forall _ _) Hne _ HD)|].
    apply (Hlast y rest eq_refl). intros p Hp Hpb.
    assert (y ∈ concat Ds) as Hy.
    { apply list_elem_of_In, in_concat. exists (y :: rest).
      split; apply list_elem_of_In; [done|left]. }
    assert (pos y < pos p) as Hlt by (apply Hpos; [done|by apply HDfin]).
    destruct (Hfin p) as [H|H]; [by eapply Hin, HDfin| |].
    + pose proof (ordered_deques_max pos Ds y rest Hord HlastD p H). lia.
    + rewrite (Hwhite _ H) in Hpb. done.
  - apply Forall_forall. intros D HD. apply list_elem_of_filter in HD as [HD _].
    by destruct D.
  - rewrite concat_filter_nonempty, concat_app. simpl. rewrite app_nil_r.
    rewrite <- Hperm, HpermD, <- !app_assoc.
    rewrite (Permutation_app_comm (concat pgs) pg).
    rewrite !app_assoc. f_equiv. apply Permutation_app_comm.
  - intros x Hx. rewrite concat_filter_nonempty in Hx. rewrite lookup_mark_white.
    rewrite decide_False; [|intros Hpg; by apply (Hdisj2 x)].
    apply Hblack. by eapply split_round_sub.
  - intros x Hx. rewrite concat_app in Hx. simpl in Hx. rewrite app_nil_r in Hx.
    rewrite lookup_mark_white. destruct (decide (x ∈ pg)); [done|].
    apply elem_of_app in Hx as [Hx|Hx]; [by apply Hwhite|done].
  - by eapply split_round_ordered.
  - intros i g x p Hi Hx Hp. apply lookup_app_Some in Hi as [Hi|[Hlen Hi]].
    + destruct (Hearlier i g x p Hi Hx Hp) as (j & g' & Hj & Hg' & Hpg').
      exists j, g'. split; [done|]. split; [by apply lookup_app_l_Some|done].
    + apply list_lookup_singleton_Some in Hi as [Hi <-].
      assert (x ∈ concat Ds) as HxD.
      { rewrite HpermD. apply elem_of_app. by left. }
      destruct (Hfin p) as [H|H]; [by eapply Hin, HDfin| |].
      * destruct (Hready x p Hx Hp). by apply Hblack.
      * apply list_elem_of_In, in_concat in H as (g' & Hg' & Hpg').
        apply list_elem_of_In, list_elem_of_lookup in Hg' as [j Hj].
        exists j, g'. split; [apply lookup_lt_Some in Hj; lia|].
        split; [by apply lookup_app_l_Some|by apply list_elem_of_In].
Qed.

Lemma grouping_spec fuel : ∀ Ds s pgs,
  length (concat Ds) < fuel →
  grouping_inv parents pos fin Ds s pgs →
  ∃ s' more,
    grouping set_iter fuel s parents Ds pgs = Ok (pgs ++ more)
    ∧ grouping_inv parents pos fin [] s' (pgs ++ more)
    ∧ (Ds ≠ [] → ∃ pg sufs more',
         scan_groups set_iter s parents Ds = Ok (pg, sufs) ∧ more = pg :: more')
    ∧ Forall (λ pg, pg ≠ []) more.
Proof.
  induction fuel as [|fuel IH]; intros Ds s pgs Hlen Hinv; [lia|].
  destruct Ds as [|D Ds].
  - exists s, []. rewrite app_nil_r. split; [done|]. split; [done|].
    split; [done|constructor].
  - destruct (grouping_round (D :: Ds) s pgs Hinv) as (pg & sufs & Hscan & Hsplit & Hpg & Hinv');
      [done|].
    cbn [grouping]. rewrite Hscan. cbn [mbind Result_bind fst snd].
    assert (length (concat (filter (λ g, nonempty g = true) sufs)) < fuel) as Hlen'.
    { rewrite concat_filter_nonempty.
      pose proof (split_round_perm _ _ _ Hsplit) as Hp.
      apply Permutation_length in Hp. rewrite length_app in Hp.
      destruct pg; [done|]. simpl in Hp. simpl in Hlen. lia. }
    destruct (IH _ _ _ Hlen' Hinv') as (s' & more & Hrun & Hfinal & _ & Hmore).
    exists s', (pg :: more). rewrite Hrun.
    replace (pgs ++ pg :: more) with ((pgs ++ [pg]) ++ more) by by rewrite <- app_assoc.
    split; [done|]. split; [done|]. split; [|by constructor].
    intros _. by exists pg, sufs, more.
Qed.

End GroupingFacts.

(** ** The first loop of the scheduler *)

Lemma for_each_invariant {A S : Type} (I : list A → S → Prop)
    (body : S → A → Result S) (l : list A) (s0 : S) :
  I [] s0 →
  (∀ l1 x l2 s, l = l1 ++ x :: l2 → I l1 s → ∃ s', body s x = Ok s' ∧ I (l1 ++ [x]) s') →
  ∃ s, for_each body l s0 = Ok s ∧ I l s.
Proof.
  intros H0 Hstep.
  assert (∀ l2 l1 s, l = l1 ++ l2 → I l1 s → ∃ s', for_each body l2 s = Ok s' ∧ I l s') as H.
  { intros l2. induction l2 as [|x l2 IH]; intros l1 s Heq Hs.
    - rewrite app_nil_r in Heq. subst. by exists s.
    - destruct (Hstep l1 x l2 s Heq Hs) as (s' & Hb & Hs').
      destruct (IH (l1 ++ [x]) s') as (s'' & Hrun & Hs''); [by rewrite <- app_assoc|done|].
      exists s''. simpl. rewrite Hb. done. }
  by apply (H l [] s0).
Qed.

Lemma get_set_add_to d k x k' y :
  y ∈ get_set (add_to d k x) k' ↔ y ∈ get_set d k' ∨ (k = k' ∧ y = x).
Proof.
  unfold add_to, get_set. rewrite lookup_insert. case_decide as Hk; simpl.
  - subst. rewrite elem_of_union, elem_of_singleton. naive_solver.
  - naive_solver.
Qed.

Lemma get_set_foldl_children (l : list pyfunc) callback : ∀ d p c,
  c ∈ get_set (foldl (λ ch p, add_to ch p callback) d l) p
  ↔ c ∈ get_set d p ∨ (p ∈ l ∧ c = callback).
Proof.
  induction l as [|q l IH]; intros d p c; simpl.
  - split; [by left|]. intros [?|[H _]]; [done|by apply elem_of_nil in H].
  - rewrite IH, get_set_add_to, elem_of_cons. naive_solver.
Qed.

Lemma get_set_foldl_parents (l : list pyfunc) root : ∀ d p c,
  p ∈ get_set (foldl (λ pa child, add_to pa child root) d l) c
  ↔ p ∈ get_set d c ∨ (c ∈ l ∧ p = root).
Proof.
  induction l as [|q l IH]; intros d p c; simpl.
  - split; [by left|]. intros [?|[H _]]; [done|by apply elem_of_nil in H].
  - rewrite IH, get_set_add_to, elem_of_cons. naive_solver.
Qed.

Lemma get_set_foldl_root (l : list pyfunc) root : ∀ d p c,
  c ∈ get_set (foldl (λ ch child, add_to ch root child) d l) p
  ↔ c ∈ get_set d p ∨ (p = root ∧ c ∈ l).
Proof.
  induction l as [|q l IH]; intros d p c; simpl.
  - split; [by left|]. intros [?|[_ H]]; [done|by apply elem_of_nil in H].
  - rewrite IH, get_set_add_to, elem_of_cons. naive_solver.
Qed.

Lemma parent_of_snoc l c o p c' :
  parent_of (l ++ [(c, o)]) p c'
  ↔ parent_of l p c' ∨ (c' = c ∧ is_node o ∧ p ∈ declared_parents o).
Proof.
  unfold parent_of. split.
  - intros (o' & [Hin|Hin]%elem_of_app & Hn & Hp); [left; eauto|].
    apply list_elem_of_singleton in Hin as [= -> ->]. by right.
  - intros [(o' & Hin & Hn & Hp)|(-> & Hn & Hp)].
    + exists o'. split; [apply elem_of_app; by left|done].
    + exists o. split; [apply elem_of_app; right; by apply list_elem_of_singleton|done].
Qed.

Lemma elem_of_snoc_entry (l : list (pyfunc * Options)) c o c' o' :
  (c', o') ∈ l ++ [(c, o)] ↔ (c', o') ∈ l ∨ (c' = c ∧ o' = o).
Proof. rewrite elem_of_app, list_elem_of_singleton. naive_solver. Qed.

Section FirstPass.

Context (set_iter : gset pyfunc → list pyfunc) (Hiter : set_iter_ok set_iter).
Context (inp : list (pyfunc * Options)) (Hvalid : valid_constraints inp).

Lemma register_step l1 c o l2 g :
  inp = l1 ++ (c, o) :: l2 → first_pass l1 g →
  ∃ g', register set_iter g (c, o) = Ok g' ∧ first_pass (l1 ++ [(c, o)]) g'.
Proof.
  intros Heq (Hroot & Hlast & Hs1 & Hs2 & Hpar & Hch & Hst).
  assert ((c, o) ∈ inp) as Hin by (rewrite Heq; apply elem_of_app; right; left).
  assert (∀ c' o', (c', o') ∈ l1 → (c', o') ∈ inp) as Hsub.
  { intros c' o' H. rewrite Heq. apply elem_of_app. by left. }
  assert (∀ o', (c, o') ∉ l1) as Hfresh.
  { intros o' H. pose proof (vc_nodup inp Hvalid) as Hnd. rewrite Heq in Hnd.
    rewrite fmap_app in Hnd. apply NoDup_app in Hnd as (_ & Hd & _).
    apply (Hd c); [|left]. apply list_elem_of_fmap. by exists (c, o'). }
  pose proof (vc_options inp Hvalid c o Hin) as Hwf. unfold well_formed_options in Hwf.
  unfold register. destruct (before_all o) eqn:Hb, (after_all o) eqn:Ha; [done| | |].
  - (* first *)
    rewrite Hwf. simpl. destruct (g_root g) as [r|] eqn:Hr.
    { destruct (proj1 (Hroot r) eq_refl) as (o' & Hin' & Hb').
      rewrite (vc_one_first inp Hvalid r o' c o) in Hin' by eauto. by destruct (Hfresh o'). }
    eexists. split; [done|]. unfold first_pass; simpl.
    split; [|split; [|split; [|split; [|split; [|split]]]]].
    + intros r. split.
      * intros [= <-]. exists o. split; [|done]. apply elem_of_snoc_entry. by right.
      * intros (o' & [Hin'|[-> ->]]%elem_of_snoc_entry & Hb'); [|done].
        assert (None = Some r) as Hr' by (apply Hroot; eauto). congruence.
    + intros r. rewrite Hlast. split.
      * intros (o' & ? & ?). exists o'. split; [apply elem_of_snoc_entry; by left|done].
      * intros (o' & [Hin'|[-> ->]]%elem_of_snoc_entry & Ha'); [eauto|congruence].
    + intros c' o' [Hin'|[-> ->]]%elem_of_snoc_entry Ha'.
      * rewrite lookup_insert. case_decide; [done|]. by eapply Hs1.
      * by rewrite lookup_insert_eq.
    + intros c' col. rewrite lookup_insert. case_decide as Hc.
      * intros [= <-]. split; [done|]. subst c'. exists o.
        split; [apply elem_of_snoc_entry; by right|done].
      * intros H. apply Hs2 in H as [-> (o' & ? & ?)]. split; [done|].
        exists o'. split; [apply elem_of_snoc_entry; by left|done].
    + intros p c'. rewrite Hpar, parent_of_snoc. unfold is_node. split; [by left|].
      intros [?|(_ & [? _] & _)]; [done|congruence].
    + intros p c'. rewrite Hch, parent_of_snoc. unfold is_node. split; [by left|].
      intros [?|(_ & [? _] & _)]; [done|congruence].
    + intros c'. rewrite Hst. split.
      * intros (o' & ? & ?). exists o'. split; [apply elem_of_snoc_entry; by left|done].
      * intros (o' & [Hin'|[-> ->]]%elem_of_snoc_entry & Hn & Hr'); [eauto|].
        destruct Hn. congruence.
  - (* last *)
    destruct (g_last g) as [r|] eqn:Hr.
    { destruct (proj1 (Hlast r) eq_refl) as (o' & Hin' & Ha').
      rewrite (vc_one_last inp Hvalid r o' c o) in Hin' by eauto. by destruct (Hfresh o'). }
    eexists. split; [done|]. unfold first_pass; simpl.
    split; [|split; [|split; [|split; [|split; [|split]]]]].
    + intros r. rewrite Hroot. split.
      * intros (o' & ? & ?). exists o'. split; [apply elem_of_snoc_entry; by left|done].
      * intros (o' & [Hin'|[-> ->]]%elem_of_snoc_entry & Hb'); [eauto|congruence].
    + intros r. split.
      * intros [= <-]. exists o. split; [|done]. apply elem_of_snoc_entry. by right.
      * intros (o' & [Hin'|[-> ->]]%elem_of_snoc_entry & Ha'); [|done].
        assert (None = Some r) as Hr' by (apply Hlast; eauto). congruence.
    + intros c' o' [Hin'|[-> ->]]%elem_of_snoc_entry Ha'; [by eapply Hs1|congruence].
    + intros c' col H. apply Hs2 in H as [-> (o' & ? & ?)]. split; [done|].
      exists o'. split; [apply elem_of_snoc_entry; by left|done].
    + intros p c'. rewrite Hpar, parent_of_snoc. unfold is_node. split; [by left|].
      intros [?|(_ & [_ ?] & _)]; [done|congruence].
    + intros p c'. rewrite Hch, parent_of_snoc. unfold is_node. split; [by left|].
      intros [?|(_ & [_ ?] & _)]; [done|congruence].
    + intros c'. rewrite Hst. split.
      * intros (o' & ? & ?). exists o'. split; [apply elem_of_snoc_entry; by left|done].
      * intros (o' & [Hin'|[-> ->]]%elem_of_snoc_entry & Hn & Hr'); [eauto|].
        destruct Hn. congruence.
  - (* a graph callback *)
    assert (is_node o) as Hnode by done.
    assert (∀ g1,
      g_root g1 = g_root g → g_last g1 = g_last g → g_searched g1 = g_searched g →
      (∀ p c', p ∈ get_set (g_parents g1) c' ↔
                 parent_of l1 p c' ∨ (c' = c ∧ p ∈ declared_parents o)) →
      (∀ p c', c' ∈ get_set (g_children g1) p ↔
                 parent_of l1 p c' ∨ (c' = c ∧ p ∈ declared_parents o)) →
      (∀ c', c' ∈ g_search_starts g1 ↔
               c' ∈ g_search_starts g ∨ (c' = c ∧ run_after o = RunAfterNone)) →
      first_pass (l1 ++ [(c, o)]) (mark_white g1 c)) as Hfinish.
    { intros g1 E1 E2 E3 Hp1 Hc1 Hst1. unfold first_pass, mark_white; simpl.
      rewrite E1, E2, E3. split; [|split; [|split; [|split; [|split; [|split]]]]].
      + intros r. rewrite Hroot. split.
        * intros (o' & ? & ?). exists o'. split; [apply elem_of_snoc_entry; by left|done].
        * intros (o' & [Hin'|[-> ->]]%elem_of_snoc_entry & Hb'); [eauto|congruence].
      + intros r. rewrite Hlast. split.
        * intros (o' & ? & ?). exists o'. split; [apply elem_of_snoc_entry; by left|done].
        * intros (o' & [Hin'|[-> ->]]%elem_of_snoc_entry & Ha'); [eauto|congruence].
      + intros c' o' [Hin'|[-> ->]]%elem_of_snoc_entry Ha'.
        * rewrite lookup_insert. case_decide; [done|]. by eapply Hs1.
        * by rewrite lookup_insert_eq.
      + intros c' col. rewrite lookup_insert. case_decide as Hc.
        * intros [= <-]. split; [done|]. subst c'. exists o.
          split; [apply elem_of_snoc_entry; by right|done].
        * intros H. apply Hs2 in H as [-> (o' & ? & ?)]. split; [done|].
          exists o'. split; [apply elem_of_snoc_entry; by left|done].
      + intros p c'. rewrite Hp1, parent_of_snoc. naive_solver.
      + intros p c'. rewrite Hc1, parent_of_snoc. naive_solver.
      + intros c'. rewrite Hst1, Hst. split.
        * intros [(o' & ? & ?)|[-> Hr]].
          -- exists o'. split; [apply elem_of_snoc_entry; by left|done].
          -- exists o. split; [apply elem_of_snoc_entry; by right|done].
        * intros (o' & [Hin'|[-> ->]]%elem_of_snoc_entry & Hn & Hr); [left; eauto|by right]. }
    unfold declared_parents in Hfinish.
    destruct (run_after o) as [|parent|parents|] eqn:Hra; [| | |done];
      cbn [mbind Result_bind]; (eexists; split; [done|]); apply Hfinish; simpl; try done.
    + intros p c'. rewrite Hpar. split; [by left|]. intros [?|[_ H]]; [done|].
      by apply elem_of_nil in H.
    + intros p c'. rewrite Hch. split; [by left|]. intros [?|[_ H]]; [done|].
      by apply elem_of_nil in H.
    + intros c'. rewrite elem_of_app, list_elem_of_singleton. naive_solver.
    + intros p c'. rewrite get_set_add_to, Hpar, list_elem_of_singleton. naive_solver.
    + intros p c'. rewrite get_set_add_to, Hch, list_elem_of_singleton. naive_solver.
    + intros c'. naive_solver.
    + intros p c'. unfold get_set at 1. rewrite lookup_insert. case_decide as Hc; simpl.
      * subst c'. rewrite elem_of_union, elem_of_list_to_set, Hpar. naive_solver.
      * fold (get_set (g_parents g) c'). rewrite Hpar. naive_solver.
    + intros p c'. rewrite get_set_foldl_children, Hch.
      rewrite (Hiter _ p), elem_of_union, elem_of_list_to_set, Hpar. naive_solver.
    + intros c'. naive_solver.
Qed.

End FirstPass.

(** ** A finite graph without cycle is well founded *)

Lemma acyclic_Acc_aux (R : relation pyfunc) (V : gset pyfunc) :
  (∀ p c, R p c → p ∈ V) → (∀ c, ¬ tc R c c) →
  ∀ n (S : gset pyfunc) c,
    S ⊆ V → size (V ∖ S) ≤ n → (∀ s, s ∈ S → rtc R c s) → Acc R c.
Proof.
  intros HV Hacyclic n. induction n as [|n IH]; intros S c HS Hsz Hreach;
    constructor; intros p Hp.
  - assert (p ∈ V ∖ S) as Hin.
    { apply elem_of_difference. split; [by eapply HV|]. intros HpS.
      apply (Hacyclic p). eapply tc_rtc_r; [by apply tc_once|by apply Hreach]. }
    apply size_empty_iff in Hin; [done|]. apply Nat.le_0_r in Hsz. done.
  - assert (p ∈ V) as HpV by by eapply HV.
    assert (p ∉ S) as HpS.
    { intros HpS. apply (Hacyclic p). eapply tc_rtc_r; [by apply tc_once|by apply Hreach]. }
    apply (IH (S ∪ {[p]})).
    + set_solver.
    + assert (V ∖ S = {[p]} ∪ V ∖ (S ∪ {[p]})) as Heq.
      { apply set_eq. intros x. rewrite elem_of_union, !elem_of_difference,
          elem_of_union, elem_of_singleton.
        destruct (decide (x = p)) as [->|]; naive_solver. }
      rewrite Heq, size_union, size_singleton in Hsz by set_solver. lia.
    + intros s [Hs| ->%elem_of_singleton]%elem_of_union; [|done].
      eapply rtc_l; [done|by apply Hreach].
Qed.

Lemma acyclic_Acc (R : relation pyfunc) (V : gset pyfunc) :
  (∀ p c, R p c → p ∈ V) → (∀ c, ¬ tc R c c) → ∀ c, Acc R c.
Proof.
  intros HV Hacyclic c. apply (acyclic_Acc_aux R V HV Hacyclic (size V) ∅ c).
  - set_solver.
  - apply subseteq_size. set_solver.
  - intros s Hs. set_solver.
Qed.

(** ** The dependency graph of a well-formed constraint set *)

Section ConstraintGraph.

Context (inp : list (pyfunc * Options)) (Hvalid : valid_constraints inp).

Lemma entry_unique c o1 o2 : (c, o1) ∈ inp → (c, o2) ∈ inp → o1 = o2.
Proof.
  intros H1 H2. pose proof (vc_nodup inp Hvalid) as Hnd.
  apply list_elem_of_lookup in H1 as [i Hi], H2 as [j Hj].
  assert (i = j) as ->.
  { eapply NoDup_lookup; [done| |]; rewrite list_lookup_fmap.
    - by rewrite Hi.
    - by rewrite Hj. }
  congruence.
Qed.

Lemma bound_child_is_node p c : bound inp p c → ∃ o, (c, o) ∈ inp ∧ is_node o.
Proof. intros [(o & ? & ? & ?)|[_ (o & ? & ? & ?)]]; eauto. Qed.

Lemma bound_not_into_first p r o : bound inp p r → (r, o) ∈ inp → before_all o = false.
Proof.
  intros (o' & Hin & [Hb _])%bound_child_is_node Hr.
  by rewrite (entry_unique r o o').
Qed.

Lemma bound_parent_scheduled p c :
  bound inp p c → ∃ o, (p, o) ∈ inp ∧ after_all o = false.
Proof.
  intros [H|[(o & Hin & Hb) _]]; [by apply (vc_parents inp Hvalid p c)|].
  exists o. split; [done|].
  pose proof (vc_options inp Hvalid p o Hin) as Hwf. unfold well_formed_options in Hwf.
  rewrite Hb in Hwf. by destruct (after_all o).
Qed.

Lemma tc_bound_parent_of x y :
  tc (bound inp) x y →
  tc (parent_of inp) x y ∨ ∃ o, (x, o) ∈ inp ∧ before_all o = true.
Proof.
  induction 1 as [x y Hxy|x y z Hxy Hyz IH].
  - destruct Hxy as [H|[H _]]; [left; by apply tc_once|by right].
  - destruct IH as [IH|(o & Hin & Hb)].
    + destruct Hxy as [H|[H _]]; [left; by eapply tc_l|by right].
    + rewrite (bound_not_into_first x y o Hxy Hin) in Hb. done.
Qed.

Lemma bound_acyclic :
  (∀ c, ¬ tc (parent_of inp) c c) → ∀ c, ¬ tc (bound inp) c c.
Proof.
  intros Hacyclic c Hc. destruct (tc_bound_parent_of c c Hc) as [H|(o & Hin & Hb)].
  - by apply (Hacyclic c).
  - assert (∃ p, bound inp p c) as [p Hp].
    { clear -Hc. revert Hc. apply (tc_ind_r (λ z, ∃ p, bound inp p z)); eauto. }
    rewrite (bound_not_into_first p c o Hp Hin) in Hb. done.
Qed.

End ConstraintGraph.

(** ** The schedule of a well-formed constraint set *)

Lemma tc_impl {A : Type} (R R' : relation A) x y :
  (∀ a b, R a b → R' a b) → tc R x y → tc R' x y.
Proof.
  intros H. induction 1 as [x y Hxy|x y z Hxy _ IH].
  - apply tc_once. by apply H.
  - eapply tc_l; [by apply H|done].
Qed.

Lemma concat_reverse_perm (news : list (list pyfunc)) :
  concat (reverse <$> news) ≡ₚ concat news.
Proof.
  induction news as [|n news IH]; [done|]. simpl. by rewrite IH, reverse_Permutation.
Qed.

Section ScheduleSoundness.

Context (set_iter : gset pyfunc → list pyfunc) (Hiter : set_iter_ok set_iter).
Context (inp : list (pyfunc * Options)) (Hvalid : valid_constraints inp).
Context (Hacyclic : ∀ c, ¬ tc (parent_of inp) c c).

Lemma first_pass_empty : first_pass [] empty_graph.
Proof.
  unfold first_pass, empty_graph, parent_of, get_set; simpl.
  repeat split; try done; try (intros (o & H & _); by apply elem_of_nil in H);
    try (intros H; by apply elem_of_nil in H).
  intros c o H. by apply elem_of_nil in H.
Qed.

Lemma first_pass_run :
  ∃ g, for_each (register set_iter) inp empty_graph = Ok g ∧ first_pass inp g.
Proof.
  apply (for_each_invariant first_pass); [apply first_pass_empty|].
  intros l1 [c o] l2 g Heq Hg. by eapply register_step.
Qed.

Lemma bind_root_spec g :
  first_pass inp g →
  g_last (bind_root g) = g_last g
  ∧ g_searched (bind_root g) = g_searched g
  ∧ (∀ p c, c ∈ get_set (g_children (bind_root g)) p ↔ bound inp p c)
  ∧ (∀ p c, p ∈ get_set (g_parents (bind_root g)) c ↔ bound inp p c)
  ∧ match g_root g with
    | Some r => g_search_starts (bind_root g) = [r]
    | None => g_search_starts (bind_root g) = g_search_starts g
              ∧ ∀ r o, (r, o) ∈ inp → before_all o = false
    end.
Proof.
  intros (Hroot & Hlast & Hs1 & Hs2 & Hpar & Hch & Hst). unfold bind_root, bound.
  destruct (g_root g) as [r|] eqn:Hr; simpl.
  - assert (∀ p, (∃ o, (p, o) ∈ inp ∧ before_all o = true) ↔ p = r) as Hfirst.
    { intros p. rewrite <- Hroot. naive_solver. }
    split; [done|]. split; [done|]. split; [|split; [|done]].
    + intros p c. rewrite get_set_foldl_root, Hch, Hfirst, Hst. naive_solver.
    + intros p c. rewrite get_set_foldl_parents, Hpar, Hfirst, Hst. naive_solver.
  - assert (∀ p, ¬ ∃ o, (p, o) ∈ inp ∧ before_all o = true) as Hfirst.
    { intros p H. apply Hroot in H. done. }
    split; [done|]. split; [done|]. split; [|split; [|split; [done|]]].
    + intros p c. rewrite Hch. naive_solver.
    + intros p c. rewrite Hpar. naive_solver.
    + intros r o Hin. destruct (before_all o) eqn:Hb; [|done]. destruct (Hfirst r). eauto.
Qed.

Lemma search_setup g :
  first_pass inp g →
  (∀ p c, edge (g_children (bind_root g)) p c ↔ bound inp p c)
  ∧ (∀ c, scheduled inp c ↔ g_searched (bind_root g) !! c = Some WHITE)
  ∧ (∀ c col, g_searched (bind_root g) !! c = Some col → col = WHITE)
  ∧ dfs_pre (g_children (bind_root g)) (dom (g_searched (bind_root g)))
      (S (size (g_searched (bind_root g)))) (g_searched (bind_root g))
  ∧ (∀ c, c ∈ g_search_starts (bind_root g) →
       is_Some (g_searched (bind_root g) !! c)).
Proof.
  intros Hfp.
  destruct (bind_root_spec g Hfp) as (Hlast2 & Hs2 & Hch2 & Hpar2 & Hstarts2).
  destruct Hfp as (Hroot & Hlast & Hs1 & Hs1' & _ & _ & Hst).
  set (g2 := bind_root g) in *.
  set (s0 := g_searched g2) in *.
  assert (∀ p c, edge (g_children g2) p c ↔ bound inp p c) as Hedge by apply Hch2.
  assert (∀ c, scheduled inp c ↔ s0 !! c = Some WHITE) as Hsched.
  { intros c. rewrite Hs2. split.
    - intros (o & Hin & Ha). by eapply Hs1.
    - intros H. by apply Hs1' in H as [_ H]. }
  assert (∀ c col, s0 !! c = Some col → col = WHITE) as Hwhite0.
  { intros c col H. rewrite Hs2 in H. by apply Hs1' in H as [-> _]. }
  split; [done|]. split; [done|]. split; [done|]. split.
  - split; [|split].
    + intros x Hx. apply elem_of_dom. eauto.
    + rewrite size_dom. lia.
    + intros p c He. apply Hedge, bound_child_is_node in He as (o & Hin & [_ Ha]).
      assert (scheduled inp c) as Hc by (by exists o). apply Hsched in Hc. eauto.
  - intros c Hc. destruct (g_root g) as [r|] eqn:Hr.
    + rewrite Hstarts2 in Hc. apply list_elem_of_singleton in Hc as ->.
      destruct (proj1 (Hroot r) eq_refl) as (o & Hin & Hb).
      pose proof (vc_options inp Hvalid r o Hin) as Hwf. unfold well_formed_options in Hwf.
      rewrite Hb in Hwf. destruct (after_all o) eqn:Ha; [done|].
      assert (scheduled inp r) as H by (by exists o). apply Hsched in H. eauto.
    + destruct Hstarts2 as [Heq _]. rewrite Heq in Hc.
      apply Hst in Hc as (o & Hin & [_ Ha] & _).
      assert (scheduled inp c) as H by (by exists o). apply Hsched in H. eauto.
Qed.

Lemma schedule_sound :
  ∃ groups,
    parallel_groups_of_callbacks set_iter inp = Ok groups
    ∧ NoDup (concat groups)
    ∧ (∀ c, c ∈ concat groups ↔ c ∈ inp.*1)
    ∧ (∀ i g c p, groups !! i = Some g → c ∈ g → parent_of inp p c →
         ∃ j g', j < i ∧ groups !! j = Some g' ∧ p ∈ g')
    ∧ (∀ r o, (r, o) ∈ inp → before_all o = true → groups !! 0 = Some [r])
    ∧ (∀ l o, (l, o) ∈ inp → after_all o = true → last groups = Some [l])
    ∧ Forall (λ g, g ≠ []) groups.
Proof.
  destruct first_pass_run as (g & Hrun & Hfp).
  destruct (bind_root_spec g Hfp) as (Hlast2 & Hs2 & Hch2 & Hpar2 & Hstarts2).
  destruct Hfp as (Hroot & Hlast & Hs1 & Hs1' & Hp0 & Hc0 & Hst).
  unfold parallel_groups_of_callbacks. rewrite Hrun. cbn [mbind Result_bind].
  set (g2 := bind_root g) in *.
  set (s0 := g_searched g2) in *.
  destruct (search_setup g (conj Hroot (conj Hlast (conj Hs1 (conj Hs1' (conj Hp0 (conj Hc0 Hst)))))))
    as (Hedge & Hsched & Hwhite0 & Hpre & Hstartdom).
  fold g2 s0 in Hedge, Hsched, Hwhite0, Hpre, Hstartdom.
  assert (∀ c, ¬ tc (edge (g_children g2)) c c) as Hacyc2.
  { intros c Hc. apply (bound_acyclic inp Hvalid Hacyclic c).
    eapply tc_impl; [|done]. intros a b. apply Hedge. }
  destruct (topology_sort_loop set_iter Hiter (g_children g2) (S (size s0)) (dom s0)
              (g_search_starts g2) s0 [] Hacyc2 Hpre)
    as (sf & news & Hsort & Hpost & Hnews & Hblack & Hfirstgroup & Hlen); [|done|].
  { intros x Hx. apply Hwhite0 in Hx. done. }
  unfold topology_sort. rewrite Hsort. cbn [mbind Result_bind fst snd app].
  set (fin := concat news) in *.
  destruct Hpost as (Hfw & Hfb & Hfu & Hfnd & Hford).
  (* every scheduled inp callback is reached *)
  assert (∀ c, scheduled inp c → c ∈ fin) as Hcover.
  { assert (∀ c, Acc (bound inp) c) as Hacc.
    { apply (acyclic_Acc (bound inp) (list_to_set inp.*1)).
      - intros p c Hp. destruct (bound_parent_scheduled inp Hvalid p c Hp) as (o & Hin & _).
        apply elem_of_list_to_set, list_elem_of_fmap. by exists (p, o).
      - by apply bound_acyclic. }
    intros c. induction (Hacc c) as [c _ IH]. intros (o & Hin & Ha).
    assert (∀ p, bound inp p c → c ∈ fin) as Hparent_case.
    { intros p Hp. destruct (bound_parent_scheduled inp Hvalid p c Hp) as (op & Hinp & Hap).
      assert (p ∈ fin) as Hpf by (apply (IH p Hp); by exists op).
      apply list_elem_of_lookup in Hpf as [i Hi].
      destruct (Hford i p c Hi) as [Hb|(j & _ & Hj)]; [by apply Hedge| |].
      - apply Hwhite0 in Hb. done.
      - by eapply list_elem_of_lookup_2. }
    assert (c ∈ g_search_starts g2 → c ∈ fin) as Hstart_case.
    { intros Hc. destruct (decide (c ∈ fin)) as [|Hn]; [done|]. exfalso.
      pose proof (Hblack c Hc) as Hb. rewrite (Hfu c Hn) in Hb. apply Hwhite0 in Hb. done. }
    pose proof (vc_options inp Hvalid c o Hin) as Hwf. unfold well_formed_options in Hwf.
    rewrite Ha in Hwf. destruct (before_all o) eqn:Hb.
    - apply Hstart_case. assert (g_root g = Some c) as Hr by (apply Hroot; eauto).
      rewrite Hr in Hstarts2. rewrite Hstarts2. left.
    - destruct (run_after o) as [|parent|[|p0 ps]|] eqn:Hra; try done.
      + destruct (g_root g) as [r|] eqn:Hr.
        * apply (Hparent_case r). right. split; [by apply (proj1 (Hroot r) eq_refl)|].
          by exists o.
        * apply Hstart_case. destruct Hstarts2 as [-> _]. apply Hst. by exists o.
      + apply (Hparent_case parent). left. exists o. split; [done|]. split; [done|].
        unfold declared_parents. rewrite Hra. left.
      + apply (Hparent_case p0). left. exists o. split; [done|]. split; [done|].
        unfold declared_parents. rewrite Hra. left. }
  assert (∀ c, c ∈ fin → scheduled inp c) as Hfin_sched.
  { intros c Hc. by apply Hsched, Hfw. }
  (* the grouping loop *)
  set (pos := finish_index fin).
  assert (∀ p c, p ∈ get_set (g_parents g2) c → c ∈ fin → p ∈ fin) as Hin'.
  { intros p c Hp _. apply Hpar2 in Hp.
    destruct (bound_parent_scheduled inp Hvalid p c Hp) as (op & Hinp & Hap).
    apply Hcover. by exists op. }
  assert (∀ p c, p ∈ get_set (g_parents g2) c → c ∈ fin → pos c < pos p) as Hpos.
  { intros p c Hp Hc. pose proof (Hin' p c Hp Hc) as Hpf. apply Hpar2 in Hp.
    apply list_elem_of_lookup in Hpf as [i Hi].
    destruct (Hford i p c Hi) as [Hb|(j & Hji & Hj)]; [by apply Hedge| |].
    - apply Hwhite0 in Hb. done.
    - unfold pos. rewrite (finish_index_lookup fin i p), (finish_index_lookup fin j c); done. }
  assert (grouping_inv (g_parents g2) pos fin (reverse <$> news) sf []) as Hinv0.
  { split; [|split; [|split; [|split; [|split]]]].
    - apply Forall_fmap. eapply Forall_impl; [done|]. intros n Hn. simpl.
      intros Hr. apply Hn. by rewrite <- (reverse_involutive n), Hr.
    - simpl. rewrite app_nil_r. apply concat_reverse_perm.
    - intros x Hx. apply Hfb. unfold fin. by rewrite <- (concat_reverse_perm news).
    - intros x Hx. by apply elem_of_nil in Hx.
    - apply (ordered_deques_reverse news []). done.
    - intros i pg x p Hi. by rewrite lookup_nil in Hi. }
  destruct (grouping_spec set_iter Hiter (g_parents g2) pos fin Hfnd Hpos Hin'
              (S (length (concat (reverse <$> news)))) (reverse <$> news) sf []
              (Nat.lt_succ_diag_r _) Hinv0)
    as (s' & pgs & Hgrp & Hinvf & Hfirst & Hnonempty).
  rewrite Hgrp. cbn [mbind Result_bind app].
  destruct Hinvf as (_ & Hperm & _ & _ & _ & Hearlier). simpl in Hperm.
  rewrite Hlast2.
  assert (∀ l, g_last g = Some l → (l ∉ fin) ∧ (∃ o, (l, o) ∈ inp ∧ after_all o = true)) as Hl.
  { intros l Hl. apply Hlast in Hl as (o & Hin & Ha). split; [|eauto].
    intros Hlf. apply Hfin_sched in Hlf as (o' & Hin2 & Ha2).
    rewrite (entry_unique inp Hvalid l o o') in Ha by done. congruence. }
  assert (∀ c, c ∈ inp.*1 ↔ c ∈ fin ∨ g_last g = Some c) as Hmem.
  { intros c. rewrite list_elem_of_fmap. split.
    - intros ([c' o] & -> & Hin). simpl. destruct (after_all o) eqn:Ha.
      + right. apply Hlast. eauto.
      + left. apply Hcover. by exists o.
    - intros [(o & Hin & _)%Hfin_sched|(o & Hin & _)%Hlast]; by exists (c, o). }
  assert (∀ i g0 c p, pgs !! i = Some g0 → c ∈ g0 → parent_of inp p c →
            ∃ j g', j < i ∧ pgs !! j = Some g' ∧ p ∈ g') as Hearlier'.
  { intros i g0 c p Hi Hc Hp. apply (Hearlier i g0 c p Hi Hc). apply Hpar2. by left. }
  assert (∀ r o, (r, o) ∈ inp → before_all o = true → pgs !! 0 = Some [r]) as Hrootgroup.
  { intros r o Hin Hb.
    assert (g_root g = Some r) as Hr by (apply Hroot; eauto).
    rewrite Hr in Hstarts2.
    assert (s0 !! r = Some WHITE) as Hrw.
    { apply Hsched. exists o. split; [done|].
      pose proof (vc_options inp Hvalid r o Hin) as Hwf. unfold well_formed_options in Hwf.
      rewrite Hb in Hwf. by destruct (after_all o). }
    assert (∃ rest, reverse <$> news = [r :: rest]) as [rest HDs].
    { destruct (Hfirstgroup r [] Hstarts2 Hrw) as (n & news' & Hnews_eq & Hlastn).
      rewrite Hstarts2, Hnews_eq in Hlen. simpl in Hlen.
      destruct news' as [|? ?]; [|simpl in Hlen; lia].
      apply last_Some in Hlastn as [n' ->]. exists (reverse n').
      rewrite Hnews_eq. simpl. by rewrite reverse_snoc. }
    assert (∀ x, x ∈ r :: rest → x ∈ fin) as Hsub.
    { intros x Hx. unfold fin. rewrite <- (concat_reverse_perm news), HDs. simpl.
      by rewrite app_nil_r. }
    assert (NoDup (r :: rest)) as HndD.
    { assert (r :: rest ≡ₚ fin) as HpermD.
      { unfold fin. rewrite <- (concat_reverse_perm news), HDs. simpl.
        by rewrite app_nil_r. }
      by rewrite HpermD. }
    destruct Hfirst as (pg & sufs & more' & Hscan & ->); [by rewrite HDs|].
    rewrite HDs in Hscan. cbn [scan_groups] in Hscan.
    destruct (pop_ready_spec set_iter Hiter (g_parents g2) sf (r :: rest))
      as (popped & suf & Hpop & Hsplit & Hready & Hhead & _).
    { intros x q Hx Hq. rewrite (Hfb q); [eauto|]. eapply Hin'; [done|by apply Hsub]. }
    rewrite Hpop in Hscan. cbn [mbind Result_bind fst snd] in Hscan.
    injection Hscan as <- <-. rewrite app_nil_r. simpl. f_equal.
    assert (popped ≠ []) as Hne.
    { apply (Hhead r rest eq_refl). intros q Hq _. apply Hpar2 in Hq.
      rewrite (bound_not_into_first inp Hvalid q r o Hq Hin) in Hb. done. }
    destruct popped as [|r' popped]; [done|]. injection Hsplit as <- Hrest.
    f_equal. destruct popped as [|z popped]; [done|]. exfalso.
    assert (z ∈ rest) as Hz by (rewrite Hrest; left).
    assert (z ≠ r) as Hzr.
    { intros ->. apply NoDup_cons in HndD as [Hnin _]. done. }
    assert (z ∈ fin) as Hzfin by (apply Hsub; by right).
    destruct (Hfin_sched z Hzfin) as (oz & Hinz & Haz).
    assert (∃ q, bound inp q z) as [q Hq].
    { pose proof (vc_options inp Hvalid z oz Hinz) as Hwf. unfold well_formed_options in Hwf.
      rewrite Haz in Hwf. destruct (before_all oz) eqn:Hbz.
      - destruct Hzr. by eapply (vc_one_first inp Hvalid z oz r o).
      - destruct (run_after oz) as [|parent|[|p0 ps]|] eqn:Hra; try done.
        + exists r. right. split; [eauto|]. by exists oz.
        + exists parent. left. exists oz. split; [done|]. split; [done|].
          unfold declared_parents. rewrite Hra. left.
        + exists p0. left. exists oz. split; [done|]. split; [done|].
          unfold declared_parents. rewrite Hra. left. }
    apply Hpar2 in Hq. apply (Hready z q); [right; left|done|].
    apply Hfb. by eapply Hin'. }
  exists (match g_last g with Some l => pgs ++ [[l]] | None => pgs end).
  split; [done|].
  destruct (g_last g) as [l|] eqn:Hgl.
  - destruct (Hl l eq_refl) as (Hlfin & ol & Hlin & Hla).
    split; [|split; [|split; [|split; [|split]]]].
    + rewrite concat_app. simpl. apply NoDup_app. split; [by rewrite Hperm|].
      split; [|apply NoDup_singleton].
      intros x Hx ->%list_elem_of_singleton. apply Hlfin. by rewrite <- Hperm.
    + intros c. rewrite concat_app, Hmem, elem_of_app, Hperm. simpl.
      rewrite list_elem_of_singleton. naive_solver.
    + intros i g0 c p Hi Hc Hp. apply lookup_app_Some in Hi as [Hi|[Hlen' Hi]].
      * destruct (Hearlier' i g0 c p Hi Hc Hp) as (j & g' & ? & ? & ?).
        exists j, g'. split; [done|]. split; [by apply lookup_app_l_Some|done].
      * apply list_lookup_singleton_Some in Hi as [_ <-].
        apply list_elem_of_singleton in Hc as ->.
        destruct Hp as (o & Hin & [_ Ha] & _).
        rewrite (entry_unique inp Hvalid l o ol) in Ha by done. congruence.
    + intros r o Hin Hb. apply lookup_app_l_Some. by eapply Hrootgroup.
    + intros l' o Hin Ha. rewrite last_snoc.
      by rewrite (vc_one_last inp Hvalid l' o l ol).
    + apply Forall_app. split; [done|]. by apply Forall_singleton.
  - split; [|split; [|split; [|split; [|split]]]].
    + by rewrite Hperm.
    + intros c. rewrite Hmem, Hperm. naive_solver.
    + done.
    + done.
    + intros l o Hin Ha. assert (None = Some l) as H by (apply Hlast; eauto). done.
    + done.
Qed.

End ScheduleSoundness.

Lemma acyclic_by_rank (inp : list (pyfunc * Options)) (rank : pyfunc → nat) :
  (∀ p c, parent_of inp p c → rank p < rank c) → ∀ c, ¬ tc (parent_of inp) c c.
Proof.
  intros Hrank c Hc.
  assert (∀ x y, tc (parent_of inp) x y → rank x < rank y) as H.
  { induction 1 as [x y Hxy|x y z Hxy _ IH]; [by apply Hrank|].
    apply Hrank in Hxy. lia. }
  apply H in Hc. lia.
Qed.

(** X1. The scheduler on well-formed constraint sets. For a constraint set in
    which every callback is listed once with one kind of constraint, at most
    one is first and one last, every [run_after] names at least one parent,
    the parents are callbacks of the set other than the last one, and the
    declared edges form no cycle, the scheduler returns groups such that:
    each callback of the set is in exactly one group, once; the declared
    parents of a callback are in strictly earlier groups; the first
    callback, if declared, is alone in group 0, so that every other callback
    is in a later group; the last callback, if declared, is alone in the
    final group. This holds whatever the iteration order of sets. *)
Theorem schedule_of_valid_constraints
    (set_iter : gset pyfunc → list pyfunc) (inp : list (pyfunc * Options)) :
  set_iter_ok set_iter → valid_constraints inp → (∀ c, ¬ tc (parent_of inp) c c) →
  ∃ groups,
    parallel_groups_of_callbacks set_iter inp = Ok groups
    ∧ NoDup (concat groups)
    ∧ (∀ c, c ∈ concat groups ↔ c ∈ inp.*1)
    ∧ (∀ i g c p, groups !! i = Some g → c ∈ g → parent_of inp p c →
         ∃ j g', j < i ∧ groups !! j = Some g' ∧ p ∈ g')
    ∧ (∀ r o, (r, o) ∈ inp → before_all o = true →
         groups !! 0 = Some [r]
         ∧ ∀ c oc i g, (c, oc) ∈ inp → before_all oc = false →
             groups !! i = Some g → c ∈ g → 1 ≤ i)
    ∧ (∀ l o, (l, o) ∈ inp → after_all o = true → last groups = Some [l]).
Proof.
  intros Hiter Hvalid Hacyclic.
  destruct (schedule_sound set_iter Hiter inp Hvalid Hacyclic)
    as (groups & Hrun & Hnd & Hmem & Hpar & Hfirst & Hlast & _).
  exists groups. split; [done|]. split; [done|]. split; [done|]. split; [done|].
  split; [|done]. intros r o Hin Hb. split; [by eapply Hfirst|].
  intros c oc i g Hc Hbc Hi Hcg. destruct i as [|i]; [|lia].
  rewrite (Hfirst r o Hin Hb) in Hi. injection Hi as <-.
  apply list_elem_of_singleton in Hcg as ->.
  rewrite (entry_unique inp Hvalid r o oc) in Hb by done. congruence.
Qed.

Ltac entry_cases H :=
  repeat (apply elem_of_cons in H as [H|H]; [injection H as ? ?; subst|]);
  try (by apply elem_of_nil in H).

Lemma diamond_constraints_valid : valid_constraints diamond_constraints.
Proof.
  split.
  - refine (bool_decide_unpack _ _). vm_compute. exact I.
  - intros c o H. unfold diamond_constraints in H. entry_cases H; done.
  - intros c1 o1 c2 o2 H1 H2. unfold diamond_constraints in H1, H2.
    entry_cases H1; entry_cases H2; done.
  - intros c1 o1 c2 o2 H1 H2. unfold diamond_constraints in H1, H2.
    entry_cases H1; entry_cases H2; done.
  - intros p c (o & H & [Hb Ha] & Hp). unfold diamond_constraints in H.
    entry_cases H; try done; unfold declared_parents in Hp; simpl in Hp;
      repeat (apply elem_of_cons in Hp as [->|Hp]); try (by apply elem_of_nil in Hp);
      eexists; (split; [|shelve]); unfold diamond_constraints;
      eauto using list_elem_of_here, list_elem_of_further.
    Unshelve. all: done.
Qed.

Lemma diamond_constraints_acyclic : ∀ c, ¬ tc (parent_of diamond_constraints) c c.
Proof.
  apply (acyclic_by_rank _ id). intros p c (o & H & _ & Hp).
  unfold diamond_constraints in H.
  entry_cases H; unfold declared_parents in Hp; simpl in Hp;
    repeat (apply elem_of_cons in Hp as [->|Hp]); try (by apply elem_of_nil in Hp);
    unfold id; lia.
Qed.

Lemma schedule_of_valid_constraints_witness :
  ∃ groups,
    parallel_groups_of_callbacks elements diamond_constraints = Ok groups
    ∧ NoDup (concat groups)
    ∧ groups !! 0 = Some [4]
    ∧ last groups = Some [5].
Proof.
  destruct (schedule_of_valid_constraints elements diamond_constraints elements_ok
              diamond_constraints_valid diamond_constraints_acyclic)
    as (groups & Hrun & Hnd & _ & _ & Hfirst & Hlast).
  exists groups. split; [done|]. split; [done|]. split.
  - apply (Hfirst 4 (MkOptions true false RunAfterNone)); [|done].
    unfold diamond_constraints. left.
  - apply (Hlast 5 (MkOptions false true RunAfterNone)); [|done].
    unfold diamond_constraints. do 4 right. left.
Defined.

(** * Further properties of the code *)

Section NamedArgsFacts.

Context {V : Type} (py_None : V).

Lemma bind_self_with_options_lookup names (self options : gmap string V) k :
  bind_self_with_options py_None names self options !! k
  = if decide (k ∈ names) then Some (default py_None (options !! k)) else self !! k.
Proof.
  unfold bind_self_with_options.
  induction names as [|name names IH] using rev_ind.
  - case_decide as H; [by apply elem_of_nil in H|done].
  - rewrite foldl_app. simpl. destruct (decide (k = name)) as [->|Hk].
    + rewrite lookup_insert_eq. rewrite decide_True; [done|]. apply elem_of_app. right. left.
    + rewrite lookup_insert_ne by done. rewrite IH. destruct (decide (k ∈ names)) as [Hin|Hnin].
      * rewrite decide_True; [done|]. apply elem_of_app. by left.
      * rewrite decide_False; [done|]. intros [H|H]%elem_of_app; [done|].
        apply list_elem_of_singleton in H. done.
Qed.

Lemma pop_names_lookup names (kwargs : gmap string V) k :
  foldl (λ kwargs name, delete name kwargs) kwargs names !! k
  = if decide (k ∈ names) then None else kwargs !! k.
Proof.
  induction names as [|name names IH] using rev_ind.
  - case_decide as H; [by apply elem_of_nil in H|done].
  - rewrite foldl_app. simpl. destruct (decide (k = name)) as [->|Hk].
    + rewrite lookup_delete_eq. rewrite decide_True; [done|]. apply elem_of_app. right. left.
    + rewrite lookup_delete_ne by done. rewrite IH. destruct (decide (k ∈ names)) as [Hin|Hnin].
      * rewrite decide_True; [done|]. apply elem_of_app. by left.
      * rewrite decide_False; [done|]. intros [H|H]%elem_of_app; [done|].
        apply list_elem_of_singleton in H. done.
Qed.

(** X12. The wrapper of [method_named_args] calls [init] once, with the
    positional arguments as they are, with the keywords from which every
    named one is removed, and on the object on which every name is bound to
    the keyword of that name, or to [None] when the keyword is not given;
    the other attributes are as before. *)
Theorem method_named_args_binds_and_pops (names : list string)
    (init : gmap string V → list V → gmap string V → Outcome (gmap string V))
    (self : gmap string V) (args : list V) (kwargs : gmap string V) :
  ∃ self' kwargs',
    method_named_args py_None names init self args kwargs = init self' args kwargs'
    ∧ (∀ k, self' !! k = if decide (k ∈ names)
                         then Some (default py_None (kwargs !! k))
                         else self !! k)
    ∧ (∀ k, kwargs' !! k = if decide (k ∈ names) then None else kwargs !! k).
Proof.
  eexists _, _. split; [reflexivity|]. split.
  - apply bind_self_with_options_lookup.
  - apply pop_names_lookup.
Qed.

Context `{EqDecision V}.

(** X13. A cached property calls its accessor until the accessor returns
    something other than [None]; from then on every read gives that value
    and leaves the object alone, whatever the accessor would do now. A
    [None] result is stored but read as no cache: the next read calls the
    accessor again. *)
Theorem property_with_cache_reads (accessor_name : string)
    (accessor : gmap string V → gmap string V * Outcome V)
    (self self1 : gmap string V) (v : V) :
  default py_None (self !! CACHE_KEY accessor_name) = py_None →
  accessor self = (self1, Returns v) →
  let self2 := <[CACHE_KEY accessor_name := v]> self1 in
  property_with_cache py_None accessor_name accessor self = (self2, Returns v)
  ∧ (v ≠ py_None →
     ∀ accessor', property_with_cache py_None accessor_name accessor' self2
                  = (self2, Returns v))
  ∧ (v = py_None →
     ∀ accessor', property_with_cache py_None accessor_name accessor' self2
                  = match accessor' self2 with
                    | (self3, Returns v') =>
                        (<[CACHE_KEY accessor_name := v']> self3, Returns v')
                    | (self3, Raises e) => (self3, Raises e)
                    end).
Proof.
  intros Hmiss Hacc self2. split; [|split].
  - unfold property_with_cache. rewrite Hmiss, decide_True by done. by rewrite Hacc.
  - intros Hv accessor'. unfold property_with_cache, self2.
    rewrite lookup_insert_eq. simpl. by rewrite decide_False.
  - intros Hv accessor'. unfold property_with_cache, self2.
    rewrite lookup_insert_eq. simpl. by rewrite decide_True.
Qed.

(** An accessor that raises leaves no cache behind. *)
Lemma property_with_cache_raises (accessor_name : string)
    (accessor : gmap string V → gmap string V * Outcome V)
    (self self1 : gmap string V) (e : Exception) :
  default py_None (self !! CACHE_KEY accessor_name) = py_None →
  accessor self = (self1, Raises e) →
  property_with_cache py_None accessor_name accessor self = (self1, Raises e).
Proof.
  intros Hmiss Hacc. unfold property_with_cache.
  rewrite Hmiss, decide_True by done. by rewrite Hacc.
Qed.

End NamedArgsFacts.

Lemma property_with_cache_reads_witness :
  property_with_cache (@None nat) "x" (λ self, (self, Returns (Some 1))) ∅
  = (<[CACHE_KEY "x" := Some 1]> ∅, Returns (Some 1))
  ∧ property_with_cache (@None nat) "x" (λ self, (self, Returns (Some 2)))
      (<[CACHE_KEY "x" := Some 1]> ∅)
    = (<[CACHE_KEY "x" := Some 1]> ∅, Returns (Some 1)).
Proof.
  assert (Some 1 ≠ @None nat) as H by discriminate.
  assert (default (@None nat) ((∅ : gmap string (option nat)) !! CACHE_KEY "x") = None)
    as H0 by reflexivity.
  destruct (property_with_cache_reads (@None nat) "x"
              (λ self, (self, Returns (Some 1))) ∅ ∅ (Some 1) H0 eq_refl)
    as (H1 & H2 & _).
  split; [exact H1|]. exact (H2 H (λ self, (self, Returns (Some 2)))).
Defined.

Section KeywordFilterFacts.

Context {V R : Type} (env : FuncEnv V R).

Lemma params_without_default_subseteq func :
  params_without_default env func ⊆ params_all env func.
Proof.
  unfold params_without_default, params_all. intros k.
  rewrite !elem_of_list_to_set, !list_elem_of_fmap.
  intros (p & -> & Hp). exists p. split; [done|].
  by apply list_elem_of_filter in Hp as [_ Hp].
Qed.

(** The cache after a call: the entry of [func] is added, nothing else. *)
Lemma extract_kwargs_subset_cache_after
    (cache : gmap pyfunc (gset string * gset string)) (func : pyfunc)
    (kwargs : gmap string V) :
  cache_coherent env cache →
  (_extract_kwargs_subset env cache func kwargs).1
  = <[func := (params_all env func, params_without_default env func)]> cache
  ∧ (is_Some (cache !! func) →
     (_extract_kwargs_subset env cache func kwargs).1 = cache).
Proof.
  intros Hc. unfold _extract_kwargs_subset.
  destruct (cache !! func) as [[a d]|] eqn:Hl.
  - pose proof (Hc _ _ Hl) as Heq. injection Heq as -> ->.
    destruct (decide _); simpl; (split; [|done]); by rewrite insert_id.
  - destruct (decide _); simpl; (split; [done|]); by intros [? ?].
Qed.

(** X9. The signature cache of [_extract_kwargs_subset] does not change what
    the function returns or raises: with any coherent cache the outcome is
    the one computed from the signature. After the call, also when it
    raised, the cache holds the entry of [func] and the other entries are as
    before. *)
Theorem extract_kwargs_subset_cache_transparent
    (cache : gmap pyfunc (gset string * gset string)) (func : pyfunc)
    (kwargs : gmap string V) :
  cache_coherent env cache →
  (_extract_kwargs_subset env cache func kwargs).2
  = (_extract_kwargs_subset env ∅ func kwargs).2
  ∧ (_extract_kwargs_subset env cache func kwargs).1
    = <[func := (params_all env func, params_without_default env func)]> cache
  ∧ (is_Some (cache !! func) →
     (_extract_kwargs_subset env cache func kwargs).1 = cache).
Proof.
  intros Hc. unfold _extract_kwargs_subset. rewrite lookup_empty.
  destruct (cache !! func) as [[a d]|] eqn:Hl.
  - pose proof (Hc _ _ Hl) as Heq. injection Heq as -> ->.
    destruct (decide _); simpl; (split; [done|]); (split; [|done]);
      by rewrite insert_id.
  - destruct (decide _); simpl; (split; [done|]); (split; [done|]);
      by intros [? ?].
Qed.

(** X10. What [_extract_kwargs_subset] gives depends only on the keywords the
    function names: two keyword dictionaries that agree on the parameters
    of [func] give the same outcome up to the dropped keys; so keywords the
    function does not name never change what it receives, and filtering
    what was filtered changes nothing. *)
Theorem extract_kwargs_subset_named_only
    (cache : gmap pyfunc (gset string * gset string)) (func : pyfunc)
    (kwargs1 kwargs2 : gmap string V) :
  cache_coherent env cache →
  (∀ k, k ∈ params_all env func → kwargs1 !! k = kwargs2 !! k) →
  _extract_kwargs_subset env cache func kwargs1
  = _extract_kwargs_subset env cache func kwargs2
  ∧ ∀ cache' passed,
      _extract_kwargs_subset env cache func kwargs1 = (cache', Returns passed) →
      _extract_kwargs_subset env cache' func passed = (cache', Returns passed).
Proof.
  intros Hc Hagree.
  destruct (extract_kwargs_subset_spec env cache func kwargs1 Hc) as (c1 & H1 & Hc1).
  destruct (extract_kwargs_subset_spec env cache func kwargs2 Hc) as (c2 & H2 & Hc2).
  assert (c1 = c2) as <-.
  { pose proof (extract_kwargs_subset_cache_after cache func kwargs1 Hc) as (E1 & _).
    pose proof (extract_kwargs_subset_cache_after cache func kwargs2 Hc) as (E2 & _).
    rewrite H1 in E1. rewrite H2 in E2. simpl in E1, E2. congruence. }
  assert (∀ kw1 kw2 : gmap string V,
            (∀ k, k ∈ params_all env func → kw1 !! k = kw2 !! k) →
            params_without_default env func ⊆ dom kw1 →
            params_without_default env func ⊆ dom kw2) as Hsub.
  { intros kw1 kw2 Hag Hs k Hk. pose proof (Hs k Hk) as Hd.
    apply elem_of_dom in Hd. apply elem_of_dom.
    rewrite <- Hag; [done|]. by apply params_without_default_subseteq. }
  assert (∀ kw1 kw2 : gmap string V,
            (∀ k, k ∈ params_all env func → kw1 !! k = kw2 !! k) →
            filter (λ kv : string * V, kv.1 ∈ params_all env func) kw1
            = filter (λ kv : string * V, kv.1 ∈ params_all env func) kw2) as Hfil.
  { intros kw1 kw2 Hag. apply map_eq. intros k.
    destruct (decide (k ∈ params_all env func)) as [Hk|Hk].
    - destruct (kw1 !! k) as [v|] eqn:E1.
      + rewrite (map_lookup_filter_Some_2 _ _ k v) by done.
        symmetry. apply map_lookup_filter_Some_2; [|done]. by rewrite <- Hag.
      + rewrite map_lookup_filter_None_2 by (by left).
        symmetry. apply map_lookup_filter_None_2. left. by rewrite <- Hag.
    - rewrite !map_lookup_filter_None_2; [done|right; by intros ? _..]. }
  split.
  - rewrite H1, H2. f_equal.
    destruct (decide (_ ⊆ dom kwargs1)) as [S1|S1];
      destruct (decide (_ ⊆ dom kwargs2)) as [S2|S2]; try done.
    + f_equal. by apply Hfil.
    + destruct S2. by eapply Hsub.
    + destruct S1. eapply Hsub; [|done]. intros k Hk. symmetry. by apply Hagree.
  - intros cache' passed Hret. rewrite H1 in Hret.
    destruct (decide (_ ⊆ dom kwargs1)) as [S1|S1]; [|done].
    injection Hret as <- <-.
    destruct (extract_kwargs_subset_spec env c1 func
                (filter (λ kv : string * V, kv.1 ∈ params_all env func) kwargs1) Hc1)
      as (c3 & H3 & _).
    assert (c3 = c1) as ->.
    { pose proof (extract_kwargs_subset_cache_after c1 func
                    (filter (λ kv : string * V, kv.1 ∈ params_all env func) kwargs1) Hc1)
        as (_ & E3).
      rewrite H3 in E3. simpl in E3. apply E3.
      pose proof (extract_kwargs_subset_cache_after cache func kwargs1 Hc)
        as (E1 & _).
      rewrite H1 in E1. simpl in E1. rewrite E1, lookup_insert_eq. eauto. }
    rewrite H3.
    assert (∀ k, k ∈ params_all env func →
              kwargs1 !! k
              = filter (λ kv : string * V, kv.1 ∈ params_all env func) kwargs1 !! k)
      as Hag.
    { intros k Hk. destruct (kwargs1 !! k) as [v|] eqn:E.
      - symmetry. by apply map_lookup_filter_Some_2.
      - symmetry. apply map_lookup_filter_None_2. by left. }
    rewrite decide_True by (by eapply Hsub). f_equal. f_equal.
    symmetry. by apply Hfil.
Qed.

(** X11. Called with positional arguments, [async_call] does not filter: the
    target gets every keyword as given, ['Missing keys'] is never raised and
    the signature cache is not touched. *)
Theorem async_call_positional_unfiltered
    (cache : gmap pyfunc (gset string * gset string)) (func : pyfunc)
    (args : list V) (kwargs : gmap string V) :
  args ≠ [] →
  async_call env cache func args kwargs
  = (cache,
     EvCall func args kwargs ::
       match fn_body env func args kwargs with
       | Returns ret => [EvReturn func ret]
       | Raises _ => []
       end,
     of_outcome (fn_body env func args kwargs)).
Proof.
  intros Hargs. apply async_call_run. by destruct args.
Qed.

End KeywordFilterFacts.

Lemma extract_kwargs_subset_cache_transparent_witness :
  (_extract_kwargs_subset state_functions ∅ 1 (∅ : gmap string KwVal)).1
  = <[1 := (params_all state_functions 1, params_without_default state_functions 1)]> ∅.
Proof.
  exact (proj1 (proj2 (extract_kwargs_subset_cache_transparent state_functions ∅ 1 ∅
                         (empty_cache_coherent state_functions)))).
Defined.

Lemma extract_kwargs_subset_named_only_witness :
  _extract_kwargs_subset state_functions ∅ 1
    (<["state" := KwRaw PyNone]> (<["other" := KwRaw PyNone]> ∅))
  = _extract_kwargs_subset state_functions ∅ 1 (<["state" := KwRaw PyNone]> ∅).
Proof.
  refine (proj1 (extract_kwargs_subset_named_only state_functions ∅ 1 _ _
                   (empty_cache_coherent state_functions) _)).
  intros k Hk. unfold params_all in Hk. simpl in Hk.
  set_unfold in Hk. destruct Hk as [->|[->|[]]]; reflexivity.
Defined.

Lemma async_call_positional_unfiltered_witness :
  async_call state_functions ∅ 1 [KwRaw PyNone] ∅
  = (∅, [EvCall 1 [KwRaw PyNone] ∅; EvReturn 1 PyNone], Ok PyNone).
Proof.
  assert ([KwRaw PyNone] ≠ []) as H by discriminate.
  exact (async_call_positional_unfiltered state_functions ∅ 1 [KwRaw PyNone] ∅ H).
Defined.

Lemma for_each_raise_at {A S : Type} (body : S → A → Result S) l1 x l2 s0 s e :
  for_each body l1 s0 = Ok s → body s x = Raise e →
  for_each body (l1 ++ x :: l2) s0 = Raise e.
Proof.
  intros H1 H2. rewrite for_each_app, H1. simpl. by rewrite H2.
Qed.

Lemma schedule_raise_in_first_pass set_iter l1 entry l2 g e :
  for_each (register set_iter) l1 empty_graph = Ok g →
  register set_iter g entry = Raise e →
  parallel_groups_of_callbacks set_iter (l1 ++ entry :: l2) = Raise e.
Proof.
  intros H1 H2. unfold parallel_groups_of_callbacks.
  by rewrite (for_each_raise_at _ _ _ _ _ _ _ H1 H2).
Qed.

(** X3. A callback declared [before_all] together with [after_all], or with
    a [run_after] that is true in Python's sense, is refused: appended to
    any well-formed constraint set it raises
    [RuntimeError('Conflict on before_all.')], whatever follows it. *)
Theorem schedule_conflict_on_before_all
    (set_iter : gset pyfunc → list pyfunc)
    (l1 l2 : list (pyfunc * Options)) (c : pyfunc) (o : Options) :
  set_iter_ok set_iter → valid_constraints l1 →
  before_all o = true →
  after_all o = true ∨ run_after_truthy (run_after o) = true →
  parallel_groups_of_callbacks set_iter (l1 ++ (c, o) :: l2)
  = Raise conflict_on_before_all.
Proof.
  intros Hiter Hvalid Hb Hconf.
  destruct (first_pass_run set_iter Hiter l1 Hvalid) as (g & Hrun & _).
  apply (schedule_raise_in_first_pass _ _ _ _ g); [done|].
  unfold register. rewrite Hb.
  by destruct Hconf as [-> | ->]; [|rewrite orb_true_r].
Qed.

Lemma valid_constraints_nil : valid_constraints [].
Proof.
  split.
  - constructor.
  - intros c o H. by apply elem_of_nil in H.
  - intros c1 o1 c2 o2 H. by apply elem_of_nil in H.
  - intros c1 o1 c2 o2 H. by apply elem_of_nil in H.
  - intros p c (o & H & _). by apply elem_of_nil in H.
Qed.

Lemma schedule_conflict_on_before_all_witness :
  parallel_groups_of_callbacks elements
    ([] ++ (1, MkOptions true false (RunAfterFunction 2)) :: [(2, unconstrained)])
  = Raise conflict_on_before_all.
Proof.
  apply (schedule_conflict_on_before_all elements [] [(2, unconstrained)] 1
           (MkOptions true false (RunAfterFunction 2)) elements_ok valid_constraints_nil).
  - reflexivity.
  - right. reflexivity.
Defined.

(** X4. Only one callback can be first: after a well-formed constraint set
    that has a [before_all] callback, a second callback declared
    [before_all] (and nothing else) raises
    [RuntimeError('Already set before_all: ...')]. *)
Theorem schedule_second_before_all
    (set_iter : gset pyfunc → list pyfunc)
    (l1 l2 : list (pyfunc * Options)) (r c : pyfunc) (o_r o : Options) :
  set_iter_ok set_iter → valid_constraints l1 →
  (r, o_r) ∈ l1 → before_all o_r = true →
  before_all o = true → after_all o = false →
  run_after_truthy (run_after o) = false →
  parallel_groups_of_callbacks set_iter (l1 ++ (c, o) :: l2)
  = Raise already_set_before_all.
Proof.
  intros Hiter Hvalid Hin Hb0 Hb Ha Hr.
  destruct (first_pass_run set_iter Hiter l1 Hvalid) as (g & Hrun & Hroot & _).
  apply (schedule_raise_in_first_pass _ _ _ _ g); [done|].
  unfold register. rewrite Hb, Ha, Hr. simpl.
  assert (g_root g = Some r) as -> by (apply Hroot; eauto). done.
Qed.

Lemma valid_constraints_singleton c o :
  well_formed_options o → declared_parents o = [] → valid_constraints [(c, o)].
Proof.
  intros Hwf Hp. split.
  - apply NoDup_singleton.
  - by intros c' o' [= -> ->]%list_elem_of_singleton.
  - by intros c1 o1 c2 o2 [= -> ->]%list_elem_of_singleton
      [= -> ->]%list_elem_of_singleton.
  - by intros c1 o1 c2 o2 [= -> ->]%list_elem_of_singleton
      [= -> ->]%list_elem_of_singleton.
  - intros p c' (o' & [= -> ->]%list_elem_of_singleton & _ & Hin).
    rewrite Hp in Hin. by apply elem_of_nil in Hin.
Qed.

Lemma schedule_second_before_all_witness :
  parallel_groups_of_callbacks elements
    ([(1, MkOptions true false RunAfterNone)]
     ++ (2, MkOptions true false RunAfterNone) :: [])
  = Raise already_set_before_all.
Proof.
  apply (schedule_second_before_all elements [(1, MkOptions true false RunAfterNone)] []
           1 2 (MkOptions true false RunAfterNone) (MkOptions true false RunAfterNone)
           elements_ok).
  - by apply valid_constraints_singleton.
  - left.
  - reflexivity.
  - reflexivity.
  - reflexivity.
  - reflexivity.
Defined.

(** X5. Only one callback can be last: after a well-formed constraint set
    that has an [after_all] callback, a second callback declared [after_all]
    and not [before_all] raises [RuntimeError('Already set after_all: ...')],
    whatever its [run_after]. *)
Theorem schedule_second_after_all
    (set_iter : gset pyfunc → list pyfunc)
    (l1 l2 : list (pyfunc * Options)) (l c : pyfunc) (o_l o : Options) :
  set_iter_ok set_iter → valid_constraints l1 →
  (l, o_l) ∈ l1 → after_all o_l = true →
  before_all o = false → after_all o = true →
  parallel_groups_of_callbacks set_iter (l1 ++ (c, o) :: l2)
  = Raise already_set_after_all.
Proof.
  intros Hiter Hvalid Hin Ha0 Hb Ha.
  destruct (first_pass_run set_iter Hiter l1 Hvalid) as (g & Hrun & _ & Hlast & _).
  apply (schedule_raise_in_first_pass _ _ _ _ g); [done|].
  unfold register. rewrite Hb, Ha.
  assert (g_last g = Some l) as -> by (apply Hlast; eauto). done.
Qed.

Lemma schedule_second_after_all_witness :
  parallel_groups_of_callbacks elements
    ([(1, MkOptions false true RunAfterNone)]
     ++ (2, MkOptions false true RunAfterNone) :: [])
  = Raise already_set_after_all.
Proof.
  apply (schedule_second_after_all elements [(1, MkOptions false true RunAfterNone)] []
           1 2 (MkOptions false true RunAfterNone) (MkOptions false true RunAfterNone)
           elements_ok).
  - by apply valid_constraints_singleton.
  - left.
  - reflexivity.
  - reflexivity.
  - reflexivity.
Defined.

(** X6. A [run_after] that is neither [None], nor a function, nor an
    iterable reaches [raise NotImplemented]; since [NotImplemented] is not
    an exception, the scheduler fails with [TypeError]. *)
Theorem schedule_run_after_of_other_type
    (set_iter : gset pyfunc → list pyfunc)
    (l1 l2 : list (pyfunc * Options)) (c : pyfunc) (o : Options) (truth : bool) :
  set_iter_ok set_iter → valid_constraints l1 →
  before_all o = false → after_all o = false → run_after o = RunAfterOther truth →
  parallel_groups_of_callbacks set_iter (l1 ++ (c, o) :: l2) = Raise TypeError.
Proof.
  intros Hiter Hvalid Hb Ha Hr.
  destruct (first_pass_run set_iter Hiter l1 Hvalid) as (g & Hrun & _).
  apply (schedule_raise_in_first_pass _ _ _ _ g); [done|].
  unfold register. by rewrite Hb, Ha, Hr.
Qed.

Lemma schedule_run_after_of_other_type_witness :
  parallel_groups_of_callbacks elements
    ([] ++ (1, MkOptions false false (RunAfterOther true)) :: [(2, unconstrained)])
  = Raise TypeError.
Proof.
  apply (schedule_run_after_of_other_type elements [] [(2, unconstrained)] 1
           (MkOptions false false (RunAfterOther true)) true
           elements_ok valid_constraints_nil); reflexivity.
Defined.


Lemma register_unconstrained set_iter cs : ∀ g,
  for_each (register set_iter) ((λ c, (c, unconstrained)) <$> cs) g
  = Ok (MkGraph (g_root g) (g_last g) (g_children g) (g_parents g)
          (foldl (λ s c, <[c := WHITE]> s) (g_searched g) cs)
          (g_search_starts g ++ cs)).
Proof.
  induction cs as [|c cs IH]; intros g.
  - simpl. rewrite app_nil_r. by destruct g.
  - cbn [fmap list_fmap for_each]. cbn [register unconstrained before_all after_all run_after].
    cbn [mbind Result_bind]. rewrite IH. cbn. by rewrite <- app_assoc.
Qed.

Lemma foldl_white_lookup (cs : list pyfunc) (s : gmap pyfunc TopologySearchColor) c :
  c ∈ cs → foldl (λ s c, <[c := WHITE]> s) s cs !! c = Some WHITE.
Proof.
  revert s. induction cs as [|c' cs IH] using rev_ind; intros s Hc.
  - by apply elem_of_nil in Hc.
  - rewrite foldl_app. simpl. destruct (decide (c = c')) as [->|Hne].
    + by rewrite lookup_insert_eq.
    + rewrite lookup_insert_ne by done. apply IH.
      apply elem_of_app in Hc as [Hc|Hc]; [done|].
      by apply list_elem_of_singleton in Hc.
Qed.

Lemma DFS_leaf set_iter fuel (s : gmap pyfunc TopologySearchColor) g c :
  s !! c = Some WHITE →
  DFS set_iter (S fuel) ∅ (s, g) c = Ok (<[c := BLACK]> (<[c := GRAY]> s), g ++ [c]).
Proof. intros H. cbn [DFS fst snd]. rewrite H, lookup_empty. done. Qed.

Lemma topology_sort_unconstrained set_iter fuel cs : ∀ s groups,
  NoDup cs → (∀ c, c ∈ cs → s !! c = Some WHITE) →
  ∃ s',
    for_each
      (λ (sg : gmap pyfunc TopologySearchColor * list (list pyfunc)) start_callback,
         st ← DFS set_iter (S fuel) ∅ (sg.1, []) start_callback;
         Ok (st.1, match st.2 with
                   | [] => sg.2
                   | _ => sg.2 ++ [reverse st.2]
                   end))
      cs (s, groups)
    = Ok (s', groups ++ ((λ c, [c]) <$> cs)).
Proof.
  induction cs as [|c cs IH]; intros s groups Hnd Hw.
  - exists s. simpl. by rewrite app_nil_r.
  - apply NoDup_cons in Hnd as [Hnin Hnd].
    cbn [for_each fst snd]. rewrite DFS_leaf by (apply Hw; left).
    cbn [mbind Result_bind fst snd app].
    destruct (IH (<[c := BLACK]> (<[c := GRAY]> s)) (groups ++ [[c]]) Hnd) as (s' & Hs').
    { intros c' Hc'. rewrite !lookup_insert_ne by (intros ->; done). apply Hw. by right. }
    exists s'. change (reverse [c]) with [c]. rewrite Hs'. cbn [fmap list_fmap].
    by rewrite <- app_assoc.
Qed.

Lemma scan_groups_unconstrained set_iter s cs :
  set_iter_ok set_iter →
  scan_groups set_iter s ∅ ((λ c, [c]) <$> cs) = Ok (cs, (λ _, []) <$> cs).
Proof.
  intros Hiter. induction cs as [|c cs IH]; [done|].
  cbn [fmap list_fmap scan_groups pop_ready].
  rewrite (set_iter_empty set_iter (get_set ∅ c) Hiter) by done.
  cbn [is_ready mbind Result_bind fst snd]. fold (@fmap list _ _ _ (λ c : pyfunc, [c]) cs).
  rewrite IH. done.
Qed.

(** X7. Callbacks without any constraint, each listed once, are all put in
    one group, in the order of the input; the empty input gives no group at
    all. *)
Theorem schedule_unconstrained (set_iter : gset pyfunc → list pyfunc) (cs : list pyfunc) :
  set_iter_ok set_iter → NoDup cs →
  parallel_groups_of_callbacks set_iter ((λ c, (c, unconstrained)) <$> cs)
  = Ok (match cs with [] => [] | _ => [cs] end).
Proof.
  intros Hiter Hnd. unfold parallel_groups_of_callbacks.
  rewrite register_unconstrained. cbn [mbind Result_bind empty_graph bind_root g_root
    g_last g_children g_parents g_searched g_search_starts app].
  unfold topology_sort.
  edestruct (topology_sort_unconstrained set_iter) as (s' & ->); [done| |].
  { intros c Hc. by apply foldl_white_lookup. }
  cbn [mbind Result_bind fst snd app].
  destruct cs as [|c cs]; [done|].
  set (l := c :: cs).
  assert (concat ((λ c, [c]) <$> l) = l) as ->.
  { clearbody l. induction l; [done|]. simpl. by f_equal. }
  cbn [length grouping]. change ((λ c, [c]) <$> l) with ([c] :: ((λ c, [c]) <$> cs)).
  cbn [grouping]. change ([c] :: ((λ c, [c]) <$> cs)) with ((λ c, [c]) <$> l).
  rewrite scan_groups_unconstrained by done. cbn [mbind Result_bind fst snd].
  assert (filter (λ g : list pyfunc, nonempty g = true) ((λ _, []) <$> l) = []) as ->.
  { clearbody l. by induction l. }
  done.
Qed.

Lemma schedule_unconstrained_witness :
  parallel_groups_of_callbacks elements ((λ c, (c, unconstrained)) <$> [3; 1; 2])
  = Ok [[3; 1; 2]].
Proof.
  apply (schedule_unconstrained elements [3; 1; 2] elements_ok).
  refine (bool_decide_unpack _ _). vm_compute. exact I.
Defined.

(** X8. On a well-formed constraint set without cycle no group of the
    schedule is empty, and the schedule has no group only when there is no
    callback. *)
Theorem schedule_groups_nonempty
    (set_iter : gset pyfunc → list pyfunc) (inp : list (pyfunc * Options)) :
  set_iter_ok set_iter → valid_constraints inp → (∀ c, ¬ tc (parent_of inp) c c) →
  ∃ groups,
    parallel_groups_of_callbacks set_iter inp = Ok groups
    ∧ Forall (λ g, g ≠ []) groups
    ∧ (groups = [] ↔ inp = []).
Proof.
  intros Hiter Hvalid Hacyclic.
  destruct (schedule_sound set_iter Hiter inp Hvalid Hacyclic)
    as (groups & Hrun & _ & Hmem & _ & _ & _ & Hne).
  exists groups. split; [done|]. split; [done|]. split.
  - intros ->. destruct inp as [|[c o] inp]; [done|].
    assert (c ∈ concat (@nil (list pyfunc))) as H by (apply Hmem; left).
    by apply elem_of_nil in H.
  - intros ->. destruct groups as [|g groups]; [done|].
    apply Forall_cons in Hne as [Hg _]. destruct g as [|c g]; [done|].
    assert (c ∈ (@nil (pyfunc * Options)).*1) as H by (apply Hmem; left).
    by apply elem_of_nil in H.
Qed.

Lemma schedule_groups_nonempty_witness :
  ∃ groups,
    parallel_groups_of_callbacks elements diamond_constraints = Ok groups
    ∧ Forall (λ g, g ≠ []) groups.
Proof.
  destruct (schedule_groups_nonempty elements diamond_constraints elements_ok
              diamond_constraints_valid diamond_constraints_acyclic)
    as (groups & Hrun & Hne & _).
  exists groups. split; [exact Hrun|exact Hne].
Defined.

(** X2. On a well-formed constraint set the search finds every cycle it
    can reach: when the declared edges have a cycle through a callback that
    can be reached, along declared edges and the edges from the first
    callback, from the first callback or from a callback without parents,
    the scheduler raises [RuntimeError('Detect circle.')]. *)
Theorem schedule_detects_reachable_cycle
    (set_iter : gset pyfunc → list pyfunc) (inp : list (pyfunc * Options)) :
  set_iter_ok set_iter → valid_constraints inp →
  (∃ s c, start_point inp s ∧ rtc (bound inp) s c ∧ tc (parent_of inp) c c) →
  parallel_groups_of_callbacks set_iter inp = Raise detect_circle.
Proof.
  intros Hiter Hvalid (s & c & (os & Hsin & Hsa & Hsr) & Hreach & Hcycle).
  destruct (first_pass_run set_iter Hiter inp Hvalid) as (g & Hrun & Hfp).
  destruct (bind_root_spec inp g Hfp) as (_ & _ & _ & _ & Hstarts).
  destruct (search_setup inp Hvalid g Hfp) as (Hedge & Hsched & Hwhite0 & Hpre & Hstartdom).
  unfold parallel_groups_of_callbacks. rewrite Hrun. cbn [mbind Result_bind].
  set (g2 := bind_root g) in *. set (s0 := g_searched g2) in *.
  unfold topology_sort.
  destruct (topology_sort_total set_iter Hiter (g_children g2) (S (size s0)) (dom s0)
              (g_search_starts g2) s0 [] Hpre)
    as [(s' & news & _ & Hpost & _ & Hblack & _)|[-> _]]; [| |exfalso|done].
  { intros x Hx. apply Hwhite0 in Hx. done. }
  { done. }
  set (fin := concat news) in *.
  destruct Hpost as (_ & _ & Hsame & Hnd & Horder).
  assert (∀ i x y, fin !! i = Some x → bound inp x y → ∃ j, j < i ∧ fin !! j = Some y)
    as Hstep.
  { intros i x y Hi Hb. apply Hedge in Hb.
    destruct (Horder i x y Hi Hb) as [Hy|Hy]; [|done]. apply Hwhite0 in Hy. done. }
  assert (∀ x, x ∈ g_search_starts g2 → x ∈ fin) as Hstart_fin.
  { intros x Hx. destruct (decide (x ∈ fin)) as [|Hnin]; [done|].
    pose proof (Hblack x Hx) as Hb. rewrite (Hsame x Hnin) in Hb.
    apply Hwhite0 in Hb. done. }
  assert (s ∈ fin) as Hs.
  { destruct Hfp as (Hroot & _ & _ & _ & _ & _ & Hst).
    destruct (g_root g) as [r|] eqn:Hr.
    - assert (r ∈ fin) as Hrfin.
      { apply Hstart_fin. rewrite Hstarts. by left. }
      destruct (before_all os) eqn:Hsb.
      + assert (Some r = Some s) as [= <-] by (apply Hroot; eauto). done.
      + apply list_elem_of_lookup in Hrfin as [i Hi].
        destruct (Hstep i r s Hi) as (j & _ & Hj); [|by eapply list_elem_of_lookup_2].
        right. split; [exact (proj1 (Hroot r) eq_refl)|]. exists os. done.
    - destruct Hstarts as [Heq Hnofirst]. apply Hstart_fin. rewrite Heq. apply Hst.
      exists os. split; [done|]. split; [|done]. split; [|done]. by eapply Hnofirst. }
  assert (c ∈ fin) as Hc.
  { clear Hcycle Hsin. induction Hreach as [x|x y z Hxy _ IH]; [done|].
    apply IH. apply list_elem_of_lookup in Hs as [i Hi].
    destruct (Hstep i x y Hi Hxy) as (j & _ & Hj). by eapply list_elem_of_lookup_2. }
  assert (∀ x y, tc (parent_of inp) x y →
            ∀ i, fin !! i = Some x → ∃ j, j < i ∧ fin !! j = Some y) as Hdown.
  { intros x y Hxy. induction Hxy as [x y Hxy|x y z Hxy _ IH]; intros i Hi.
    - apply (Hstep i x y Hi). by left.
    - destruct (Hstep i x y Hi) as (j & Hlt & Hj); [by left|].
      destruct (IH j Hj) as (k & Hlt' & Hk). exists k. split; [lia|done]. }
  apply list_elem_of_lookup in Hc as [i Hi].
  destruct (Hdown c c Hcycle i Hi) as (j & Hlt & Hj).
  pose proof (NoDup_lookup fin i j c Hnd Hi Hj). lia.
Qed.



Lemma reachable_cycle_valid : valid_constraints reachable_cycle.
Proof.
  split.
  - refine (bool_decide_unpack _ _). vm_compute. exact I.
  - intros c o H. unfold reachable_cycle in H. entry_cases H; done.
  - intros c1 o1 c2 o2 H1 H2. unfold reachable_cycle in H1, H2.
    entry_cases H1; entry_cases H2; done.
  - intros c1 o1 c2 o2 H1 H2. unfold reachable_cycle in H1, H2.
    entry_cases H1; entry_cases H2; done.
  - intros p c (o & H & [Hb Ha] & Hp). unfold reachable_cycle in H.
    entry_cases H; try done; unfold declared_parents in Hp; simpl in Hp;
      repeat (apply elem_of_cons in Hp as [->|Hp]); try (by apply elem_of_nil in Hp);
      eexists; (split; [|shelve]); unfold reachable_cycle;
      eauto using list_elem_of_here, list_elem_of_further.
    Unshelve. all: done.
Qed.

Lemma schedule_detects_reachable_cycle_witness :
  parallel_groups_of_callbacks elements reachable_cycle = Raise detect_circle.
Proof.
  apply (schedule_detects_reachable_cycle elements reachable_cycle elements_ok
           reachable_cycle_valid).
  assert (parent_of reachable_cycle 0 1) as H01.
  { exists (MkOptions false false (RunAfterIterable [0; 2])).
    split; [unfold reachable_cycle; right; left|]. split; [done|]. simpl. left. }
  assert (parent_of reachable_cycle 2 1) as H21.
  { exists (MkOptions false false (RunAfterIterable [0; 2])).
    split; [unfold reachable_cycle; right; left|]. split; [done|]. simpl. right. left. }
  assert (parent_of reachable_cycle 1 2) as H12.
  { exists (MkOptions false false (RunAfterFunction 1)).
    split; [unfold reachable_cycle; do 2 right; left|]. split; [done|]. simpl. left. }
  exists 0, 1. split; [|split].
  - exists unconstrained. split; [left|done].
  - apply rtc_once. by left.
  - eapply tc_l; [exact H12|]. by apply tc_once.
Defined.

Lemma kids_enqueued state attr new :
  Forall2 (λ (item : string * Attr) (pair : Attr * option State),
             pair.1 = item.2 ∧ child_state state item.1 = Ok pair.2)
          (bh_named_children attr) new →
  new = kids (attr, state).
Proof.
  unfold kids. simpl. generalize (bh_named_children attr). intros cs H.
  induction H as [|[name child] [a s] cs new [Ha Hs] _ IH]; [done|].
  simpl in *. subst a. rewrite Hs, IH. done.
Qed.

Lemma select_callbacks_loop_visits self query root_state fuel : ∀ queue ret ret',
  _select_callbacks_loop fuel self query root_state queue ret = Ok ret' →
  ∃ visited, visits queue visited
             ∧ ret' = ret ++ omap (select_node self query root_state) visited.
Proof.
  induction fuel as [|fuel IH]; intros queue ret ret'.
  - destruct queue as [|[attr state] queue]; [|done].
    intros [= <-]. exists []. split; [constructor|]. by rewrite app_nil_r.
  - destruct queue as [|[attr state] queue].
    { intros [= <-]. exists []. split; [constructor|]. by rewrite app_nil_r. }
    cbn [_select_callbacks_loop].
    destruct (query (bh_path attr) (HTTPMethod self)) as [callback options] eqn:Hq.
    pose proof (enqueue_children state (bh_named_children attr) queue) as [_ Hok].
    simpl in Hok. unfold child_state in Hok.
    destruct (for_each _ (bh_named_children attr) queue) as [queue'| |] eqn:Hfe;
      [|done..]; simpl.
    destruct (Hok _ eq_refl) as (new & -> & HF).
    change (Forall2 (λ (item : string * Attr) (pair : Attr * option State),
                       pair.1 = item.2 ∧ child_state state item.1 = Ok pair.2)
              (bh_named_children attr) new) in HF.
    apply kids_enqueued in HF as ->. clear Hok.
    intros Hrun. apply IH in Hrun as (visited & Hvis & ->).
    exists ((attr, state) :: visited). split; [by constructor|].
    cbn [omap list_omap]. unfold select_node at 2. simpl. rewrite Hq. simpl.
    destruct callback as [cb|]; [|done].
    destruct (state_truthy state || is_None root_state); [|done].
    by rewrite <- app_assoc.
Qed.

Lemma visits_split : ∀ queue p out,
  visits (queue ++ concat (kids <$> p)) out →
  ∃ out', out = queue ++ out'
          ∧ visits (concat (kids <$> p) ++ concat (kids <$> queue)) out'.
Proof.
  induction queue as [|a queue IH]; intros p out H.
  - exists out. simpl in *. by rewrite app_nil_r.
  - simpl in H. inversion H as [|? ? out1 H1]; subst.
    assert ((queue ++ concat (kids <$> p)) ++ kids a
            = queue ++ concat (kids <$> (p ++ [a]))) as Heq.
    { rewrite fmap_app, concat_app. simpl. by rewrite app_nil_r, app_assoc. }
    rewrite Heq in H1. apply IH in H1 as (out' & -> & H2).
    exists out'. split; [done|].
    rewrite fmap_app, concat_app in H2. simpl in H2 |- *.
    by rewrite app_nil_r, <- app_assoc in H2.
Qed.

Lemma queue_size_kids p : S (queue_size (kids p)) = attr_size p.1.
Proof.
  destruct p as [[path cs] state]. unfold kids, queue_size. simpl. f_equal.
  rewrite <- list_fmap_compose. unfold compose. simpl.
  induction cs as [|c cs IH]; [done|]. simpl. by f_equal.
Qed.

Lemma queue_size_next_level queue :
  queue_size (concat (kids <$> queue)) + length queue = queue_size queue.
Proof.
  induction queue as [|p queue IH]; [done|].
  rewrite fmap_cons. cbn [concat length]. rewrite queue_size_app.
  change (queue_size (p :: queue)) with (attr_size p.1 + queue_size queue).
  rewrite <- (queue_size_kids p). lia.
Qed.

Lemma level_order_nil levels : level_order levels [] = [].
Proof. induction levels as [|levels IH]; [done|]. simpl. apply IH. Qed.

Lemma visits_level_order levels : ∀ queue out,
  queue_size queue ≤ levels → visits queue out → out = level_order levels queue.
Proof.
  induction levels as [|levels IH]; intros queue out Hsz H.
  - destruct queue as [|p queue].
    + by inversion H.
    + change (queue_size (p :: queue)) with (attr_size p.1 + queue_size queue) in Hsz.
      rewrite <- (queue_size_kids p) in Hsz. lia.
  - destruct (visits_split queue [] out) as (out' & -> & H').
    { simpl. by rewrite app_nil_r. }
    simpl in H' |- *. f_equal. apply IH; [|done].
    pose proof (queue_size_next_level queue). destruct queue; simpl in *; lia.
Qed.

(** X15. Selection over a collection visits the schema breadth first: the
    triples are those of the kept nodes in the order root, children of the
    root from left to right, grandchildren, and so on. So the callback of a
    node always comes before the callbacks of the nodes below it. *)
Theorem select_callbacks_breadth_first (self : ContextRule)
    (query : list string → HTTPMethodConfig → option pyfunc * Options)
    (root_attr : Attr) (root_state : option State)
    (ret : list (pyfunc * Attr * option State)) :
  _select_callbacks self query root_attr root_state = Ok ret →
  ret = omap (select_node self query root_state)
          (level_order (attr_size root_attr) [(root_attr, root_state)]).
Proof.
  intros Hrun. unfold _select_callbacks in Hrun.
  apply select_callbacks_loop_visits in Hrun as (visited & Hvis & ->). simpl.
  f_equal. apply visits_level_order; [|done].
  unfold queue_size. simpl. lia.
Qed.

Lemma select_callbacks_breadth_first_witness :
  [(1, root_with_child, None); (2, child_attr_a, None)]
  = omap (select_node post_rule query_root_after_child None)
      (level_order (attr_size root_with_child) [(root_with_child, None)]).
Proof.
  exact (select_callbacks_breadth_first post_rule query_root_after_child
           root_with_child None _ eq_refl).
Defined.

Lemma getattr_missing s name :
  name ∉ (st_attributes s).*1 → getattr s name = Raise (AttributeError name).
Proof.
  intros H. unfold getattr.
  destruct (list_find _ _) as [[i [k v]]|] eqn:Hf; [|done].
  apply list_find_Some in Hf as (Hi & Hk & _). simpl in Hk. subst k.
  destruct H. apply list_elem_of_fmap. exists (name, v). split; [done|].
  by eapply list_elem_of_lookup_2.
Qed.

Lemma getattr_present s name :
  name ∈ (st_attributes s).*1 → ∃ v, getattr s name = Ok v.
Proof.
  intros H. unfold getattr. apply list_elem_of_fmap in H as ([k v] & -> & Hin).
  destruct (list_find (λ kv : string * option State, kv.1 = (k, v).1) (st_attributes s))
    as [[i [k' v']]|] eqn:Hf; [eauto|].
  eapply list_find_None, Forall_forall in Hf; [|done]. done.
Qed.

Lemma enqueue_present s before : ∀ q,
  (∀ item : string * Attr, item ∈ before → item.1 ∈ (st_attributes s).*1) →
  ∃ queue, for_each
             (λ (queue : list (Attr * option State)) (item : string * Attr),
                cs ← getattr s item.1; Ok (queue ++ [(item.2, cs)])) before q
           = Ok queue.
Proof.
  induction before as [|item before IH]; intros q Hbefore; [by eexists|].
  simpl. destruct (getattr_present s item.1) as [v ->]; [apply Hbefore; left|].
  simpl. apply IH. intros i Hi. apply Hbefore. by right.
Qed.

(** X16. A state that is true must have an attribute for every child of its
    schema node: selection raises [AttributeError] for the first child, in
    the order of the schema, that the state of the root has no attribute
    for, and nothing is selected. *)
Theorem select_callbacks_missing_state_attribute (self : ContextRule)
    (query : list string → HTTPMethodConfig → option pyfunc * Options)
    (root_attr : Attr) (s : State)
    (before after : list (string * Attr)) (name : string) (child : Attr) :
  st_bool s = true →
  bh_named_children root_attr = before ++ (name, child) :: after →
  (∀ item, item ∈ before → item.1 ∈ (st_attributes s).*1) →
  name ∉ (st_attributes s).*1 →
  _select_callbacks self query root_attr (Some s) = Raise (AttributeError name).
Proof.
  intros Hb Hcs Hbefore Hmiss. unfold _select_callbacks.
  destruct root_attr as [path cs]. cbn [attr_size _select_callbacks_loop].
  destruct (query _ _) as [callback options].
  cbn [bh_named_children] in *. subst cs. simpl state_truthy. rewrite Hb.
  rewrite for_each_app.
  assert (∃ queue, for_each
            (λ (queue : list (Attr * option State)) (item : string * Attr),
               cs ← getattr s item.1; Ok (queue ++ [(item.2, cs)])) before []
            = Ok queue) as [queue ->].
  { by apply enqueue_present. }
  simpl. by rewrite getattr_missing.
Qed.

Lemma select_callbacks_missing_state_attribute_witness :
  _select_callbacks post_rule query_everywhere root_with_child (Some bare_state)
  = Raise (AttributeError "a").
Proof.
  apply (select_callbacks_missing_state_attribute post_rule query_everywhere
           root_with_child bare_state [] [] "a" child_attr_a).
  - reflexivity.
  - reflexivity.
  - intros item H. by apply elem_of_nil in H.
  - simpl. apply not_elem_of_nil.
Defined.

Lemma dict_get_set k k' v d :
  dict_get k (dict_set k' v d) = if String.eqb k k' then v else dict_get k d.
Proof.
  induction d as [|[k0 v0] d IH]; simpl.
  - done.
  - destruct (String.eqb k' k0) eqn:E0; simpl.
    + apply String.eqb_eq in E0 as ->. by destruct (String.eqb k k0).
    + destruct (String.eqb k k0) eqn:E1; [|done].
      apply String.eqb_eq in E1 as ->.
      destruct (String.eqb k0 k') eqn:E2; [|done].
      apply String.eqb_eq in E2 as ->. by rewrite String.eqb_refl in E0.
Qed.

Lemma dict_set_keys k k' v d : k ∈ (dict_set k' v d).*1 ↔ k = k' ∨ k ∈ d.*1.
Proof.
  induction d as [|[k0 v0] d IH]; simpl.
  - rewrite list_elem_of_singleton. split; [by left|]. intros [?|H]; [done|].
    by apply elem_of_nil in H.
  - destruct (String.eqb k' k0) eqn:E0; simpl.
    + apply String.eqb_eq in E0 as ->. rewrite !elem_of_cons. tauto.
    + rewrite !elem_of_cons, IH. tauto.
Qed.

Lemma merge_loop_spec : ∀ cs d,
  let out :=
    (fix loop (cs : list (string * (PyVal * TreeState))) (d : list (string * PyVal)) :=
       match cs with
       | [] => d
       | (name, (value, next)) :: cs' =>
           loop cs' (dict_set name (helper (dict_get name d) value next) d)
       end) cs d in
  (∀ k, k ∉ cs.*1 → dict_get k out = dict_get k d)
  ∧ (∀ k, k ∈ d.*1 ∨ k ∈ cs.*1 → k ∈ out.*1).
Proof.
  induction cs as [|[name [value next]] cs IH]; intros d out.
  - subst out. split; [done|]. intros k [?|H]; [done|]. by apply elem_of_nil in H.
  - destruct (IH (dict_set name (helper (dict_get name d) value next) d)) as [Hget Hkeys].
    split.
    + intros k Hk. simpl in Hk. apply not_elem_of_cons in Hk as [Hne Hk].
      subst out. cbv zeta in Hget. rewrite (Hget k Hk), dict_get_set.
      destruct (String.eqb k name) eqn:E; [|done]. by apply String.eqb_eq in E.
    + intros k Hk. apply Hkeys. rewrite dict_set_keys. simpl in Hk.
      rewrite elem_of_cons in Hk. tauto.
Qed.

(** X17. Merging a tree that has children always gives a dictionary. It holds a
    key for every child; a key that is no child's name has the value it has
    in the result stored for the root path when that result is a dictionary,
    and is missing otherwise: a root result that is not a dictionary is
    dropped. *)
Theorem merge_keeps_root_keys (root_value : option PyVal)
    (cs : list (string * (PyVal * TreeState))) :
  cs ≠ [] →
  ∃ d, _merge_output_of_callbacks (MkTreeState root_value cs) = PyDict d
       ∧ (∀ name, name ∈ cs.*1 → name ∈ d.*1)
       ∧ (∀ k, k ∉ cs.*1 →
            dict_get k d = match root_value with
                           | Some (PyDict d0) => dict_get k d0
                           | _ => PyNone
                           end).
Proof.
  intros Hcs. destruct cs as [|c cs]; [done|].
  unfold _merge_output_of_callbacks. cbn [root_gap helper].
  set (d0 := match (if truthy match root_value with Some value => value | None => PyDict [] end
                    then match root_value with Some value => value | None => PyDict [] end
                    else PyNone) with
             | PyDict d => d
             | _ => []
             end).
  destruct (merge_loop_spec (c :: cs) d0) as [Hget Hkeys]. cbv zeta in Hget, Hkeys.
  eexists. split; [reflexivity|]. split.
  - intros name Hname. apply Hkeys. by right.
  - intros k Hk. rewrite (Hget k Hk). subst d0.
    destruct root_value as [[| | | | |d]|]; simpl; try done.
    + by destruct b.
    + by destruct (negb _).
    + by destruct (negb _).
    + by destruct l.
    + by destruct d.
Qed.

Lemma merge_keeps_root_keys_witness :
  ∃ d, _merge_output_of_callbacks
         (tree_of [[]; ["x"]] [PyDict [("y", PyInt 1)]; PyInt 2]) = PyDict d
       ∧ dict_get "y" d = PyInt 1.
Proof.
  assert ([("x", (PyInt 2, TreeState_new))] ≠ []) as H by discriminate.
  destruct (merge_keeps_root_keys (Some (PyDict [("y", PyInt 1)]))
              [("x", (PyInt 2, TreeState_new))] H) as (d & Hd & _ & Hk).
  exists d. split; [exact Hd|]. apply (Hk "y").
  simpl. intros Hin. apply list_elem_of_singleton in Hin. discriminate.
Defined.

Lemma helper_one_child ret r name value next :
  truthy ret = false →
  helper ret PyNone (MkTreeState r [(name, (value, next))])
  = PyDict [(name, helper PyNone value next)].
Proof. intros Hret. cbn [helper]. by rewrite Hret. Qed.

Lemma helper_single_path (v : PyVal) : ∀ path r ret,
  path ≠ [] → truthy ret = false →
  helper ret PyNone (MkTreeState r (touch_below path v []))
  = nest path (if truthy v then v else PyNone).
Proof.
  induction path as [|name path IH]; intros r ret Hp Hret; [done|].
  destruct path as [|name2 path].
  - change (touch_below [name] v []) with [(name, (v, TreeState_new))].
    by rewrite helper_one_child.
  - change (touch_below (name :: name2 :: path) v [])
      with [(name, (PyNone, MkTreeState None (touch_below (name2 :: path) v [])))].
    rewrite helper_one_child by done. rewrite (IH None PyNone); done.
Qed.

(** X18. One result [v] stored at [path] merges to the nest of dictionaries that
    spells the path, with [v] innermost; a false [v] is replaced by [None],
    except at the root path, where the merge is [v] itself. *)
Theorem merge_single_path (path : list string) (v : PyVal) :
  _merge_output_of_callbacks (tree_of [path] [v])
  = match path with
    | [] => v
    | _ => nest path (if truthy v then v else PyNone)
    end.
Proof.
  unfold _merge_output_of_callbacks, tree_of. cbn [zip zip_with foldl fst snd].
  destruct path as [|name path]; [done|].
  unfold touch_set, TreeState_new. cbn [root_gap children].
  by apply helper_single_path.
Qed.

Section EventLoopResults.

Context {V R : Type} (env : FuncEnv V R).

Lemma coro_step_outcome cache c cache' evs st :
  cache_coherent env cache →
  coro_step env cache c = (cache', evs, st) →
  cache_coherent env cache'
  ∧ match st with
    | StepDone o => o = coro_outcome env c
    | StepPending c' => coro_outcome env c' = coro_outcome env c
    end.
Proof.
  intros Hc. destruct c as [func args kwargs|func args kwargs n]; simpl.
  - destruct args as [|a args].
    + destruct (extract_kwargs_subset_spec env cache func kwargs Hc) as (c1 & -> & Hc1).
      destruct (decide _); [|by intros [= <- <- <-]].
      unfold finish.
      destruct (fn_iscoroutine env func); [destruct (fn_suspensions env func)|];
        try destruct (fn_body env func _ _) eqn:Hb; intros [= <- <- <-]; by split.
    + unfold finish.
      destruct (fn_iscoroutine env func); [destruct (fn_suspensions env func)|];
        try destruct (fn_body env func _ _) eqn:Hb; intros [= <- <- <-]; by split.
  - unfold finish. destruct n; [destruct (fn_body env func _ _) eqn:Hb|];
      intros [= <- <- <-]; by split.
Qed.

Lemma event_loop_results fuel : ∀ cache ready results cache' evs res,
  cache_coherent env cache →
  NoDup ready.*1 →
  event_loop env fuel cache ready results = (cache', evs, Ok res) →
  (∀ i c, (i, c) ∈ ready → ∃ r, res !! i = Some r ∧ coro_outcome env c = Returns r)
  ∧ (∀ i, i ∉ ready.*1 → res !! i = results !! i).
Proof.
  induction fuel as [|fuel IH]; intros cache ready results cache' evs res Hc Hnd.
  - destruct ready as [|[i c] ready]; simpl; intros [= <- <- <-].
    split; [|done]. intros i c H. by apply elem_of_nil in H.
  - destruct ready as [|[i c] ready]; simpl.
    { intros [= <- <- <-]. split; [|done]. intros i c H. by apply elem_of_nil in H. }
    simpl in Hnd. apply NoDup_cons in Hnd as [Hi Hnd].
    destruct (coro_step env cache c) as [[c1 evs1] st] eqn:Hst.
    apply coro_step_outcome in Hst as [Hc1 Hout]; [|done].
    destruct st as [[r|e]|c'].
    + destruct (event_loop env fuel c1 ready _) as [[c2 evs2] res2] eqn:Hl.
      intros [= <- <- ->]. apply IH in Hl as [Hin Hout']; [|done..]. split.
      * intros j d [[= -> ->]|Hj]%elem_of_cons.
        -- exists r. split; [|done]. rewrite (Hout' _ Hi). apply lookup_insert_eq.
        -- by apply Hin.
      * intros j Hj. apply not_elem_of_cons in Hj as [Hne Hj].
        rewrite (Hout' _ Hj). by apply lookup_insert_ne.
    + done.
    + destruct (event_loop env fuel c1 _ _) as [[c2 evs2] res2] eqn:Hl.
      intros [= <- <- ->]. apply IH in Hl as [Hin Hout']; [|done|].
      2:{ rewrite fmap_app. simpl. apply NoDup_app. split; [done|]. split.
          - intros x Hx [->|H]%elem_of_cons; [done|]. by apply elem_of_nil in H.
          - apply NoDup_singleton. }
      split.
      * intros j d [[= -> ->]|Hj]%elem_of_cons.
        -- destruct (Hin i c') as (r & Hr & Ho).
           { apply elem_of_app. right. left. }
           exists r. split; [done|]. congruence.
        -- apply Hin. apply elem_of_app. by left.
      * intros j Hj. apply not_elem_of_cons in Hj as [Hne Hj]. apply Hout'.
        rewrite fmap_app. simpl. intros [H|H]%elem_of_app; [done|].
        apply list_elem_of_singleton in H. done.
Qed.

Lemma rows_of_Forall2 {A B : Type} (P : A → B → Prop) (nested : list (list A)) :
  ∀ l, Forall2 P (concat nested) l →
       Forall2 (Forall2 P) nested (rows_of (length <$> nested) l).
Proof.
  induction nested as [|row nested IH]; intros l H; simpl; [constructor|].
  simpl in H. apply Forall2_app_inv_l in H as (l1 & l2 & H1 & H2 & ->).
  rewrite (Forall2_length _ _ _ H1).
  rewrite take_app_length, drop_app_length. constructor; [done|]. by apply IH.
Qed.

Lemma imap_indices {A : Type} (l : list A) :
  (imap (λ i c, (i, c)) l).*1 = seq 0 (length l).
Proof.
  apply list_eq. intros i. rewrite list_lookup_fmap, list_lookup_imap.
  destruct (l !! i) as [c|] eqn:Hi; simpl.
  - symmetry. apply lookup_seq_lt. by eapply lookup_lt_Some.
  - symmetry. apply lookup_seq_ge. by apply lookup_ge_None.
Qed.

Lemma gather_nested_results cache nested dflt cache' evs rows :
  cache_coherent env cache →
  gather_nested env cache nested dflt = (cache', evs, Ok rows) →
  Forall2 (Forall2 (λ c r, coro_outcome env c = Returns r)) nested rows.
Proof.
  intros Hc. unfold gather_nested.
  destruct (event_loop _ _ _ _ _) as [[c1 evs1] [res| |]] eqn:Hl; [|done..].
  intros [= <- <- <-].
  apply event_loop_results in Hl as [Hin _]; [|done|].
  2:{ rewrite imap_indices. apply NoDup_seq. }
  apply rows_of_Forall2. apply Forall2_same_length_lookup. split.
  - by rewrite length_fmap, length_seq.
  - intros i c r Hi Hr. rewrite list_lookup_fmap in Hr.
    assert (i < length (concat nested)) as Hlt by (by eapply lookup_lt_Some).
    rewrite lookup_seq_lt in Hr by done. simpl in Hr. injection Hr as <-.
    destruct (Hin i c) as (r & -> & Ho); [|done].
    apply list_elem_of_lookup. exists i. rewrite list_lookup_imap, Hi. done.
Qed.

End EventLoopResults.

Lemma coroutines_of_outcome self selected rets :
  Forall2 (λ c r, coro_outcome (functions self) c = Returns r)
    (coroutines_of self selected).1 rets →
  Forall2 (callback_returns self) selected rets.
Proof.
  unfold coroutines_of. simpl. intros H. apply Forall2_fmap_l in H.
  eapply Forall2_impl; [exact H|]. intros [[cb attr] st] ret. simpl.
  unfold callback_returns. simpl. by destruct (decide _).
Qed.

(** [select_callbacks] maps the three collection names, [resource_id]
    last and to the empty sequence. *)
Lemma select_callbacks_names
    (rule : ContextRule) (res : Resource) (state : ResourceState)
    (name2selected : list (string * list (pyfunc * Attr * option State))) :
  select_callbacks rule res state = Ok name2selected →
  ∃ n1 s1 n2 s2,
    name2selected = [(n1, s1); (n2, s2); ("resource_id", [])]
    ∧ ((n1 = "attributes" ∧ n2 = "relationships")
       ∨ (n1 = "relationships" ∧ n2 = "attributes")).
Proof.
  unfold select_callbacks. simpl.
  destruct (res_attributes res) as [ca|]; simpl.
  - destruct (_select_callbacks rule _ (attr_obj ca) _) as [a| |]; simpl; [|done..].
    destruct (res_relationships res) as [cr|]; simpl.
    + destruct (_select_callbacks rule _ (attr_obj cr) _) as [r| |]; simpl; [|done..].
      intros [= <-]. eexists _, _, _, _. split; [reflexivity|]. eauto.
    + intros [= <-]. eexists _, _, _, _. split; [reflexivity|]. eauto.
  - destruct (res_relationships res) as [cr|]; simpl.
    + destruct (_select_callbacks rule _ (attr_obj cr) _) as [r| |]; simpl; [|done..].
      intros [= <-]. eexists _, _, _, _. split; [reflexivity|]. eauto.
    + intros [= <-]. eexists _, _, _, _. split; [reflexivity|]. eauto.
Qed.

(** What a successful Invoke phase stores, collection by collection. *)
Lemma invoke_callbacks_results
    (self : PipelineBase) (w w' : World) (st : ResourceState)
    (name2selected : list (string * list (pyfunc * Attr * option State))) :
  cache_coherent (functions self) (w_cache w) →
  input_state w = Some st →
  select_callbacks (context_rule self) (resource self) st = Ok name2selected →
  _invoke_callbacks self w = (w', Ok tt) →
  ∃ raw,
    merged_output_of_callbacks w' = Some raw
    ∧ raw_resource_id raw = PyDict []
    ∧ ∀ name selected, (name, selected) ∈ name2selected →
        ∃ rets,
          Forall2 (callback_returns self) selected rets
          ∧ raw_field name raw
            = Some (_merge_output_of_callbacks
                      (tree_of ((λ t : pyfunc * Attr * option State, bh_path t.1.2)
                                  <$> selected) rets)).
Proof.
  intros Hc Hin Hsel. unfold _invoke_callbacks, and_then, get_attr, lift.
  rewrite Hin, Hsel.
  destruct (gather_nested _ _ _ _) as [[c1 evs1] res1] eqn:Hg.
  destruct res1 as [joined| |]; [|done..].
  apply gather_nested_results in Hg; [|done].
  destruct (select_callbacks_names _ _ _ _ Hsel) as (n1 & s1 & n2 & s2 & -> & Hnames).
  cbn [fmap list_fmap fst snd] in Hg |- *.
  apply Forall2_cons_inv_l in Hg as (j1 & joined1 & H1 & Hg & ->).
  apply Forall2_cons_inv_l in Hg as (j2 & joined2 & H2 & Hg & ->).
  apply Forall2_cons_inv_l in Hg as (j3 & joined3 & H3 & Hg & ->).
  apply Forall2_nil_inv_l in Hg as ->.
  apply coroutines_of_outcome in H1, H2.
  unfold coroutines_of in H3. simpl in H3. apply Forall2_nil_inv_l in H3 as ->.
  cbn [zip zip_with foldl fst snd].
  set (m1 := _merge_output_of_callbacks (tree_of (coroutines_of self s1).2 j1)).
  set (m2 := _merge_output_of_callbacks (tree_of (coroutines_of self s2).2 j2)).
  assert (_merge_output_of_callbacks (tree_of (coroutines_of self []).2 []) = PyDict [])
    as -> by reflexivity.
  destruct Hnames as [[-> ->]|[-> ->]].
  - intros [= <-]. eexists. split; [reflexivity|]. split; [reflexivity|].
    intros name selected Hns.
    repeat (apply elem_of_cons in Hns as [[= -> ->]|Hns]); [| | |by apply elem_of_nil in Hns].
    + exists j1. split; [done|]. reflexivity.
    + exists j2. split; [done|]. reflexivity.
    + exists []. split; [constructor|]. reflexivity.
  - intros [= <-]. eexists. split; [reflexivity|]. split; [reflexivity|].
    intros name selected Hns.
    repeat (apply elem_of_cons in Hns as [[= -> ->]|Hns]); [| | |by apply elem_of_nil in Hns].
    + exists j1. split; [done|]. reflexivity.
    + exists j2. split; [done|]. reflexivity.
    + exists []. split; [constructor|]. reflexivity.
Qed.

(** X19. When the Invoke phase succeeds it stores a container whose field for a
    collection is the merge of the results of the callbacks selected for
    that collection, each stored at the path of its schema node; every such
    result is what the callback returned when called with the keywords of
    the context that its signature names, all its parameters without default
    being among them. The field of [resource_id] is always the empty
    dictionary. *)
Theorem invoke_merges_results_by_path
    (self : PipelineBase) (w w' : World) (st : ResourceState)
    (name2selected : list (string * list (pyfunc * Attr * option State))) :
  cache_coherent (functions self) (w_cache w) →
  input_state w = Some st →
  select_callbacks (context_rule self) (resource self) st = Ok name2selected →
  _invoke_callbacks self w = (w', Ok tt) →
  ∃ raw,
    merged_output_of_callbacks w' = Some raw
    ∧ raw_resource_id raw = PyDict []
    ∧ ∀ name selected, (name, selected) ∈ name2selected →
        ∃ rets,
          Forall2 (callback_returns self) selected rets
          ∧ raw_field name raw
            = Some (_merge_output_of_callbacks
                      (tree_of ((λ t : pyfunc * Attr * option State, bh_path t.1.2)
                                  <$> selected) rets)).
Proof.
  intros Hc Hin Hsel Hrun.
  destruct (invoke_callbacks_results self w w' st name2selected Hc Hin Hsel Hrun)
    as (raw & Hraw & Hid & Hall).
  exists raw. split; [exact Hraw|]. split; [exact Hid|].
  intros name selected Hns. destruct (Hall name selected Hns) as (rets & Hrets & Hfield).
  exists rets. split; [exact Hrets|exact Hfield].
Qed.

(** X14. [_default_validator] validates only the components that are true in
    Python's sense: the state is valid exactly when each of them validates
    for the method of the rule. A component that is [None] or false is not
    asked, so a state without true components is valid. *)
Theorem default_validator_skips_falsy (self : ContextRule) (state : ResourceState) :
  (_default_validator self state = true ↔
   ∀ s, Some s ∈ validated_components state → st_bool s = true →
        st_validate s (HTTPMethod self) = true)
  ∧ ((∀ x, x ∈ validated_components state → state_truthy x = false) →
     _default_validator self state = true).
Proof.
  assert (_default_validator self state = true ↔
          ∀ s, Some s ∈ validated_components state → st_bool s = true →
               st_validate s (HTTPMethod self) = true) as Hchar.
  { unfold _default_validator. fold (validated_components state).
    rewrite forallb_forall. split.
    - intros H s Hin Hb. apply (H (Some s)). apply list_elem_of_In.
      apply list_elem_of_filter. done.
    - intros H [s|] Hin; [|done]. apply list_elem_of_In, list_elem_of_filter in Hin as [Hb Hin].
      by apply H. }
  split; [done|]. intros Hfalsy. apply Hchar. intros s Hin Hb.
  specialize (Hfalsy _ Hin). simpl in Hfalsy. congruence.
Qed.

(** X21. An exception raised while the input state is built leaves [run] at
    once, with nothing stored and no callback selected or called. The base
    [StateTreeBuilder] always does so: a pipeline built on it fails with
    [TypeError]. *)
Theorem run_stops_when_input_state_cannot_be_built
    (self : PipelineBase) (w : World) (e : Exception) :
  build_input_state (state_builder self) (resource self) = Raises e →
  run self w = (w, Raise e).
Proof.
  intros Hb. unfold run, _build_input_state, and_then, lift. by rewrite Hb.
Qed.

Lemma run_stops_when_input_state_cannot_be_built_witness :
  run (MkPipelineBase (MkResource (Some ordered_collection) None None) post_rule
         base_StateTreeBuilder None plain_functions) (new_world ∅)
  = (new_world ∅, Raise TypeError).
Proof.
  exact (run_stops_when_input_state_cannot_be_built
           (MkPipelineBase (MkResource (Some ordered_collection) None None) post_rule
              base_StateTreeBuilder None plain_functions) (new_world ∅) TypeError eq_refl).
Defined.

Lemma invoke_callbacks_frame (self : PipelineBase) (w w' : World) (r : Result unit) :
  _invoke_callbacks self w = (w', r) →
  input_state w' = input_state w
  ∧ output_state w' = output_state w
  ∧ representation w' = representation w
  ∧ match r with
    | Ok _ => is_Some (merged_output_of_callbacks w')
    | _ => merged_output_of_callbacks w' = merged_output_of_callbacks w
    end.
Proof.
  unfold _invoke_callbacks, and_then, get_attr, lift.
  destruct (input_state w) as [st|] eqn:Hin; [|by intros [= <- <-]].
  destruct (select_callbacks _ _ _) as [sel|e|]; [|by intros [= <- <-]..].
  destruct (gather_nested _ _ _ _) as [[c evs] [joined|e|]]; [|by intros [= <- <-]..].
  destruct (make_container _) as [raw|e|]; intros [= <- <-]; simpl; eauto.
Qed.

(** X22. When the output state fails validation, [run] raises only after the
    Invoke phase has ended: the callbacks have been called, the merged
    output and the output state are stored, and no representation is
    assigned. *)
Theorem run_output_invalid_after_callbacks
    (self : PipelineBase) (w w2 : World) (st st' : ResourceState)
    (raw : RawOutputStateContainer) :
  build_input_state (state_builder self) (resource self) = Returns st →
  validate_input_state (context_rule self) st = true →
  _invoke_callbacks self
    (MkWorld (Some st) (merged_output_of_callbacks w) (output_state w)
             (representation w) (w_cache w) (w_trace w))
  = (w2, Ok tt) →
  merged_output_of_callbacks w2 = Some raw →
  build_output_state (state_builder self) (resource self) raw = Returns st' →
  validate_output_state (context_rule self) st' = false →
  run self w
  = (MkWorld (Some st) (Some raw) (Some st') (representation w) (w_cache w2) (w_trace w2),
     Raise output_state_not_valid).
Proof.
  intros Hb Hv Hinv Hraw Hbo Hvo.
  destruct (invoke_callbacks_frame _ _ _ _ Hinv) as (Hi & Ho & Hr & _). simpl in *.
  unfold run, and_then. unfold _build_input_state at 1. unfold and_then, lift.
  rewrite Hb. simpl. rewrite Hv, Hinv.
  unfold _build_output_state, and_then, get_attr, lift. rewrite Hraw, Hbo. simpl.
  rewrite Hvo, Hi, Hraw, Hr. done.
Qed.

Lemma run_output_invalid_after_callbacks_witness :
  (run invalid_output_pipeline (new_world ∅)).2 = Raise output_state_not_valid
  ∧ called (w_trace (run invalid_output_pipeline (new_world ∅)).1) = [1; 2]
  ∧ representation (run invalid_output_pipeline (new_world ∅)).1 = None.
Proof.
  pose proof (run_output_invalid_after_callbacks invalid_output_pipeline (new_world ∅)
                (_invoke_callbacks invalid_output_pipeline
                   (MkWorld (Some empty_resource_state) None None None ∅ [])).1
                empty_resource_state (MkResourceState (Some invalid_state) None None)
                (MkRawOutputStateContainer (PyDict [("a", PyNone)]) (PyDict []) (PyDict []))
                eq_refl eq_refl eq_refl eq_refl eq_refl eq_refl) as H.
  rewrite H. repeat split.
Defined.



Lemma invoke_merges_results_by_path_witness :
  ∃ raw,
    merged_output_of_callbacks
      (_invoke_callbacks ordered_pipeline
         (MkWorld (Some empty_resource_state) None None None ∅ [])).1 = Some raw
    ∧ raw_resource_id raw = PyDict [].
Proof.
  assert (_invoke_callbacks ordered_pipeline
            (MkWorld (Some empty_resource_state) None None None ∅ [])
          = ((_invoke_callbacks ordered_pipeline
                (MkWorld (Some empty_resource_state) None None None ∅ [])).1, Ok tt)) as H.
  { vm_compute. reflexivity. }
  destruct (invoke_merges_results_by_path ordered_pipeline
              (MkWorld (Some empty_resource_state) None None None ∅ []) _
              empty_resource_state _ (empty_cache_coherent _) eq_refl
              ordered_pipeline_selection H) as (raw & Hraw & Hid & _).
  exists raw. by split.
Defined.



Lemma dom_callback_kwargs rule attr state :
  dom (callback_kwargs rule attr state) = supplied_keywords rule.
Proof.
  unfold callback_kwargs, supplied_keywords.
  destruct (cr_raw_resource_id rule); simpl; rewrite ?dom_insert_L, dom_empty_L; set_solver.
Qed.

(** X20. A context rule supplies the keywords [attr] and [state] only, and
    [resource_id] too when it is a [ContextRuleWithResourceID]. When a
    selected callback has a parameter without default that is not among
    them, the Invoke phase raises and stores no merged output. *)
Theorem invoke_fails_on_unsupplied_parameter
    (self : PipelineBase) (w : World) (st : ResourceState)
    (name2selected : list (string * list (pyfunc * Attr * option State)))
    (name : string) (selected : list (pyfunc * Attr * option State))
    (t : pyfunc * Attr * option State) (p : string) :
  cache_coherent (functions self) (w_cache w) →
  input_state w = Some st →
  select_callbacks (context_rule self) (resource self) st = Ok name2selected →
  (name, selected) ∈ name2selected → t ∈ selected →
  p ∈ params_without_default (functions self) t.1.1 →
  p ∉ supplied_keywords (context_rule self) →
  ∃ e, (_invoke_callbacks self w).2 = Raise e
       ∧ merged_output_of_callbacks (_invoke_callbacks self w).1
         = merged_output_of_callbacks w.
Proof.
  intros Hc Hin Hsel Hns Ht Hp Hnp.
  destruct (_invoke_callbacks self w) as [w' r] eqn:Hrun. simpl.
  destruct r as [[]|e|].
  - exfalso.
    destruct (invoke_callbacks_results self w w' st name2selected Hc Hin Hsel Hrun)
      as (raw & _ & _ & Hall).
    destruct (Hall name selected Hns) as (rets & Hrets & _).
    apply list_elem_of_lookup in Ht as [i Hi].
    destruct (Forall2_lookup_l _ _ _ _ _ Hrets Hi) as (ret & _ & Hsub & _).
    apply Hnp. rewrite <- (dom_callback_kwargs _ t.1.2 t.2). by apply Hsub.
  - exists e. split; [done|].
    by destruct (invoke_callbacks_frame _ _ _ _ Hrun) as (_ & _ & _ & ?).
  - exfalso. revert Hrun. unfold _invoke_callbacks, and_then, get_attr, lift.
    rewrite Hin, Hsel.
    destruct (gather_nested _ _ _ _) as [[c1 evs1] res1] eqn:Hg.
    apply gather_nested_launch in Hg as [Hne _].
    2:{ apply Forall_fmap, Forall_forall. intros kv _. unfold coroutines_of. simpl.
        apply Forall_fmap, Forall_forall. by intros [[? ?] ?] _. }
    destruct res1 as [joined| |]; [|done..].
    unfold make_container. repeat case_match; done.
Qed.

Lemma invoke_fails_on_unsupplied_parameter_witness :
  ∃ e, (_invoke_callbacks resource_id_pipeline
          (MkWorld (Some empty_resource_state) None None None ∅ [])).2 = Raise e.
Proof.
  destruct (invoke_fails_on_unsupplied_parameter resource_id_pipeline
              (MkWorld (Some empty_resource_state) None None None ∅ [])
              empty_resource_state _ "attributes"
              [(1, root_with_child, None); (2, child_attr_a, None)]
              (1, root_with_child, None) "resource_id"
              (empty_cache_coherent _) eq_refl ordered_pipeline_selection)
    as (e & He & _).
  - left.
  - left.
  - unfold params_without_default. simpl. set_solver.
  - unfold supplied_keywords. simpl. set_solver.
  - by exists e.
Defined.

Lemma bind_context_rule_spec binder cr :
  bind_context_rule binder [] (<["context_rule" := cr]> ∅)
  = Returns (<["context_rule" := cr]> binder).
Proof.
  unfold bind_context_rule, method_named_args, bind_self_with_options. simpl.
  rewrite lookup_insert_eq, delete_insert_eq, delete_empty. simpl.
  by rewrite decide_True.
Qed.

Lemma bind_on_binder name self binder cr :
  self !! name = Some (ObjBinder binder) → self !! "context_rule" = Some cr →
  bind_on name self = Returns (<[name := ObjBinder (<["context_rule" := cr]> binder)]> self).
Proof.
  intros Hn Hc. unfold bind_on. rewrite Hn, Hc. by rewrite bind_context_rule_spec.
Qed.

Lemma bind_on_other name self o cr :
  self !! name = Some o → self !! "context_rule" = Some cr →
  (∀ binder, o ≠ ObjBinder binder) →
  bind_on name self = Raises (AttributeError "bind_context_rule").
Proof.
  intros Hn Hc Ho. unfold bind_on. rewrite Hn, Hc. destruct o as [|b|i]; [done| |done].
  by destruct (Ho b).
Qed.

(** X24. The constructor of [PipelineBase], given keywords, binds [resource],
    [context_rule], [state_builder] and [rep_generator] on the pipeline and
    then binds the context rule on the state builder and on the
    representation generator, so that both hold the context rule of the
    pipeline. It needs both: when [state_builder] or [rep_generator] is not
    given, or is [None] or an object that is not a context rule binder, the
    constructor raises [AttributeError]. *)
Theorem pipeline_init_binds_context_rule
    (self kwargs : gmap string Obj) :
  dom kwargs ⊆ {["resource"; "context_rule"; "state_builder"; "rep_generator"]} →
  let context_rule := default ObjNone (kwargs !! "context_rule") in
  match kwargs !! "state_builder", kwargs !! "rep_generator" with
  | Some (ObjBinder sb), Some (ObjBinder rg) =>
      ∃ self',
        PipelineBase_init self [] kwargs = Returns self'
        ∧ self' !! "resource" = Some (default ObjNone (kwargs !! "resource"))
        ∧ self' !! "context_rule" = Some context_rule
        ∧ self' !! "state_builder"
          = Some (ObjBinder (<["context_rule" := context_rule]> sb))
        ∧ self' !! "rep_generator"
          = Some (ObjBinder (<["context_rule" := context_rule]> rg))
        ∧ ∀ k, k ∉ ["resource"; "context_rule"; "state_builder"; "rep_generator"] →
               self' !! k = self !! k
  | _, _ => PipelineBase_init self [] kwargs = Raises (AttributeError "bind_context_rule")
  end.
Proof.
  intros Hdom context_rule.
  unfold PipelineBase_init, method_named_args.
  assert (foldl (λ (kw : gmap string Obj) name, delete name kw) kwargs
            ["resource"; "context_rule"; "state_builder"; "rep_generator"] = ∅) as ->.
  { apply map_eq. intros k. rewrite pop_names_lookup, lookup_empty.
    case_decide as Hk; [done|]. apply not_elem_of_dom. intros Hd.
    apply Hdom in Hd. apply Hk. set_solver. }
  set (self1 := bind_self_with_options ObjNone
                  ["resource"; "context_rule"; "state_builder"; "rep_generator"]
                  self kwargs).
  assert (∀ k, self1 !! k
               = if decide (k ∈ ["resource"; "context_rule"; "state_builder"; "rep_generator"])
                 then Some (default ObjNone (kwargs !! k)) else self !! k) as Hself
    by apply bind_self_with_options_lookup.
  assert (self1 !! "state_builder" = Some (default ObjNone (kwargs !! "state_builder")))
    as Hsb by (rewrite Hself; apply decide_True; set_solver).
  assert (self1 !! "rep_generator" = Some (default ObjNone (kwargs !! "rep_generator")))
    as Hrg by (rewrite Hself; apply decide_True; set_solver).
  assert (self1 !! "context_rule" = Some context_rule)
    as Hcr by (rewrite Hself; apply decide_True; set_solver).
  assert (self1 !! "resource" = Some (default ObjNone (kwargs !! "resource")))
    as Hres by (rewrite Hself; apply decide_True; set_solver).
  clearbody self1.
  unfold PipelineBase_init_body, takes_only_self. rewrite decide_True by done.
  destruct (kwargs !! "state_builder") as [[|sb|i]|] eqn:Ksb; cbn [default] in Hsb;
    try (rewrite (bind_on_other _ _ _ _ Hsb Hcr) by done;
         by destruct (kwargs !! "rep_generator") as [[| |]|]).
  rewrite (bind_on_binder _ _ _ _ Hsb Hcr).
  assert (∀ o, self1 !! "rep_generator" = Some o →
            <["state_builder" := ObjBinder (<["context_rule" := context_rule]> sb)]> self1
              !! "rep_generator" = Some o) as Hrg'.
  { intros o Ho. by rewrite lookup_insert_ne. }
  assert (<["state_builder" := ObjBinder (<["context_rule" := context_rule]> sb)]> self1
            !! "context_rule" = Some context_rule) as Hcr'.
  { by rewrite lookup_insert_ne. }
  destruct (kwargs !! "rep_generator") as [[|rg|i]|] eqn:Krg; cbn [default] in Hrg;
    try (by rewrite (bind_on_other _ _ _ _ (Hrg' _ Hrg) Hcr')).
  rewrite (bind_on_binder _ _ _ _ (Hrg' _ Hrg) Hcr').
  eexists. split; [reflexivity|].
  split; [by rewrite !lookup_insert_ne|]. split; [by rewrite !lookup_insert_ne|].
  split; [by rewrite lookup_insert_ne, lookup_insert_eq|].
  split; [by rewrite lookup_insert_eq|].
  intros k Hk. rewrite !lookup_insert_ne by (intros <-; apply Hk; set_solver).
  rewrite Hself. by rewrite decide_False.
Qed.

Lemma pipeline_init_binds_context_rule_witness :
  PipelineBase_init ∅ []
    (<["state_builder" := ObjBinder ∅]> (<["context_rule" := ObjOther 1]> ∅))
  = Raises (AttributeError "bind_context_rule").
Proof.
  refine (pipeline_init_binds_context_rule ∅
            (<["state_builder" := ObjBinder ∅]> (<["context_rule" := ObjOther 1]> ∅)) _).
  rewrite !dom_insert_L, dom_empty_L. set_solver.
Defined.

(** X25. The representation is generated last, from the validated output
    state: once the Invoke phase has succeeded and the output state is
    valid, [run] first assigns [None] to [representation]; without a
    representation generator it stays [None] and [run] succeeds; with one,
    [run] stores what [generate_representation] returns, and when that
    raises the exception leaves [run] with [representation] still [None].
    With the [RepresentationGenerator] of the base class the representation
    is the empty dictionary. *)
Theorem run_generates_representation_last
    (self : PipelineBase) (w w2 : World) (st st' : ResourceState)
    (raw : RawOutputStateContainer) :
  build_input_state (state_builder self) (resource self) = Returns st →
  validate_input_state (context_rule self) st = true →
  _invoke_callbacks self
    (MkWorld (Some st) (merged_output_of_callbacks w) (output_state w)
             (representation w) (w_cache w) (w_trace w))
  = (w2, Ok tt) →
  merged_output_of_callbacks w2 = Some raw →
  build_output_state (state_builder self) (resource self) raw = Returns st' →
  validate_output_state (context_rule self) st' = true →
  run self w
  = match rep_generator self with
    | None =>
        (MkWorld (Some st) (Some raw) (Some st') (Some None) (w_cache w2) (w_trace w2),
         Ok tt)
    | Some generate_representation =>
        match generate_representation (resource self) st' with
        | Returns rep =>
            (MkWorld (Some st) (Some raw) (Some st') (Some (Some rep))
                     (w_cache w2) (w_trace w2), Ok tt)
        | Raises e =>
            (MkWorld (Some st) (Some raw) (Some st') (Some None)
                     (w_cache w2) (w_trace w2), Raise e)
        end
    end.
Proof.
  intros Hb Hv Hinv Hraw Hbo Hvo.
  destruct (invoke_callbacks_frame _ _ _ _ Hinv) as (Hi & Ho & Hr & _). simpl in *.
  unfold run, and_then. unfold _build_input_state at 1. unfold and_then, lift.
  rewrite Hb. simpl. rewrite Hv, Hinv.
  unfold _build_output_state, and_then, get_attr, lift. rewrite Hraw, Hbo. simpl.
  rewrite Hvo. unfold _generate_representation, and_then, get_attr, lift. simpl.
  rewrite Hi, Hraw.
  destruct (rep_generator self) as [generate|]; [|done].
  unfold and_then, get_attr, lift. simpl.
  by destruct (generate (resource self) st').
Qed.

Lemma run_generates_representation_last_witness :
  (run represented_pipeline (new_world ∅)).2 = Ok tt
  ∧ representation (run represented_pipeline (new_world ∅)).1 = Some (Some (PyDict [])).
Proof.
  pose proof (run_generates_representation_last represented_pipeline (new_world ∅)
                (_invoke_callbacks represented_pipeline
                   (MkWorld (Some empty_resource_state) None None None ∅ [])).1
                empty_resource_state empty_resource_state
                (MkRawOutputStateContainer (PyDict [("a", PyNone)]) (PyDict []) (PyDict []))
                eq_refl eq_refl eq_refl eq_refl eq_refl eq_refl) as H.
  rewrite H. split; reflexivity.
Defined.
